(** * Archive ingestion and image serving of the image-classifier app

  A shallow embedding of the upload route ([extractZip], [POST]) and of the
  image route ([GET]), with the properties of the ingestion pipeline.

  - JavaScript strings are [string]s; a character of the model is one code
    unit, compared by its code.
  - The file system is a finite map from paths, spelled as the handlers
    spell them, to nodes; the handlers thread it explicitly and may throw.
    Parent directories are not tracked.
  - [yauzl] is a parameter: it turns the bytes of a file into the events
    the handlers observe.  With [lazyEntries] the code asks for the next
    entry only when the current one is settled, so entries are handled one
    after the other.
  - The extractions of this model are those in which every write stream
    closes.  When a write stream reports an error, its ['error'] handler
    and its ['close'] handler both call [zipfile.readEntry()]: [yauzl] is
    asked for two entries at once, entries are no longer handled one after
    the other, and what [yauzl] emits then is not decided by this
    repository.  No statement below is about such an extraction.
  - The readings of [Date.now()] are inputs; logging is left out.
  - Node's [path] functions are modelled in their POSIX flavour.
  - Of the classify route, [getImageBase64] and the reading of the
    classification are modelled; [decodeURIComponent] and the base64
    encoder are parameters, the call to the vision model is left out.
  - Of the page, the part of [handleFile] that turns the answer of the
    upload route into the images it shows is modelled; the shuffle is a
    parameter. *)

From stdpp Require Import gmap strings pretty sorting list.
From Stdlib Require Import Ascii.

(** ** JavaScript string primitives *)

Module Js.

Definition is_slash (c : ascii) : bool := bool_decide (c = "/"%char).

(** [s.length] *)
Abbreviation length := String.length.

(** [s.startsWith(pre)] *)
Fixpoint startsWith (s pre : string) {struct pre} : bool :=
  match pre, s with
  | EmptyString, _ => true
  | String p pre', String c s' => bool_decide (c = p) && startsWith s' pre'
  | String _ _, EmptyString => false
  end.

(** [s.slice(n)] for [0 <= n] *)
Fixpoint slice_from (n : nat) (s : string) : string :=
  match n, s with
  | O, _ => s
  | S n', String _ s' => slice_from n' s'
  | S _, EmptyString => EmptyString
  end.

(** [s.slice(0, n)] for [0 <= n] *)
Fixpoint slice_to (n : nat) (s : string) : string :=
  match n, s with
  | O, _ => EmptyString
  | S n', String c s' => String c (slice_to n' s')
  | S _, EmptyString => EmptyString
  end.

(** [s.endsWith(suf)] *)
Definition endsWith (s suf : string) : bool :=
  bool_decide (length suf <= length s) &&
  bool_decide (slice_from (length s - length suf) s = suf).

Definition map_chars (f : ascii -> ascii) : string -> string :=
  fix go s :=
    match s with
    | EmptyString => EmptyString
    | String c s' => String (f c) (go s')
    end.

Definition lower_char (c : ascii) : ascii :=
  let n := nat_of_ascii c in
  if bool_decide (65 <= n <= 90) then ascii_of_nat (n + 32) else c.

(** [s.toLowerCase()], on the code units of the model *)
Definition toLowerCase : string -> string := map_chars lower_char.

(** [s.replace(/\\/g, '/')] *)
Definition backslash_to_slash (c : ascii) : ascii :=
  if bool_decide (c = "\"%char) then "/"%char else c.
Definition replace_backslashes : string -> string :=
  map_chars backslash_to_slash.

(** [s.split('/')] *)
Fixpoint split_slash (s : string) : list string :=
  match s with
  | EmptyString => [EmptyString]
  | String c s' =>
      if is_slash c then EmptyString :: split_slash s'
      else match split_slash s' with
           | [] => [String c EmptyString]
           | h :: t => String c h :: t
           end
  end.

(** [parts.join('/')] *)
Fixpoint join_slash (parts : list string) : string :=
  match parts with
  | [] => EmptyString
  | [p] => p
  | p :: rest => p +:+ "/" +:+ join_slash rest
  end.

(** [Array.from(new Set(xs))]: a JavaScript [Set] iterates in insertion
    order, so the array keeps the first occurrence of every element. *)
Fixpoint array_from_set_go (seen : gset string) (xs : list string)
  : list string :=
  match xs with
  | [] => []
  | x :: xs' =>
      if decide (x ∈ seen) then array_from_set_go seen xs'
      else x :: array_from_set_go ({[x]} ∪ seen) xs'
  end.
Definition array_from_set : list string -> list string :=
  array_from_set_go ∅.

(** [xs.sort()] with the default comparator: ascending code-unit order. *)
Definition sort : list string -> list string := merge_sort String.le.

End Js.

(** ** Node's [path] module (POSIX flavour)

  The repository imports [path] from Node; the functions below follow its
  documented behaviour on POSIX paths, segment by segment. *)

Module Path.
Import Js.

(** The non-empty components of a path. *)
Definition segments (p : string) : list string :=
  filter (fun s => s ≠ EmptyString) (split_slash p).

Definition isAbsolute (p : string) : bool := startsWith p "/".

(** [path.basename(p)]: the last component, trailing separators ignored. *)
Definition basename (p : string) : string :=
  default EmptyString (last (segments p)).

(** The part of a component from its last dot on, if it has a dot. *)
Fixpoint last_dot_suffix (s : string) : option string :=
  match s with
  | EmptyString => None
  | String c s' =>
      match last_dot_suffix s' with
      | Some r => Some r
      | None => if bool_decide (c = "."%char) then Some s else None
      end
  end.

(** Extension of one component: from the last dot to the end; empty when
    there is no dot, when the only dot is the first character, or when the
    component is [".."]. *)
Definition ext_of_component (b : string) : string :=
  match b with
  | EmptyString => EmptyString
  | String _ b' =>
      if bool_decide (b = "..") then EmptyString
      else default EmptyString (last_dot_suffix b')
  end.

(** [path.extname(p)] *)
Definition extname (p : string) : string := ext_of_component (basename p).

(** [path.basename(p, suffix)] *)
Definition basename_suffix (p suffix : string) : string :=
  if bool_decide (suffix = EmptyString) then basename p
  else if bool_decide (length p < length suffix) then basename p
  else if bool_decide (suffix = p) then EmptyString
  else
    let b := basename p in
    if endsWith b suffix && negb (bool_decide (b = suffix))
    then slice_to (length b - length suffix) b
    else b.

(** [normalizeString]: resolves ["."] and [".."] components; the stack
    holds the kept components, last one first. *)
Fixpoint normalize_segments (allowAboveRoot : bool) (stack : list string)
    (segs : list string) : list string :=
  match segs with
  | [] => stack
  | s :: rest =>
      if bool_decide (s = EmptyString) || bool_decide (s = ".") then
        normalize_segments allowAboveRoot stack rest
      else if bool_decide (s = "..") then
        match stack with
        | top :: below =>
            if bool_decide (top = "..") then
              normalize_segments allowAboveRoot
                (if allowAboveRoot then ".." :: stack else stack) rest
            else normalize_segments allowAboveRoot below rest
        | [] =>
            normalize_segments allowAboveRoot
              (if allowAboveRoot then [".."] else []) rest
        end
      else normalize_segments allowAboveRoot (s :: stack) rest
  end.

Definition normalizeString (p : string) (allowAboveRoot : bool) : string :=
  join_slash (reverse (normalize_segments allowAboveRoot [] (split_slash p))).

(** [path.normalize(p)] *)
Definition normalize (p : string) : string :=
  if bool_decide (p = EmptyString) then "."
  else
    let isAbs := isAbsolute p in
    let trailingSeparator := endsWith p "/" in
    let n := normalizeString p (negb isAbs) in
    if bool_decide (n = EmptyString) then
      if isAbs then "/" else if trailingSeparator then "./" else "."
    else
      let n' := if trailingSeparator then n +:+ "/" else n in
      if isAbs then "/" +:+ n' else n'.

(** [path.join(...args)] *)
Definition join (args : list string) : string :=
  match filter (fun s => s ≠ EmptyString) args with
  | [] => "."
  | parts => normalize (join_slash parts)
  end.

(** The right-to-left loop of [path.resolve]: [rargs] are the arguments,
    last one first, followed by the working directory. *)
Fixpoint resolve_go (rargs : list string) (acc : string) : string * bool :=
  match rargs with
  | [] => (acc, false)
  | p :: rest =>
      if bool_decide (p = EmptyString) then resolve_go rest acc
      else
        let acc' := p +:+ "/" +:+ acc in
        if isAbsolute p then (acc', true) else resolve_go rest acc'
  end.

(** [path.resolve(...args)], [cwd] being [process.cwd()] *)
Definition resolve (cwd : string) (args : list string) : string :=
  let '(rp, abs) := resolve_go (reverse args ++ [cwd]) EmptyString in
  let n := normalizeString rp (negb abs) in
  if abs then "/" +:+ n
  else if bool_decide (n = EmptyString) then "." else n.

Fixpoint strip_common (xs ys : list string) : list string * list string :=
  match xs, ys with
  | x :: xs', y :: ys' =>
      if bool_decide (x = y) then strip_common xs' ys' else (xs, ys)
  | _, _ => (xs, ys)
  end.

(** [path.relative(from, to)] *)
Definition relative (cwd from to : string) : string :=
  let from' := resolve cwd [from] in
  let to' := resolve cwd [to] in
  if bool_decide (from' = to') then EmptyString
  else
    let '(up, down) := strip_common (segments from') (segments to') in
    join_slash (replicate (List.length up) ".." ++ down).

End Path.

(** ** The file system and the effects of the handlers *)

Inductive node :=
  | File (data : string)
  | Directory.

Global Instance node_eq_dec : EqDecision node.
Proof. solve_decision. Defined.

(** A computation of a handler: it reads and updates the file system and
    either throws an [Error] (modelled by its [message]) or returns. *)
Definition IO (A : Type) : Type :=
  gmap string node -> (string + A) * gmap string node.

Global Instance IO_ret : MRet IO := fun A x fs => (inr x, fs).
Global Instance IO_bind : MBind IO := fun A B k m fs =>
  match m fs with
  | (inl err, fs') => (inl err, fs')
  | (inr x, fs') => k x fs'
  end.

Definition throw {A} (message : string) : IO A := fun fs => (inl message, fs).
Definition get_fs : IO (gmap string node) := fun fs => (inr fs, fs).

Module Fs.

(** [fs.existsSync(p)] *)
Definition existsSync (fs : gmap string node) (p : string) : bool :=
  bool_decide (is_Some (fs !! p)).

Definition is_under (dir p : string) : bool := Js.startsWith p (dir +:+ "/").

(** [fs.writeFile(p, data)] *)
Definition writeFile (p data : string) : IO unit := fun fs =>
  match fs !! p with
  | Some Directory =>
      (inl ("EISDIR: illegal operation on a directory, open " +:+ p), fs)
  | _ => (inr (), <[p := File data]> fs)
  end.

(** [mkdir(p, { recursive: true })] *)
Definition mkdir_recursive (p : string) : IO unit := fun fs =>
  match fs !! p with
  | Some (File _) => (inl ("EEXIST: file already exists, mkdir " +:+ p), fs)
  | Some Directory => (inr (), fs)
  | None => (inr (), <[p := Directory]> fs)
  end.

(** [fs.readFile(p)] *)
Definition readFile (p : string) : IO string := fun fs =>
  match fs !! p with
  | Some (File data) => (inr data, fs)
  | Some Directory =>
      (inl ("EISDIR: illegal operation on a directory, read " +:+ p), fs)
  | None => (inl ("ENOENT: no such file or directory, open " +:+ p), fs)
  end.

(** [fs.remove(p)] of fs-extra: deletes the file, or the directory with
    everything under it; a missing path is not an error. *)
Definition remove (p : string) : IO unit := fun fs =>
  (inr (),
   filter (fun kv : string * node => kv.1 ≠ p ∧ is_under p kv.1 = false) fs).

End Fs.

(** ** The upload route: [extractZip] and [POST] *)

(** What the [entry] handler observes of one archive entry: its name and
    how streaming it went: [openReadStream] reported an error, or the bytes
    were piped to the file and the write stream closed.  A write stream
    that reports an error is not among the outcomes: the handler then asks
    [yauzl] for the next entry twice, once in its ['error'] handler and once
    in its ['close'] handler, which ends the one-entry-at-a-time reading
    that [on_entry] and [read_entries] describe. *)
Inductive EntryIO :=
  | ReadStreamError
  | Piped (data : string).

Record Entry := { fileName : string; io : EntryIO }.

(** The events of a [yauzl] zip file opened with [lazyEntries]: its entries
    in container order, then [end] or an [error]. *)
Record ZipFile := { entries : list Entry; endError : option string }.

Record UploadedFile := { name : string; bytes : string }.

Inductive Response :=
  | ErrorJson (status : nat) (error : string)
  | UploadJson (imageUrls : list string) (extractDir : string)
  | ImageResponse (body : string) (contentType : string).

(** The mutable state of one [extractZip] call. *)
Record Extraction := {
  disk : gmap string node;
  processedEntries : gset string;
  writePromises : list (option string)
}.

Definition IMAGE_EXTENSIONS : list string :=
  [".jpg"; ".jpeg"; ".png"; ".gif"; ".webp"; ".bmp"].

Definition isImageFile (filename : string) : bool :=
  let ext := Js.toLowerCase (Path.extname filename) in
  bool_decide (ext ∈ IMAGE_EXTENSIONS).

(** The [while (fs.existsSync(finalPath))] loop.  [fuel] bounds the number
    of iterations; [free_path_is_free] shows that the bound used by
    [on_entry] is never reached. *)
Fixpoint free_path (fuel : nat) (fs : gmap string node)
    (extractTo fileName finalPath : string) (counter : nat) : string :=
  match fuel with
  | O => finalPath
  | S fuel' =>
      if Fs.existsSync fs finalPath then
        let ext := Path.extname fileName in
        let name := Path.basename_suffix fileName ext in
        free_path fuel' fs extractTo fileName
          (Path.join [extractTo; name +:+ "_" +:+ pretty counter +:+ ext])
          (S counter)
      else finalPath
  end.

Definition mark_processed (st : Extraction) (entry : Entry) : Extraction :=
  {| disk := disk st;
     processedEntries := {[fileName entry]} ∪ processedEntries st;
     writePromises := writePromises st |}.

Definition push_promise (st : Extraction) (fs : gmap string node)
    (result : option string) : Extraction :=
  {| disk := fs;
     processedEntries := processedEntries st;
     writePromises := writePromises st ++ [result] |}.

(** The ['entry'] handler.  With [lazyEntries] the next entry is read only
    after the current one is settled: every path through the handler calls
    [zipfile.readEntry()] once, the early returns at once, the read-stream
    error in its callback, a written entry when its write stream closes.
    So the handler runs to completion, write included, before the next
    entry is seen. *)
Definition on_entry (extractTo : string) (st : Extraction) (entry : Entry)
  : Extraction :=
  if decide (fileName entry ∈ processedEntries st) then st
  else if Js.endsWith (fileName entry) "/" then mark_processed st entry
  else if negb (isImageFile (fileName entry)) then mark_processed st entry
  else if Js.startsWith (Path.basename (fileName entry)) "._" then
    mark_processed st entry
  else
    let st := mark_processed st entry in
    match io entry with
    | ReadStreamError => push_promise st (disk st) None
    | Piped data =>
        let fileName := Path.basename (fileName entry) in
        let filePath := Path.join [extractTo; fileName] in
        let finalPath :=
          free_path (S (size (disk st))) (disk st) extractTo fileName
            filePath 1 in
        let fs := <[finalPath := File data]> (disk st) in
        push_promise st fs
          (if Fs.existsSync fs finalPath then Some finalPath else None)
    end.

(** The run of the ['entry'] handler over the entries of a zip file, from
    the empty bookkeeping of a fresh [extractZip] call. *)
Definition read_entries (extractTo : string) (fs : gmap string node)
    (entries : list Entry) : Extraction :=
  foldl (on_entry extractTo)
    {| disk := fs; processedEntries := ∅; writePromises := [] |} entries.

Section upload.

(** [yauzl.open] on the bytes of a file: an error, or the zip file. *)
Variable yauzl_open : string -> string + ZipFile.

(** [process.cwd()] *)
Variable cwd : string.

Definition UPLOAD_DIR : string := Path.join [cwd; "uploads"].
Definition TEMP_DIR : string := Path.join [cwd; "temp"].

Definition extractZip (zipPath extractTo : string) : IO (list string) :=
  fun fs =>
  let opened :=
    match fs !! zipPath with
    | Some (File content) => yauzl_open content
    | _ => inl ("ENOENT: no such file or directory, open " +:+ zipPath)
    end in
  match opened with
  | inl err => (inl err, fs)
  | inr zipfile =>
      let st := read_entries extractTo fs (entries zipfile) in
      match endError zipfile with
      | Some err => (inl err, disk st)
      | None =>
          let successfulFiles := omap id (writePromises st) in
          let uniqueFiles := Js.array_from_set successfulFiles in
          (inr uniqueFiles, disk st)
      end
  end.

(** The URL of an extracted file. *)
Definition image_url (filePath : string) : string :=
  let relativePath := Path.relative cwd UPLOAD_DIR filePath in
  let urlPath := Js.replace_backslashes relativePath in
  let cleanPath :=
    if Js.startsWith urlPath "/" then Js.slice_from 1 urlPath else urlPath in
  "/api/images/" +:+ cleanPath.

(** The body of the [try] block of [POST]; [now_zip] and [now_dir] are the
    two readings of [Date.now()] that name the staging file and the
    extraction directory.  The handler reads [file.name] before it tests
    [!file], so a missing file throws and ['No file provided'] is never
    answered. *)
Definition POST_try (now_zip now_dir : N) (file : option UploadedFile)
  : IO Response :=
  match file with
  | None => throw "Cannot read properties of null (reading 'name')"
  | Some file =>
      if negb (Js.endsWith (name file) ".zip") then
        mret (ErrorJson 400 "File must be a ZIP file")
      else
        let tempZipPath :=
          Path.join [TEMP_DIR; "upload_" +:+ pretty now_zip +:+ ".zip"] in
        _ ← Fs.writeFile tempZipPath (bytes file);
        let extractDir :=
          Path.join [UPLOAD_DIR; "extract_" +:+ pretty now_dir] in
        _ ← Fs.mkdir_recursive extractDir;
        extractedFiles ← extractZip tempZipPath extractDir;
        if bool_decide (List.length extractedFiles = 0) then
          _ ← Fs.remove extractDir;
          _ ← Fs.remove tempZipPath;
          mret (ErrorJson 400 "No images found in ZIP file")
        else if bool_decide (100 < List.length extractedFiles) then
          _ ← Fs.remove extractDir;
          _ ← Fs.remove tempZipPath;
          mret (ErrorJson 400 "ZIP file contains more than 100 images")
        else
          let extractedFiles := Js.sort extractedFiles in
          let uniqueFiles := Js.array_from_set extractedFiles in
          fs ← get_fs;
          let existingFiles :=
            filter (fun filePath => Fs.existsSync fs filePath = true)
              uniqueFiles in
          let imageUrls := image_url <$> existingFiles in
          let uniqueUrls := Js.array_from_set imageUrls in
          _ ← Fs.remove tempZipPath;
          let finalUrls := Js.array_from_set uniqueUrls in
          if bool_decide (100 < List.length finalUrls) then
            mret (ErrorJson 400 "Too many images")
          else mret (UploadJson finalUrls extractDir)
  end.

(** [try { ... } catch (error) { ... }] of a route handler: a thrown error
    becomes a 500 response carrying [fallback error]. *)
Definition catch_500 (describe : string -> string) (body : IO Response)
    (fs : gmap string node) : Response * gmap string node :=
  match body fs with
  | (inl message, fs') => (ErrorJson 500 (describe message), fs')
  | (inr response, fs') => (response, fs')
  end.

Definition POST (now_zip now_dir : N) (file : option UploadedFile)
  : gmap string node -> Response * gmap string node :=
  catch_500 (fun message => message) (POST_try now_zip now_dir file).

(** ** The image route: [GET] *)

Definition content_type (ext : string) : string :=
  if bool_decide (ext = ".png") then "image/png"
  else if bool_decide (ext = ".gif") then "image/gif"
  else if bool_decide (ext = ".webp") then "image/webp"
  else if bool_decide (ext = ".bmp") then "image/bmp"
  else "image/jpeg".

Definition GET_try (pathSegments : option (list string)) : IO Response :=
  match pathSegments with
  | None | Some [] => mret (ErrorJson 400 "Invalid path")
  | Some pathSegments =>
      let filePath := Path.join (UPLOAD_DIR :: pathSegments) in
      let resolvedPath := Path.resolve cwd [filePath] in
      let resolvedUploadDir := Path.resolve cwd [UPLOAD_DIR] in
      if negb (Js.startsWith resolvedPath resolvedUploadDir) then
        mret (ErrorJson 403 "Invalid path")
      else
        fs ← get_fs;
        if negb (Fs.existsSync fs filePath) then
          mret (ErrorJson 404 "File not found")
        else
          fileBuffer ← Fs.readFile filePath;
          let ext := Js.toLowerCase (Path.extname filePath) in
          mret (ImageResponse fileBuffer (content_type ext))
  end.

Definition GET (pathSegments : option (list string))
  : gmap string node -> Response * gmap string node :=
  catch_500 (fun _ => "Failed to serve image") (GET_try pathSegments).

End upload.

(** ** The classify route: [getImageBase64] and the reading of the answer *)

(** [s.replace(pattern, '')] for a string [pattern]: the first occurrence
    of the pattern, if there is one, is removed. *)
Fixpoint remove_first (s pattern : string) : string :=
  if Js.startsWith s pattern then Js.slice_from (String.length pattern) s
  else match s with
       | EmptyString => EmptyString
       | String c s' => String c (remove_first s' pattern)
       end.

(** [s.includes(sub)] *)
Fixpoint includes (s sub : string) : bool :=
  Js.startsWith s sub
  || match s with
     | EmptyString => false
     | String _ s' => includes s' sub
     end.

Section classify.

(** [process.cwd()] *)
Variable cwd : string.

(** [decodeURIComponent]: the decoded string, or the message of the
    [URIError] it throws. *)
Variable decodeURIComponent : string -> string + string.

(** [buffer.toString('base64')] *)
Variable base64 : string -> string.

Definition mime_type (ext : string) : string :=
  if bool_decide (ext = ".png") then "image/png"
  else if bool_decide (ext = ".gif") then "image/gif"
  else if bool_decide (ext = ".webp") then "image/webp"
  else if bool_decide (ext = ".bmp") then "image/bmp"
  else "image/jpeg".

Definition getImageBase64 (imageUrl : string) : IO string :=
  let urlPath := remove_first imageUrl "/api/images/" in
  match decodeURIComponent urlPath with
  | inl message => throw message
  | inr decodedPath =>
      let filePath := Path.join [UPLOAD_DIR cwd; decodedPath] in
      fs ← get_fs;
      if negb (Fs.existsSync fs filePath) then
        throw ("Image file not found: " +:+ filePath)
      else
        imageBuffer ← Fs.readFile filePath;
        let ext := Js.toLowerCase (Path.extname filePath) in
        mret ("data:" +:+ mime_type ext +:+ ";base64,"
              +:+ base64 imageBuffer)
  end.

End classify.

(** The classification that the classify route reads off a parsed answer
    whose [classification] is a string or missing and whose background
    description is the string [background]: the label itself when,
    lower-cased, it is one of the three labels, else a guess from the
    words of the background description. *)
Definition classification_of (classification : option string)
    (background : string) : string :=
  let inferred :=
    let bgLower := Js.toLowerCase background in
    if includes bgLower "white"
       && (includes bgLower "plain" || includes bgLower "backdrop"
           || includes bgLower "background")
    then "bad"
    else if includes bgLower "room" || includes bgLower "studio"
            || includes bgLower "colored" || includes bgLower "color"
    then "good"
    else "unknown" in
  match Js.toLowerCase <$> classification with
  | Some classValue =>
      if bool_decide (classValue = "good") || bool_decide (classValue = "bad")
         || bool_decide (classValue = "unknown")
      then classValue
      else inferred
  | None => inferred
  end.

(** ** The page: what [handleFile] shows for the answer of the upload route *)

Module Page.

Inductive Status := processing | completed.

(** The properties that [handleFile] sets when it creates an image. *)
Record ImageResult := { filename : string; url : string; status : Status }.

(** [shuffledUrls.map((url, index) => ({ filename: ..., url, status }))] *)
Definition initial_image (index : nat) (url : string) : ImageResult :=
  {| filename :=
       (let leaf := default EmptyString (last (Js.split_slash url)) in
        if bool_decide (leaf = EmptyString) then "image-" +:+ pretty index
        else leaf);
     url := url;
     status := processing |}.

(** [initialImages.filter(img => ...)] with the [seen] set *)
Fixpoint deduplicated (seen : gset string) (imgs : list ImageResult)
  : list ImageResult :=
  match imgs with
  | [] => []
  | img :: rest =>
      if decide (url img ∈ seen) then deduplicated seen rest
      else img :: deduplicated ({[url img]} ∪ seen) rest
  end.

Section handleFile.

(** [[...uniqueUrls].sort(() => Math.random() - 0.5)] *)
Variable shuffle : list string -> list string.

(** The part of [handleFile] between the answer of the upload route and
    [setImages]: the error it throws, or the images it sets. *)
Definition images_of_response (imageUrls : list string)
  : string + list ImageResult :=
  if bool_decide (List.length imageUrls = 0) then
    inl "No images found in the ZIP file"
  else if bool_decide (100 < List.length imageUrls) then
    inl "ZIP file contains more than 100 images"
  else
    let uniqueUrls := Js.array_from_set imageUrls in
    let shuffledUrls := shuffle uniqueUrls in
    let initialImages := imap initial_image shuffledUrls in
    let uniqueImageUrls : gset string :=
      list_to_set (url <$> initialImages) in
    if bool_decide (size uniqueImageUrls ≠ List.length initialImages) then
      inr (deduplicated ∅ initialImages)
    else inr initialImages.

End handleFile.

End Page.

(** * Vocabulary of the statements *)

Abbreviation chars := String.list_ascii_of_string.

Section vocabulary.
Import Js Path.

(** ** Strings and paths *)

(** Characters of a string satisfying a test. *)
Fixpoint all_chars (P : ascii -> bool) (s : string) : bool :=
  match s with
  | EmptyString => true
  | String c s' => P c && all_chars P s'
  end.

Definition NoSlash (s : string) : Prop :=
  all_chars (fun c => negb (is_slash c)) s = true.

Definition NoBackslash (s : string) : Prop :=
  all_chars (fun c => negb (bool_decide (c = "\"%char))) s = true.

Definition is_digit (c : ascii) : bool :=
  bool_decide (c ∈ ["0"; "1"; "2"; "3"; "4"; "5"; "6"; "7"; "8"; "9"]%char).

(** A path component that [normalize] keeps as it is. *)
Definition Plain (s : string) : Prop :=
  s ≠ EmptyString ∧ s ≠ "." ∧ s ≠ ".." ∧ NoSlash s.

(** What [path.join(d, s)] puts in front of a plain component [s]. *)
Definition join_prefix (d : string) : string :=
  if bool_decide (d = EmptyString) then EmptyString
  else
    let kept :=
      reverse (normalize_segments (negb (isAbsolute d)) [] (split_slash d)) in
    (if isAbsolute d then "/" else EmptyString)
    +:+ (if bool_decide (kept = []) then EmptyString
         else join_slash kept +:+ "/").

(** Absolute normalised paths, given by their components. *)
Definition abs_path (segs : list string) : string := "/" +:+ join_slash segs.

(** [process.cwd()] is an absolute, normalised path. *)
Definition normalized_absolute (p : string) : Prop :=
  ∃ segs, Forall Plain segs ∧ p = abs_path segs.

(** ** Extraction *)

(** The [counter]-th candidate of the loop: [name_counter.ext] in the
    destination directory. *)
Definition suffixed (extractTo fileName : string) (counter : nat) : string :=
  join [extractTo;
        basename_suffix fileName (extname fileName)
        +:+ "_" +:+ pretty counter +:+ extname fileName].

(** The entry filter, as the cascade of early returns of the handler
    decides it. *)
Definition keeps (entryName : string) : bool :=
  negb (endsWith entryName "/") && isImageFile entryName
  && negb (startsWith (basename entryName) "._").

(** The entries that pass the entry filter. *)
Definition qualifying (entries : list Entry) : list Entry :=
  filter (fun e => keeps (fileName e) = true) entries.

(** The entries that the handler does not skip as seen: the first entry of
    every name, [seen] being the names met so far. *)
Fixpoint first_occurrences_from (seen : gset string) (entries : list Entry)
  : list Entry :=
  match entries with
  | [] => []
  | e :: rest =>
      if decide (fileName e ∈ seen) then first_occurrences_from seen rest
      else e :: first_occurrences_from ({[fileName e]} ∪ seen) rest
  end.

Definition first_occurrences : list Entry -> list Entry :=
  first_occurrences_from ∅.

(** The qualifying entries of a container: of every name that passes the
    entry filter, the first entry. *)
Definition qualifying_entries (entries : list Entry) : list Entry :=
  qualifying (first_occurrences entries).

(** Where the handler writes a kept entry. *)
Definition final_path (extractTo : string) (fs : gmap string node)
    (entryName : string) : string :=
  free_path (S (size fs)) fs extractTo (basename entryName)
    (join [extractTo; basename entryName]) 1.

(** The leaf name of the written file is made of characters of the entry
    name, of digits and of the underscore. *)
Definition chars_from (entryName seg : string) : Prop :=
  ∀ P : ascii -> bool,
    P "_"%char = true -> (∀ c, is_digit c = true -> P c = true) ->
    all_chars P entryName = true -> all_chars P seg = true.

(** The locations of the fulfilled write promises. *)
Definition fulfilled (promises : list (option string)) : list string :=
  omap id promises.

(** [p] holds the bytes of a kept entry of [l], under a plain leaf name. *)
Definition Extracted (extractTo : string) (l : list Entry)
    (fs : gmap string node) (p : string) : Prop :=
  ∃ e data seg,
    e ∈ l ∧ keeps (fileName e) = true ∧ io e = Piped data
    ∧ fs !! p = Some (File data)
    ∧ Plain seg ∧ p = join [extractTo; seg]
    ∧ chars_from (fileName e) seg.

(** ** Upload handler *)

Definition staging_path (cwd : string) (now_zip : N) : string :=
  join [TEMP_DIR cwd; "upload_" +:+ pretty now_zip +:+ ".zip"].

Definition session_dir (cwd : string) (now_dir : N) : string :=
  join [UPLOAD_DIR cwd; "extract_" +:+ pretty now_dir].

Definition upload_name (now_zip : N) : string :=
  "upload_" +:+ pretty now_zip +:+ ".zip".

Definition extract_name (now_dir : N) : string :=
  "extract_" +:+ pretty now_dir.

(** The file system once the upload is staged and the extraction directory
    made. *)
Definition staged (cwd : string) (fs : gmap string node)
    (file : UploadedFile) (now_zip now_dir : N) : gmap string node :=
  let fs1 := <[staging_path cwd now_zip := File (bytes file)]> fs in
  match fs1 !! session_dir cwd now_dir with
  | None => <[session_dir cwd now_dir := Directory]> fs1
  | Some _ => fs1
  end.

(** The list of addresses that [POST] computes from the extracted files. *)
Definition final_urls (cwd : string) (fs : gmap string node)
    (extractedFiles : list string) : list string :=
  array_from_set (array_from_set
    (image_url cwd <$>
       filter (fun filePath => Fs.existsSync fs filePath = true)
         (array_from_set (sort extractedFiles)))).

(** The part of [POST] that follows the extraction. *)
Definition respond (cwd : string) (tempZipPath extractDir : string)
    (extractedFiles : list string) : IO Response :=
  if bool_decide (List.length extractedFiles = 0) then
    _ ← Fs.remove extractDir;
    _ ← Fs.remove tempZipPath;
    mret (ErrorJson 400 "No images found in ZIP file")
  else if bool_decide (100 < List.length extractedFiles) then
    _ ← Fs.remove extractDir;
    _ ← Fs.remove tempZipPath;
    mret (ErrorJson 400 "ZIP file contains more than 100 images")
  else
    fs ← get_fs;
    _ ← Fs.remove tempZipPath;
    if bool_decide (100 < List.length (final_urls cwd fs extractedFiles)) then
      mret (ErrorJson 400 "Too many images")
    else mret (UploadJson (final_urls cwd fs extractedFiles) extractDir).

(** [POST] answers with [N] distinct addresses, listed in the order of the
    files' locations relative to the upload directory. *)
Definition returns_sorted_addresses
    (yauzl_open : string -> string + ZipFile) (cwd : string)
    (now_zip now_dir : N) (file : UploadedFile) (fs : gmap string node)
    (N : nat) : Prop :=
  ∃ locations fs',
    POST yauzl_open cwd now_zip now_dir (Some file) fs
    = (UploadJson (image_url cwd <$> locations) (session_dir cwd now_dir), fs')
    ∧ List.length locations = N
    ∧ NoDup (image_url cwd <$> locations)
    ∧ StronglySorted String.le
        (relative cwd (UPLOAD_DIR cwd) <$> locations).

(** ** Conditions of the entry filter *)

Definition is_directory_entry (entryName : string) : Prop :=
  endsWith entryName "/" = true.

Definition has_image_extension (entryName : string) : Prop :=
  ∃ x, x ∈ ["jpg"; "jpeg"; "png"; "gif"; "webp"; "bmp"]
       ∧ toLowerCase (extname entryName) = "." +:+ x.

Definition is_resource_fork (entryName : string) : Prop :=
  startsWith (basename entryName) "._" = true.

(** ** Addresses *)

(** [p] lies below [root]: the components of [root] are a proper prefix of
    those of [p]. *)
Definition descendant_of (root p : string) : Prop :=
  ∃ below, below ≠ [] ∧ segments p = segments root ++ below.

(** Following the spec's words: percent-encoding of the special characters
    of a relative location, the separator kept. *)
Definition unreserved (c : ascii) : bool :=
  let n := nat_of_ascii c in
  bool_decide (48 <= n <= 57) || bool_decide (65 <= n <= 90)
  || bool_decide (97 <= n <= 122)
  || bool_decide (c ∈ ["-"; "_"; "."; "~"; "/"]%char).

Definition hex_digits : list ascii :=
  ["0"; "1"; "2"; "3"; "4"; "5"; "6"; "7"; "8"; "9";
   "A"; "B"; "C"; "D"; "E"; "F"]%char.

Definition hex_digit (n : nat) : ascii := default "0"%char (hex_digits !! n).

Fixpoint percent_encode (s : string) : string :=
  match s with
  | EmptyString => EmptyString
  | String c s' =>
      (if unreserved c then String c EmptyString
       else String "%" (String (hex_digit (nat_of_ascii c / 16))
                          (String (hex_digit (nat_of_ascii c mod 16))
                             EmptyString)))
      +:+ percent_encode s'
  end.

(** Following the spec's words: the public address of a location is its
    location relative to the storage root, separators turned into slashes,
    percent-encoded, behind the routing prefix. *)
Definition percent_encoded_address (cwd location url : string) : Prop :=
  url = "/api/images/"
        +:+ percent_encode
              (replace_backslashes (relative cwd (UPLOAD_DIR cwd) location)).

Definition not_space (c : ascii) : bool := negb (bool_decide (c = " "%char)).

(** Characters that mean the same in a file name and in a URL path. *)
Definition url_neutral (c : ascii) : bool :=
  negb (bool_decide (c ∈ ["\"; "%"; "?"; "#"]%char)).

(** In a percent-encoded string every [%] is followed by two hexadecimal
    digits. *)
Fixpoint well_escaped (s : string) : bool :=
  match s with
  | EmptyString => true
  | String c rest =>
      if bool_decide (c = "%"%char) then
        match rest with
        | String a (String b rest') =>
            bool_decide (a ∈ hex_digits) && bool_decide (b ∈ hex_digits)
            && well_escaped rest'
        | _ => false
        end
      else well_escaped rest
  end.

(** The value of a hexadecimal digit. *)
Definition hex_value (c : ascii) : option nat :=
  let n := nat_of_ascii c in
  if bool_decide (48 <= n <= 57) then Some (n - 48)
  else if bool_decide (65 <= n <= 70) then Some (n - 55)
  else if bool_decide (97 <= n <= 102) then Some (n - 87)
  else None.

(** A decoder of the escapes of ASCII characters.  It agrees with
    [decodeURIComponent] on the strings that have no escape of a byte above
    [7F]: an escape is replaced by its character, and a [%] that is not
    followed by two hexadecimal digits is a [URIError]. *)
Fixpoint decode_ascii (s : string) : string + string :=
  match s with
  | EmptyString => inr EmptyString
  | String c rest =>
      if bool_decide (c = "%"%char) then
        match rest with
        | String a (String b rest') =>
            match hex_value a, hex_value b with
            | Some x, Some y =>
                if bool_decide (16 * x + y < 128) then
                  match decode_ascii rest' with
                  | inr t => inr (String (ascii_of_nat (16 * x + y)) t)
                  | inl message => inl message
                  end
                else inl "URI malformed"
            | _, _ => inl "URI malformed"
            end
        | _ => inl "URI malformed"
        end
      else
        match decode_ascii rest with
        | inr t => inr (String c t)
        | inl message => inl message
        end
  end.

(** ** Classification *)

(** The words of a background description that the guess looks at. *)
Definition background_words : list string :=
  ["white"; "plain"; "backdrop"; "background"; "room"; "studio"; "color"].

(** ** Inputs used as instances *)

Definition photos_upload : UploadedFile :=
  {| name := "photos.zip"; bytes := "PK" |}.

(** An upload that [yauzl] cannot open. *)
Definition corrupt_upload : UploadedFile :=
  {| name := "photos.zip"; bytes := "not a zip archive" |}.

Definition yauzl_rejects (content : string) : string + ZipFile :=
  inl "end of central directory record signature not found".

Definition yauzl_reads (zipfile : ZipFile) (content : string)
  : string + ZipFile := inr zipfile.

(** A file next to the upload directory whose name extends the directory's
    name. *)
Definition sibling_fs : gmap string node :=
  {[ "/app/uploads-evil/secret.png" := File "TOP SECRET" ]}.

(** An archive that lists the name [a.jpg] twice. *)
Definition twice_listed : ZipFile :=
  {| entries := [ {| fileName := "a.jpg"; io := Piped "first" |};
                  {| fileName := "a.jpg"; io := Piped "second" |} ];
     endError := None |}.

(** An archive whose only image cannot be read. *)
Definition unreadable_image : ZipFile :=
  {| entries := [ {| fileName := "a.jpg"; io := ReadStreamError |} ];
     endError := None |}.

(** An archive that [yauzl] stops reading after its first entry. *)
Definition cut_short : ZipFile :=
  {| entries := [ {| fileName := "a.jpg"; io := Piped "A" |} ];
     endError := Some "unexpected EOF" |}.

(** An archive with a space in an entry name. *)
Definition spaced_name : ZipFile :=
  {| entries := [ {| fileName := "my photo.jpg"; io := Piped "pixels" |} ];
     endError := None |}.

(** An archive with percent signs in its entry names. *)
Definition percent_names : ZipFile :=
  {| entries := [ {| fileName := "50%off.jpg"; io := Piped "pixels" |};
                  {| fileName := "a%41.jpg"; io := Piped "more" |} ];
     endError := None |}.

(** Files [a.jpg], [sub/a.jpg], [b.png], [._b.png], [readme.txt] and the
    directory [empty_dir/]. *)
Definition scenario : ZipFile :=
  {| entries := [ {| fileName := "a.jpg"; io := Piped "A" |};
                  {| fileName := "sub/a.jpg"; io := Piped "B" |};
                  {| fileName := "b.png"; io := Piped "C" |};
                  {| fileName := "._b.png"; io := Piped "D" |};
                  {| fileName := "readme.txt"; io := Piped "E" |};
                  {| fileName := "empty_dir/"; io := Piped EmptyString |} ];
     endError := None |}.

Definition no_images : ZipFile :=
  {| entries := [ {| fileName := "readme.txt"; io := Piped "E" |};
                  {| fileName := "._b.png"; io := Piped "D" |} ];
     endError := None |}.

(** An archive of 101 images. *)
Definition numbered (k : nat) : Entry :=
  {| fileName := "img" +:+ pretty k +:+ ".png"; io := Piped "x" |}.

Definition many_images : ZipFile :=
  {| entries := numbered <$> seq 0 101; endError := None |}.

(** The addresses of the scenario, uploaded again later. *)
Definition later_urls : list string :=
  ["/api/images/extract_8/a.jpg";
   "/api/images/extract_8/a_1.jpg";
   "/api/images/extract_8/b.png"].

(** A file of an earlier upload. *)
Definition earlier_upload : gmap string node :=
  {[ "/app/uploads/extract_1/old.png" := File "OLD" ]}.

(** A decoder for paths without escapes, and a stand-in for the encoder. *)
Definition decode_plain (s : string) : string + string := inr s.
Definition encode_stub (data : string) : string := "[" +:+ data +:+ "]".


(** The addresses of the scenario. *)
Definition scenario_urls : list string :=
  ["/api/images/extract_7/a.jpg";
   "/api/images/extract_7/a_1.jpg";
   "/api/images/extract_7/b.png"].

(** The staged archive alone. *)
Definition staged_archive : gmap string node :=
  {[ "/tmp/up.zip" := File "PK" ]}.

End vocabulary.

(** * Properties *)

(** ** The path functions on the examples of Node's documentation *)

Section path_examples.
Import Js Path.

Example basename_doc :
  basename "/foo/bar/baz/asdf/quux.html" = "quux.html"
  ∧ basename_suffix "/foo/bar/baz/asdf/quux.html" ".html" = "quux"
  ∧ basename "sub/a.jpg" = "a.jpg" ∧ basename "dir/" = "dir"
  ∧ basename "/" = EmptyString ∧ basename_suffix "a/.jpg" ".jpg" = ".jpg".
Proof. repeat split; reflexivity. Qed.

Example extname_doc :
  extname "index.html" = ".html" ∧ extname "index.coffee.md" = ".md"
  ∧ extname "index." = "." ∧ extname "index" = EmptyString
  ∧ extname ".index" = EmptyString ∧ extname ".index.md" = ".md"
  ∧ extname ".." = EmptyString ∧ extname "..." = "." ∧ extname "x/._b.PNG" = ".PNG".
Proof. repeat split; reflexivity. Qed.

Example join_doc :
  join ["/foo"; "bar"; "baz/asdf"; "quux"; ".."] = "/foo/bar/baz/asdf"
  ∧ normalize "/foo/bar//baz/asdf/quux/.." = "/foo/bar/baz/asdf"
  ∧ join ["/app/uploads"; "../uploads-evil/x.png"] = "/app/uploads-evil/x.png"
  ∧ join [EmptyString; "a.jpg"] = "a.jpg" ∧ join ["a"; ".."; ".."; "b/"] = "../b/"
  ∧ join ["/"; ".."; "x"] = "/x" ∧ join [] = ".".
Proof. repeat split; reflexivity. Qed.

Example resolve_doc :
  resolve "/home" ["/foo/bar"; "./baz"] = "/foo/bar/baz"
  ∧ resolve "/home" ["/foo/bar"; "/tmp/file/"] = "/tmp/file"
  ∧ resolve "/home/me" ["wwwroot"; "static_files/png/"; "../gif/image.gif"]
    = "/home/me/wwwroot/static_files/gif/image.gif"
  ∧ resolve "/" [EmptyString] = "/".
Proof. repeat split; reflexivity. Qed.

Example relative_doc :
  relative "/" "/data/orandea/test/aaa" "/data/orandea/impl/bbb"
    = "../../impl/bbb"
  ∧ relative "/" "/app/uploads" "/app/uploads/extract_7/a.jpg"
    = "extract_7/a.jpg"
  ∧ relative "/" "/a/b" "/a/b" = EmptyString ∧ relative "/" "/a/b" "/a" = "..".
Proof. repeat split; reflexivity. Qed.

Example js_doc :
  toLowerCase ".JpEg" = ".jpeg" ∧ replace_backslashes "a\b\c" = "a/b/c"
  ∧ split_slash "a//b/" = ["a"; EmptyString; "b"; EmptyString]
  ∧ array_from_set ["b"; "a"; "b"; "c"; "a"] = ["b"; "a"; "c"]
  ∧ sort ["b.png"; "a_1.jpg"; "a.jpg"; "B.png"]
    = ["B.png"; "a.jpg"; "a_1.jpg"; "b.png"]
  ∧ endsWith "x.zip" ".zip" = true ∧ endsWith "zip" ".zip" = false.
Proof. repeat split; vm_compute; reflexivity. Qed.
End path_examples.

(** ** Strings *)

Lemma string_app_nil_l s : EmptyString +:+ s = s.
Proof. reflexivity. Qed.

Lemma string_app_cons c s t : String c s +:+ t = String c (s +:+ t).
Proof. reflexivity. Qed.

Ltac str_simpl :=
  repeat (progress (simpl; rewrite ?string_app_cons, ?string_app_nil_l)).

Section string_facts.
Import Js.


Lemma chars_inj s t : chars s = chars t -> s = t.
Proof.
  intros H.
  rewrite <-(String.string_of_list_ascii_of_string s),
    <-(String.string_of_list_ascii_of_string t).
  by rewrite H.
Qed.

Lemma chars_app s t : chars (s +:+ t) = chars s ++ chars t.
Proof. induction s as [|c s IH]; str_simpl; [done|]. by rewrite IH. Qed.

Lemma chars_length s : List.length (chars s) = String.length s.
Proof. induction s; simpl; auto. Qed.

Lemma string_app_nil_r s : s +:+ EmptyString = s.
Proof. induction s as [|c s IH]; str_simpl; [done|]. by rewrite IH. Qed.

Lemma string_app_assoc s t u : (s +:+ t) +:+ u = s +:+ t +:+ u.
Proof. induction s as [|c s IH]; str_simpl; [done|]. by rewrite IH. Qed.

Lemma string_app_length s t :
  String.length (s +:+ t) = String.length s + String.length t.
Proof. induction s as [|c s IH]; str_simpl; [done|]. by rewrite IH. Qed.

Lemma string_app_inv_tail s t u : s +:+ u = t +:+ u -> s = t.
Proof.
  intros H. apply chars_inj.
  apply (f_equal chars) in H. rewrite !chars_app in H.
  by apply app_inv_tail in H.
Qed.

Lemma string_app_inv_head s t u : s +:+ t = s +:+ u -> t = u.
Proof. apply String.app_inj. Qed.

Lemma string_app_eq_nil s t : s +:+ t = EmptyString -> s = EmptyString ∧ t = EmptyString.
Proof. destruct s; str_simpl; [done|discriminate]. Qed.

Lemma startsWith_spec s pre :
  startsWith s pre = true <-> ∃ t, s = pre +:+ t.
Proof.
  revert s. induction pre as [|p pre IH]; intros s; simpl.
  - split; eauto.
  - destruct s as [|c s]; simpl.
    + split; [done|]. by intros [t ?].
    + rewrite andb_true_iff, bool_decide_eq_true, IH. split.
      * intros [-> [t ->]]. eauto.
      * intros [t Ht]. rewrite string_app_cons in Ht.
        injection Ht as -> ->. eauto.
Qed.

Lemma startsWith_app s t : startsWith (s +:+ t) s = true.
Proof. apply startsWith_spec. eauto. Qed.

Lemma startsWith_app_both a s t :
  startsWith (a +:+ s) (a +:+ t) = startsWith s t.
Proof.
  induction a as [|c a IH]; [done|]. rewrite !string_app_cons. simpl.
  by rewrite bool_decide_true.
Qed.

Lemma slice_from_app s t : slice_from (String.length s) (s +:+ t) = t.
Proof. induction s as [|c s IH]; str_simpl; [by destruct t|done]. Qed.

Lemma slice_to_app s t : slice_to (String.length s) (s +:+ t) = s.
Proof. induction s as [|c s IH]; str_simpl; [by destruct t|by rewrite IH]. Qed.

Lemma slice_to_from n s : slice_to n s +:+ slice_from n s = s.
Proof.
  revert s. induction n as [|n IH]; intros [|c s]; str_simpl; try done.
  by rewrite IH.
Qed.

Lemma slice_from_length n s :
  String.length (slice_from n s) = String.length s - n.
Proof. revert s. induction n as [|n IH]; intros [|c s]; simpl; auto. Qed.

Lemma endsWith_spec s suf :
  endsWith s suf = true <-> ∃ t, s = t +:+ suf.
Proof.
  unfold endsWith. rewrite andb_true_iff, !bool_decide_eq_true. split.
  - intros [Hlen Heq]. exists (slice_to (String.length s - String.length suf) s).
    rewrite <-Heq at 2. by rewrite slice_to_from.
  - intros [t ->]. rewrite string_app_length. split; [lia|].
    replace (String.length t + String.length suf - String.length suf)
      with (String.length t) by lia.
    apply slice_from_app.
Qed.

Lemma endsWith_false_spec s suf :
  endsWith s suf = false <-> ¬ ∃ t, s = t +:+ suf.
Proof. rewrite <-endsWith_spec. by destruct (endsWith s suf). Qed.

Lemma all_chars_app P s t :
  all_chars P (s +:+ t) = all_chars P s && all_chars P t.
Proof.
  induction s as [|c s IH]; str_simpl; [done|]. by rewrite IH, andb_assoc.
Qed.

Lemma all_chars_impl (P Q : ascii -> bool) s :
  (∀ c, P c = true -> Q c = true) ->
  all_chars P s = true -> all_chars Q s = true.
Proof.
  intros HPQ. induction s as [|c s IH]; simpl; [done|].
  rewrite !andb_true_iff. intros [??]; auto.
Qed.

Lemma all_chars_slice_to P n s :
  all_chars P s = true -> all_chars P (slice_to n s) = true.
Proof.
  revert s. induction n as [|n IH]; intros [|c s]; simpl; try done.
  rewrite !andb_true_iff. intros [??]; auto.
Qed.

Lemma all_chars_slice_from P n s :
  all_chars P s = true -> all_chars P (slice_from n s) = true.
Proof.
  revert s. induction n as [|n IH]; intros [|c s]; simpl; try done.
  rewrite !andb_true_iff. intros [??]; auto.
Qed.

Lemma NoSlash_app s t : NoSlash (s +:+ t) <-> NoSlash s ∧ NoSlash t.
Proof. unfold NoSlash. by rewrite all_chars_app, andb_true_iff. Qed.

Lemma NoBackslash_app s t :
  NoBackslash (s +:+ t) <-> NoBackslash s ∧ NoBackslash t.
Proof. unfold NoBackslash. by rewrite all_chars_app, andb_true_iff. Qed.

Lemma NoSlash_not_endsWith s :
  NoSlash s -> endsWith s "/" = false.
Proof.
  intros Hs. apply endsWith_false_spec. intros [t ->].
  apply NoSlash_app in Hs as [_ Hs]. done.
Qed.

Lemma endsWith_app_slash s t :
  t ≠ EmptyString -> NoSlash t -> endsWith (s +:+ t) "/" = false.
Proof.
  intros Hne Ht. apply endsWith_false_spec. intros [u Hu].
  apply (f_equal chars) in Hu. rewrite !chars_app in Hu.
  destruct (chars t) as [|c l] eqn:Hl using rev_ind.
  { destruct t; simplify_eq/=. }
  clear IHl. rewrite app_assoc in Hu. simpl in Hu.
  apply app_inj_tail in Hu as [_ ->].
  assert (NoSlash (String.string_of_list_ascii (l ++ ["/"%char]))) as Hbad.
  { by rewrite <-Hl, String.string_of_list_ascii_of_string. }
  clear -Hbad. induction l as [|c l IH]; simpl in *; [done|].
  unfold NoSlash in *. simpl in Hbad. apply andb_true_iff in Hbad as [_ ?]. auto.
Qed.

Lemma replace_backslashes_id s :
  NoBackslash s -> replace_backslashes s = s.
Proof.
  unfold NoBackslash, replace_backslashes.
  induction s as [|c s IH]; str_simpl; [done|].
  rewrite andb_true_iff, negb_true_iff, bool_decide_eq_false.
  intros [Hc Hs]. rewrite IH by done. unfold backslash_to_slash.
  by rewrite bool_decide_false.
Qed.

Lemma replace_backslashes_app s t :
  replace_backslashes (s +:+ t)
  = replace_backslashes s +:+ replace_backslashes t.
Proof.
  unfold replace_backslashes.
  induction s as [|c s IH]; str_simpl; [done|]. by rewrite IH.
Qed.

(** On names without separators, turning backslashes into slashes loses
    no information. *)
Lemma replace_backslashes_inj s t :
  NoSlash s -> NoSlash t ->
  replace_backslashes s = replace_backslashes t -> s = t.
Proof.
  unfold NoSlash, replace_backslashes. revert t.
  induction s as [|c s IH]; intros [|d t]; simpl; try done.
  rewrite !andb_true_iff, !negb_true_iff. unfold is_slash.
  rewrite !bool_decide_eq_false.
  intros [Hc Hs] [Hd Ht] [= Hcd Hst]. f_equal; [|by apply IH].
  unfold backslash_to_slash in Hcd.
  repeat case_bool_decide; congruence.
Qed.

End string_facts.

(** ** Paths *)

Section path_facts.
Import Js Path.

Lemma split_slash_nonnil s : split_slash s ≠ [].
Proof.
  destruct s as [|c s]; simpl; [done|].
  destruct (is_slash c); [done|]. by destruct (split_slash s).
Qed.

Lemma split_slash_NoSlash s : NoSlash s -> split_slash s = [s].
Proof.
  unfold NoSlash. induction s as [|c s IH]; simpl; [done|].
  rewrite andb_true_iff, negb_true_iff. intros [-> Hs]. by rewrite IH.
Qed.

Lemma split_slash_Forall s : Forall NoSlash (split_slash s).
Proof.
  induction s as [|c s IH]; simpl; [by repeat constructor|].
  destruct (is_slash c) eqn:Hc; [by constructor|].
  destruct (split_slash s) as [|h t]; [by repeat constructor; unfold NoSlash; simpl; rewrite Hc|].
  apply Forall_cons in IH as [Hh Ht]. constructor; [|done].
  unfold NoSlash in *. simpl. by rewrite Hc, Hh.
Qed.

Lemma split_slash_app s t :
  split_slash (s +:+ "/" +:+ t) = split_slash s ++ split_slash t.
Proof.
  induction s as [|c s IH]; [done|]. rewrite string_app_cons. simpl.
  rewrite IH. destruct (is_slash c); [done|].
  pose proof (split_slash_nonnil s). by destruct (split_slash s).
Qed.

Lemma join_slash_cons p l :
  l ≠ [] -> join_slash (p :: l) = p +:+ "/" +:+ join_slash l.
Proof. by destruct l. Qed.

Lemma join_slash_snoc l s :
  l ≠ [] -> join_slash (l ++ [s]) = join_slash l +:+ "/" +:+ s.
Proof.
  induction l as [|p l IH]; [done|]. intros _.
  destruct l as [|q l]; [done|].
  change ((p :: q :: l) ++ [s]) with (p :: ((q :: l) ++ [s])).
  rewrite join_slash_cons by (by destruct l).
  rewrite IH by done. rewrite (join_slash_cons p (q :: l)) by done.
  by rewrite !string_app_assoc.
Qed.

Lemma join_slash_app l1 l2 :
  l1 ≠ [] -> l2 ≠ [] ->
  join_slash (l1 ++ l2) = join_slash l1 +:+ "/" +:+ join_slash l2.
Proof.
  intros Hl1 Hl2. induction l1 as [|p l1 IH]; [done|].
  destruct l1 as [|q l1].
  - simpl app. by rewrite join_slash_cons.
  - change ((p :: q :: l1) ++ l2) with (p :: ((q :: l1) ++ l2)).
    rewrite !join_slash_cons by done. rewrite IH by done.
    by rewrite !string_app_assoc.
Qed.

Lemma split_join l :
  l ≠ [] -> Forall NoSlash l -> split_slash (join_slash l) = l.
Proof.
  induction l as [|p l IH]; [done|]. intros _ [Hp Hl]%Forall_cons.
  destruct l as [|q l]; [by apply split_slash_NoSlash|].
  rewrite join_slash_cons, split_slash_app by done.
  by rewrite IH, split_slash_NoSlash.
Qed.

Lemma normalize_segments_app a st l1 l2 :
  normalize_segments a st (l1 ++ l2)
  = normalize_segments a (normalize_segments a st l1) l2.
Proof.
  revert st. induction l1 as [|s l1 IH]; intros st; simpl; [done|].
  repeat case_match; auto.
Qed.

Lemma normalize_segments_Plain a st l :
  Forall Plain l -> normalize_segments a st l = reverse l ++ st.
Proof.
  revert st. induction l as [|s l IH]; intros st; [done|].
  intros [(?&?&?&?) Hl]%Forall_cons. simpl.
  rewrite !bool_decide_false by done. simpl.
  rewrite IH by done. by rewrite reverse_cons, <-app_assoc.
Qed.

Lemma Plain_not_absolute s : Plain s -> isAbsolute s = false.
Proof.
  intros (?&?&?&Hs). destruct s as [|c s]; [done|].
  unfold isAbsolute. simpl. unfold NoSlash, is_slash in Hs. simpl in Hs.
  apply andb_true_iff in Hs as [Hc _]. apply negb_true_iff in Hc.
  by rewrite Hc.
Qed.

Lemma isAbsolute_app d t : d ≠ EmptyString -> isAbsolute (d +:+ t) = isAbsolute d.
Proof. by destruct d. Qed.

Lemma normalize_Plain s : Plain s -> normalize s = s.
Proof.
  intros Hs. pose proof Hs as (?&?&?&?). unfold normalize.
  rewrite bool_decide_false by done.
  rewrite Plain_not_absolute, NoSlash_not_endsWith by done.
  unfold normalizeString. rewrite split_slash_NoSlash by done.
  rewrite normalize_segments_Plain by (by constructor). simpl.
  by rewrite bool_decide_false.
Qed.

Lemma join_Plain d s : Plain s -> join [d; s] = join_prefix d +:+ s.
Proof.
  intros Hs. pose proof Hs as (Hne&?&?&Hns). unfold join, join_prefix.
  rewrite filter_cons, filter_cons_True, filter_nil by done.
  case_decide as Hd.
  - rewrite bool_decide_false by done.
    rewrite join_slash_cons by done. simpl join_slash.
    unfold normalize.
    rewrite bool_decide_false by (by destruct d).
    rewrite isAbsolute_app by done.
    rewrite <-string_app_assoc, endsWith_app_slash by done.
    rewrite string_app_assoc.
    unfold normalizeString. rewrite split_slash_app, normalize_segments_app.
    rewrite (split_slash_NoSlash s) by done.
    rewrite (normalize_segments_Plain _ _ [s]) by (by constructor).
    simpl. rewrite reverse_cons.
    set (kept := reverse _).
    assert (join_slash (kept ++ [s])
            = (if bool_decide (kept = []) then EmptyString
               else join_slash kept +:+ "/") +:+ s) as ->.
    { case_bool_decide as Hk; [by rewrite Hk|].
      by rewrite join_slash_snoc, string_app_assoc. }
    rewrite bool_decide_false.
    2: { intros [_ ?]%string_app_eq_nil. done. }
    destruct (isAbsolute d); by rewrite ?string_app_assoc.
  - subst d. rewrite bool_decide_true by done.
    by apply normalize_Plain.
Qed.

Lemma join_Plain_inj d s t :
  Plain s -> Plain t -> join [d; s] = join [d; t] -> s = t.
Proof.
  intros Hs Ht. rewrite !join_Plain by done. apply string_app_inv_head.
Qed.

Lemma abs_path_ne_nil segs : abs_path segs ≠ EmptyString.
Proof. done. Qed.

Lemma abs_path_absolute segs : isAbsolute (abs_path segs) = true.
Proof. done. Qed.

Lemma Plain_NoSlash l : Forall Plain l -> Forall NoSlash l.
Proof. intros Hl. eapply Forall_impl; [done|]. by intros s (?&?&?&?). Qed.

Lemma split_abs_path segs :
  Forall Plain segs ->
  split_slash (abs_path segs)
  = EmptyString :: (if bool_decide (segs = []) then [EmptyString] else segs).
Proof.
  intros Hsegs. unfold abs_path. str_simpl. f_equal.
  case_bool_decide as Hnil; [by subst|].
  apply split_join; [done|by apply Plain_NoSlash].
Qed.

Lemma normalize_abs_path a segs :
  Forall Plain segs ->
  normalize_segments a [] (split_slash (abs_path segs)) = reverse segs.
Proof.
  intros Hsegs. rewrite split_abs_path by done. simpl.
  case_bool_decide as Hnil; [by subst|].
  rewrite normalize_segments_Plain by done. by rewrite app_nil_r.
Qed.

Lemma join_prefix_abs segs s :
  Forall Plain segs ->
  join_prefix (abs_path segs) +:+ s = abs_path (segs ++ [s]).
Proof.
  intros Hsegs. unfold join_prefix.
  rewrite bool_decide_false by done. rewrite abs_path_absolute. simpl negb.
  rewrite normalize_abs_path, reverse_involutive by done.
  unfold abs_path. rewrite !string_app_assoc. f_equal.
  case_bool_decide as Hnil; [by subst|].
  by rewrite join_slash_snoc, string_app_assoc.
Qed.

Lemma join_abs_Plain segs s :
  Forall Plain segs -> Plain s ->
  join [abs_path segs; s] = abs_path (segs ++ [s]).
Proof. intros. by rewrite join_Plain, join_prefix_abs. Qed.

Lemma join_slash_ne_nil l :
  Forall Plain l -> l ≠ [] -> join_slash l ≠ EmptyString.
Proof.
  intros Hl Hne. destruct l as [|u l]; [done|].
  apply Forall_cons in Hl as [(?&?) _].
  destruct l as [|v l]; [done|].
  rewrite join_slash_cons by done. by intros [? _]%string_app_eq_nil.
Qed.

Lemma segments_abs_path segs :
  Forall Plain segs -> segments (abs_path segs) = segs.
Proof.
  intros Hsegs. unfold segments. rewrite split_abs_path by done.
  rewrite filter_cons_False by (intros ?; done).
  case_bool_decide as Hnil; [by subst|].
  clear Hnil. induction Hsegs as [|s l (?&?&?&?) _ IH]; [done|].
  by rewrite filter_cons_True, IH.
Qed.

Lemma resolve_abs_path cwd segs :
  Forall Plain segs -> resolve cwd [abs_path segs] = abs_path segs.
Proof.
  intros Hsegs. unfold resolve. simpl.
  unfold normalizeString.
  rewrite split_slash_app, normalize_segments_app, normalize_abs_path by done.
  simpl. by rewrite reverse_involutive.
Qed.

Lemma strip_common_app xs ys : strip_common xs (xs ++ ys) = ([], ys).
Proof.
  induction xs as [|x xs IH]; simpl; [by destruct ys|].
  by rewrite bool_decide_true.
Qed.

Lemma abs_path_inj xs ys :
  Forall Plain xs -> Forall Plain ys -> abs_path xs = abs_path ys -> xs = ys.
Proof.
  intros Hx Hy Heq. by rewrite <-(segments_abs_path xs), <-(segments_abs_path ys), Heq.
Qed.

Lemma relative_abs_path cwd segs rest :
  Forall Plain segs -> Forall Plain rest -> rest ≠ [] ->
  relative cwd (abs_path segs) (abs_path (segs ++ rest)) = join_slash rest.
Proof.
  intros Hsegs Hrest Hne. unfold relative.
  assert (Forall Plain (segs ++ rest)) as Hall by (by apply Forall_app).
  rewrite !resolve_abs_path by done.
  rewrite bool_decide_false.
  2: { intros Heq%abs_path_inj; [|done..].
       apply (f_equal List.length) in Heq. rewrite length_app in Heq.
       destruct rest; [done|]. simpl in Heq. lia. }
  rewrite !segments_abs_path by done.
  by rewrite strip_common_app.
Qed.

End path_facts.

Section name_facts.
Import Js Path.

Lemma abs_path_not_endsWith_slash segs :
  Forall Plain segs -> segs ≠ [] -> endsWith (abs_path segs) "/" = false.
Proof.
  intros Hsegs Hne. destruct segs as [|t segs _] using rev_ind; [done|].
  apply Forall_app in Hsegs as [_ [(?&?&?&?) _]%Forall_cons].
  unfold abs_path. destruct segs as [|u segs].
  - simpl. by apply endsWith_app_slash.
  - rewrite join_slash_snoc, <-!string_app_assoc by done.
    by apply endsWith_app_slash.
Qed.

Lemma join_slash_abs_path segs l :
  l ≠ [] -> join_slash (abs_path segs :: l) = abs_path segs +:+ "/" +:+ join_slash l.
Proof. apply join_slash_cons. Qed.

Lemma join_abs_list segs l :
  Forall Plain segs -> Forall Plain l ->
  join (abs_path segs :: l) = abs_path (segs ++ l).
Proof.
  intros Hsegs Hl.
  assert (Forall Plain (segs ++ l)) as Hall by (by apply Forall_app).
  destruct (decide (segs ++ l = [])) as [Hnil|Hnil].
  { apply app_eq_nil in Hnil as [-> ->]. reflexivity. }
  unfold join.
  assert (filter (fun s => s ≠ EmptyString) (abs_path segs :: l)
          = abs_path segs :: l) as ->.
  { rewrite filter_cons_True by done. f_equal.
    clear -Hl. induction Hl as [|s l (?&?&?&?) _ IH]; [done|].
    by rewrite filter_cons_True, IH. }
  assert (join_slash (abs_path segs :: l) = abs_path (segs ++ l)
          ∨ (segs = [] ∧ join_slash (abs_path segs :: l)
                         = "/" +:+ abs_path l)) as Hjoin.
  { destruct l as [|s l]; [left; by rewrite app_nil_r|].
    rewrite join_slash_abs_path by done.
    destruct segs as [|t segs]; [right; done|left].
    unfold abs_path. rewrite string_app_assoc. f_equal.
    by rewrite join_slash_app. }
  assert (normalize (abs_path (segs ++ l)) = abs_path (segs ++ l)) as Hnorm.
  { unfold normalize. rewrite bool_decide_false by done.
    rewrite abs_path_absolute, abs_path_not_endsWith_slash by done.
    unfold normalizeString.
    rewrite normalize_abs_path, reverse_involutive by done.
    rewrite bool_decide_false; [done|]. by apply join_slash_ne_nil. }
  destruct Hjoin as [->|[-> ->]]; [done|].
  simpl app in *. etrans; [|exact Hnorm]. unfold normalize.
  rewrite !bool_decide_false by done.
  change (isAbsolute ("/" +:+ abs_path l)) with true.
  rewrite abs_path_absolute.
  assert (endsWith ("/" +:+ abs_path l) "/" = endsWith (abs_path l) "/") as ->.
  { rewrite abs_path_not_endsWith_slash by done.
    destruct l as [|t l _] using rev_ind; [done|].
    apply Forall_app in Hl as [_ [(?&?&?&?) _]%Forall_cons].
    unfold abs_path. destruct l as [|u l].
    - simpl join_slash. rewrite <-string_app_assoc. by apply endsWith_app_slash.
    - rewrite join_slash_snoc, <-!string_app_assoc by done.
      by apply endsWith_app_slash. }
  by unfold normalizeString.
Qed.

Lemma abs_path_app segs l :
  Forall Plain segs -> l ≠ [] ->
  abs_path (segs ++ l) = join_prefix (abs_path segs) +:+ join_slash l.
Proof.
  intros Hsegs Hl. unfold join_prefix.
  rewrite bool_decide_false by done. rewrite abs_path_absolute. simpl negb.
  rewrite normalize_abs_path, reverse_involutive by done.
  unfold abs_path. rewrite !string_app_assoc. f_equal.
  case_bool_decide as Hnil; [by subst|].
  by rewrite join_slash_app, string_app_assoc.
Qed.

Lemma segments_NoSlash p : Forall NoSlash (segments p).
Proof.
  unfold segments. apply Forall_forall. intros s [_ Hs]%list_elem_of_filter.
  pose proof (split_slash_Forall p) as Hall.
  by eapply Forall_forall in Hall.
Qed.

Lemma basename_NoSlash p : NoSlash (basename p).
Proof.
  unfold basename. destruct (last (segments p)) as [b|] eqn:Hlast; [|done].
  apply last_Some_elem_of in Hlast.
  pose proof (segments_NoSlash p) as Hall.
  by eapply Forall_forall in Hall.
Qed.

Lemma basename_id s : NoSlash s -> basename s = s.
Proof.
  intros Hs. unfold basename, segments. rewrite split_slash_NoSlash by done.
  destruct (decide (s = EmptyString)) as [->|Hne]; [done|].
  by rewrite filter_cons_True.
Qed.

Lemma last_dot_suffix_Some s r :
  last_dot_suffix s = Some r -> r ≠ EmptyString ∧ ∃ n, s = n +:+ r.
Proof.
  revert r. induction s as [|c s IH]; intros r; simpl; [done|].
  destruct (last_dot_suffix s) as [r'|].
  - intros [= <-]. destruct (IH r' eq_refl) as [? [n ->]].
    split; [done|]. by exists (String c n).
  - case_bool_decide; [|done]. intros [= <-]. split; [done|].
    by exists EmptyString.
Qed.

(** A component with an extension is a proper name followed by it. *)
Lemma ext_of_component_decomp b :
  ext_of_component b ≠ EmptyString ->
  b ≠ "." ∧ b ≠ ".." ∧
  ∃ n, n ≠ EmptyString ∧ b = n +:+ ext_of_component b.
Proof.
  destruct b as [|c b]; simpl; [done|].
  case_bool_decide as Hdd; [done|].
  destruct (last_dot_suffix b) as [r|] eqn:Hr; [|done]. simpl. intros _.
  apply last_dot_suffix_Some in Hr as [Hne [n ->]].
  repeat split; [|done|by exists (String c n)].
  intros [= -> Hn]. by destruct n.
Qed.

Lemma extname_Plain p : extname p ≠ EmptyString -> Plain (basename p).
Proof.
  unfold extname. intros (?&?&n&?&Hb)%ext_of_component_decomp.
  repeat split; [|done..|apply basename_NoSlash].
  intros Hnil. rewrite Hnil in Hb. by destruct n.
Qed.

Lemma extname_NoSlash p : NoSlash (extname p).
Proof.
  destruct (decide (extname p = EmptyString)) as [->|Hne]; [done|].
  pose proof (basename_NoSlash p) as Hb. unfold extname in *.
  apply ext_of_component_decomp in Hne as (_&_&n&_&Heq).
  rewrite Heq in Hb. by apply NoSlash_app in Hb as [_ ?].
Qed.

(** For a leaf name with an extension, [basename(leaf, ext)] is the leaf
    without its extension. *)
Lemma basename_suffix_extname f :
  NoSlash f -> extname f ≠ EmptyString ->
  basename_suffix f (extname f) +:+ extname f = f.
Proof.
  intros Hf Hext. unfold basename_suffix.
  pose proof Hext as (_&_&n&Hn&Heq)%ext_of_component_decomp.
  fold (extname f) in Heq. rewrite basename_id in Heq by done.
  rewrite (bool_decide_false (extname f = _)) by done.
  assert (String.length f = String.length n + String.length (extname f))
    as Hlen by (by rewrite Heq at 1; rewrite string_app_length).
  assert (0 < String.length n) by (destruct n; [done|simpl; lia]).
  rewrite bool_decide_false by lia.
  rewrite bool_decide_false
    by (intros Hbad; apply (f_equal String.length) in Hbad; lia).
  rewrite basename_id by done.
  assert (endsWith f (extname f) = true) as ->
    by (apply endsWith_spec; eauto).
  rewrite bool_decide_false
    by (intros Hbad; apply (f_equal String.length) in Hbad; lia).
  simpl. replace (String.length f - String.length (extname f))
    with (String.length n) by lia.
  rewrite Heq at 1. by rewrite slice_to_app.
Qed.

Lemma pretty_N_go_digits x s :
  all_chars is_digit s = true -> all_chars is_digit (pretty_N_go x s) = true.
Proof.
  revert s. induction (N.lt_wf_0 x) as [x _ IH]; intros s Hs.
  destruct (decide (x = 0)%N) as [->|Hx]; [by rewrite pretty_N_go_0|].
  rewrite pretty_N_go_step by lia. apply IH.
  { apply N.div_lt; lia. }
  simpl. rewrite Hs, andb_true_r.
  unfold pretty_N_char. by repeat case_match.
Qed.

Lemma pretty_N_digits (x : N) : all_chars is_digit (pretty x) = true.
Proof.
  unfold pretty, pretty_N. case_decide; [done|]. by apply pretty_N_go_digits.
Qed.

Lemma pretty_nat_digits (x : nat) : all_chars is_digit (pretty x) = true.
Proof. apply pretty_N_digits. Qed.

Lemma digits_NoSlash s : all_chars is_digit s = true -> NoSlash s.
Proof.
  apply all_chars_impl. intros c. unfold is_digit, is_slash.
  rewrite bool_decide_eq_true, negb_true_iff, bool_decide_eq_false.
  rewrite !elem_of_cons, elem_of_nil. intros Hc ->. intuition discriminate.
Qed.

Lemma digits_NoBackslash s : all_chars is_digit s = true -> NoBackslash s.
Proof.
  apply all_chars_impl. intros c. unfold is_digit.
  rewrite bool_decide_eq_true, negb_true_iff, bool_decide_eq_false.
  rewrite !elem_of_cons, elem_of_nil. intros Hc ->. intuition discriminate.
Qed.

(** A name that contains an underscore is neither ["."] nor [".."]. *)
Lemma underscore_Plain a b :
  NoSlash a -> NoSlash b -> Plain (a +:+ "_" +:+ b).
Proof.
  intros Ha Hb.
  assert ("_"%char ∈ chars (a +:+ "_" +:+ b)) as Hin.
  { rewrite chars_app, elem_of_app. right. simpl. apply elem_of_cons. by left. }
  split_and!.
  - intros Heq. rewrite Heq in Hin. by apply elem_of_nil in Hin.
  - intros Heq. rewrite Heq in Hin. simpl in Hin.
    by rewrite !elem_of_cons, elem_of_nil in Hin; intuition discriminate.
  - intros Heq. rewrite Heq in Hin. simpl in Hin.
    by rewrite !elem_of_cons, elem_of_nil in Hin; intuition discriminate.
  - apply NoSlash_app. split; [done|]. by apply NoSlash_app.
Qed.

End name_facts.

(** ** Sets as arrays, sorting *)

Section array_facts.
Import Js.

Lemma array_from_set_go_elem seen xs x :
  x ∈ array_from_set_go seen xs <-> x ∈ xs ∧ x ∉ seen.
Proof.
  revert seen. induction xs as [|y xs IH]; intros seen; simpl.
  - rewrite elem_of_nil. tauto.
  - case_decide as Hy.
    + rewrite IH, elem_of_cons. split; [tauto|].
      intros [[->|?] ?]; tauto.
    + rewrite !elem_of_cons, IH, elem_of_union, elem_of_singleton.
      destruct (decide (x = y)) as [->|]; tauto.
Qed.

Lemma array_from_set_elem xs x : x ∈ array_from_set xs <-> x ∈ xs.
Proof.
  unfold array_from_set. rewrite array_from_set_go_elem.
  pose proof (not_elem_of_empty (C:=gset string) x). tauto.
Qed.

Lemma array_from_set_go_NoDup seen xs : NoDup (array_from_set_go seen xs).
Proof.
  revert seen. induction xs as [|y xs IH]; intros seen; simpl.
  - constructor.
  - case_decide; [done|]. constructor; [|done].
    rewrite array_from_set_go_elem, elem_of_union, elem_of_singleton. tauto.
Qed.

Lemma array_from_set_NoDup xs : NoDup (array_from_set xs).
Proof. apply array_from_set_go_NoDup. Qed.

Lemma array_from_set_go_length seen xs :
  List.length (array_from_set_go seen xs) <= List.length xs.
Proof.
  revert seen. induction xs as [|y xs IH]; intros seen; simpl; [done|].
  case_decide; simpl; [etrans; [apply IH|lia]|]. specialize (IH ({[y]} ∪ seen)). lia.
Qed.

Lemma array_from_set_length xs :
  List.length (array_from_set xs) <= List.length xs.
Proof. apply array_from_set_go_length. Qed.

Lemma array_from_set_go_id seen xs :
  NoDup xs -> (∀ x, x ∈ xs -> x ∉ seen) -> array_from_set_go seen xs = xs.
Proof.
  revert seen. induction xs as [|y xs IH]; intros seen Hnd Hseen; simpl; [done|].
  apply NoDup_cons in Hnd as [Hy Hnd].
  rewrite decide_False by (apply Hseen, elem_of_cons; by left).
  f_equal. apply IH; [done|]. intros x Hx.
  rewrite elem_of_union, elem_of_singleton. intros [->|Hin]; [done|].
  apply (Hseen x); [apply elem_of_cons; by right|done].
Qed.

(** Deduplicating an array without duplicates changes nothing. *)
Lemma array_from_set_id xs : NoDup xs -> array_from_set xs = xs.
Proof.
  intros. apply array_from_set_go_id; [done|].
  intros x _. apply not_elem_of_empty.
Qed.

Lemma array_from_set_go_app seen xs ys :
  array_from_set_go seen (xs ++ ys)
  = array_from_set_go seen xs
    ++ array_from_set_go (list_to_set xs ∪ seen) ys.
Proof.
  revert seen. induction xs as [|x xs IH]; intros seen; simpl.
  - by rewrite (left_id_L ∅ (∪)).
  - case_decide as Hx.
    + rewrite IH. do 2 f_equal.
      apply set_eq. intros z. rewrite !elem_of_union, elem_of_singleton.
      split; [tauto|]. intros [[->|?]|?]; tauto.
    + simpl. rewrite IH. do 3 f_equal.
      apply set_eq. intros z. rewrite !elem_of_union, elem_of_singleton. tauto.
Qed.

(** The element at a first occurrence is kept, and what precedes it in the
    result is what precedes it in the input. *)
Lemma array_from_set_first_occurrence pre x post :
  x ∉ pre ->
  ∃ kept_pre kept_post,
    array_from_set (pre ++ x :: post) = kept_pre ++ x :: kept_post
    ∧ ∀ y, y ∈ kept_pre <-> y ∈ pre.
Proof.
  intros Hx. unfold array_from_set. rewrite array_from_set_go_app. simpl.
  rewrite decide_False.
  2: { rewrite elem_of_union, elem_of_list_to_set.
       pose proof (not_elem_of_empty (C:=gset string) x). tauto. }
  eexists _, _. split; [done|]. intros y. apply array_from_set_elem.
Qed.

Lemma list_filter_True_all {A} (P : A -> Prop) `{∀ x, Decision (P x)}
    (xs : list A) :
  (∀ x, x ∈ xs -> P x) -> filter P xs = xs.
Proof.
  induction xs as [|x xs IH]; intros Hall; [done|].
  rewrite filter_cons_True by (apply Hall, elem_of_cons; by left).
  f_equal. apply IH. intros y Hy. apply Hall, elem_of_cons. by right.
Qed.

Lemma sort_Permutation xs : sort xs ≡ₚ xs.
Proof. apply merge_sort_Permutation. Qed.

Lemma sort_StronglySorted xs : StronglySorted String.le (sort xs).
Proof. apply (StronglySorted_merge_sort _). Qed.

Lemma string_le_app pre s t : String.le (pre +:+ s) (pre +:+ t) <-> String.le s t.
Proof.
  unfold String.le, String.leb.
  induction pre as [|c pre IH]; [done|]. rewrite !string_app_cons. simpl.
  assert (Ascii.compare c c = Eq) as -> by apply N.compare_refl.
  done.
Qed.

End array_facts.

(** ** The file system *)

Section fs_facts.

Lemma existsSync_true fs p : Fs.existsSync fs p = true <-> is_Some (fs !! p).
Proof. unfold Fs.existsSync. apply bool_decide_eq_true. Qed.

Lemma existsSync_false fs p : Fs.existsSync fs p = false <-> fs !! p = None.
Proof.
  unfold Fs.existsSync. rewrite bool_decide_eq_false.
  by rewrite eq_None_not_Some.
Qed.

Lemma remove_lookup p fs k :
  (Fs.remove p fs).2 !! k
  = if bool_decide (k = p) || Fs.is_under p k then None else fs !! k.
Proof.
  unfold Fs.remove. simpl.
  destruct (bool_decide (k = p) || Fs.is_under p k) eqn:Hk.
  - apply map_lookup_filter_None. right. intros x _ [Hne Hu]. simpl in *.
    apply orb_true_iff in Hk as [Hk|Hk]; [|congruence].
    by apply bool_decide_eq_true in Hk.
  - apply orb_false_iff in Hk as [Hk Hu]. apply bool_decide_eq_false in Hk.
    destruct (fs !! k) as [x|] eqn:Hfs.
    + by apply map_lookup_filter_Some.
    + apply map_lookup_filter_None. by left.
Qed.

Lemma remove_lookup_self p fs : (Fs.remove p fs).2 !! p = None.
Proof. rewrite remove_lookup. by rewrite bool_decide_true. Qed.

Lemma remove_lookup_under p fs k :
  Fs.is_under p k = true -> (Fs.remove p fs).2 !! k = None.
Proof. intros Hk. rewrite remove_lookup, Hk. by rewrite orb_true_r. Qed.

Lemma remove_lookup_None p fs k :
  fs !! k = None -> (Fs.remove p fs).2 !! k = None.
Proof. intros Hk. rewrite remove_lookup, Hk. by case_match. Qed.

Lemma remove_lookup_other p fs k :
  k ≠ p -> Fs.is_under p k = false -> (Fs.remove p fs).2 !! k = fs !! k.
Proof.
  intros Hne Hu. rewrite remove_lookup, Hu. by rewrite bool_decide_false.
Qed.

(** More distinct paths than the file system has entries cannot all
    exist. *)
Lemma not_all_exist (fs : gmap string node) (paths : list string) :
  NoDup paths -> size fs < List.length paths ->
  ∃ p, p ∈ paths ∧ fs !! p = None.
Proof.
  intros Hnd Hlen.
  destruct (decide (Forall (fun p => is_Some (fs !! p)) paths)) as [Hall|Hex].
  - exfalso.
    assert (list_to_set paths ⊆ dom fs) as Hsub.
    { intros p Hp%elem_of_list_to_set. apply elem_of_dom.
      by eapply Forall_forall in Hall. }
    apply subseteq_size in Hsub.
    rewrite size_list_to_set, size_dom in Hsub by done. lia.
  - apply not_Forall_Exists in Hex; [|apply _].
    apply Exists_exists in Hex as (p & Hp & Hnone). exists p. split; [done|].
    by apply eq_None_not_Some.
Qed.

End fs_facts.

(** ** The collision loop *)

Section free_path_facts.
Import Js Path.

Lemma basename_suffix_NoSlash p suffix : NoSlash (basename_suffix p suffix).
Proof.
  unfold basename_suffix. pose proof (basename_NoSlash p).
  repeat case_match; try done. by apply all_chars_slice_to.
Qed.

Lemma suffixed_segment_Plain fileName (counter : nat) :
  Plain (basename_suffix fileName (extname fileName)
         +:+ "_" +:+ pretty counter +:+ extname fileName).
Proof.
  apply underscore_Plain; [apply basename_suffix_NoSlash|].
  apply NoSlash_app. split; [|apply extname_NoSlash].
  apply digits_NoSlash, pretty_nat_digits.
Qed.

Lemma suffixed_inj extractTo fileName i j :
  suffixed extractTo fileName i = suffixed extractTo fileName j -> i = j.
Proof.
  unfold suffixed. intros Heq.
  apply join_Plain_inj in Heq; [|apply suffixed_segment_Plain..].
  apply string_app_inv_head in Heq.
  change ("_" +:+ ?x) with (String "_" x) in Heq. injection Heq as Heq.
  apply string_app_inv_tail in Heq. by apply (inj pretty) in Heq.
Qed.

Lemma free_path_spec fuel fs extractTo fileName finalPath counter :
  let r := free_path fuel fs extractTo fileName finalPath counter in
  (Fs.existsSync fs finalPath = false ∧ r = finalPath)
  ∨ (Fs.existsSync fs finalPath = true ∧ fuel = 0 ∧ r = finalPath)
  ∨ (Fs.existsSync fs finalPath = true ∧
     ∃ k, k < fuel ∧ r = suffixed extractTo fileName (counter + k)
          ∧ (∀ j, j < k ->
               Fs.existsSync fs (suffixed extractTo fileName (counter + j))
               = true)
          ∧ (Fs.existsSync fs r = false ∨ S k = fuel)).
Proof.
  revert finalPath counter.
  induction fuel as [|fuel IH]; intros finalPath counter; simpl.
  - destruct (Fs.existsSync fs finalPath); auto.
  - destruct (Fs.existsSync fs finalPath) eqn:Hex; [|auto].
    right; right. split; [done|].
    fold (suffixed extractTo fileName counter).
    destruct (IH (suffixed extractTo fileName counter) (S counter))
      as [[Hfree ->]|[(Hex' & -> & ->)|(Hex' & k & Hk & -> & Hbelow & Hend)]].
    + exists 0. rewrite Nat.add_0_r. split_and!; [lia|done| |auto].
      intros j Hj. lia.
    + exists 0. rewrite Nat.add_0_r. split_and!; [lia|done| |auto].
      intros j Hj. lia.
    + exists (S k). rewrite <-Nat.add_succ_comm.
      split_and!; [lia|done| |].
      * intros [|j] Hj; [by rewrite Nat.add_0_r|].
        rewrite <-Nat.add_succ_comm. apply Hbelow. lia.
      * destruct Hend as [?|?]; [by left|right; lia].
Qed.

(** The loop always stops at a location where no file exists: the bound on
    its iterations is never what ends it. *)
Lemma free_path_is_free fs extractTo fileName finalPath counter :
  fs !! free_path (S (size fs)) fs extractTo fileName finalPath counter = None.
Proof.
  apply existsSync_false.
  destruct (free_path_spec (S (size fs)) fs extractTo fileName finalPath counter)
    as [[Hfree ->]|[(_ & ? & _)|(_ & k & Hk & Hr & Hbelow & [Hfree|Hend])]];
    [done|done|done|].
  injection Hend as ->.
  destruct (Fs.existsSync fs _) eqn:Hex; [exfalso|done].
  destruct (not_all_exist fs
    ((fun j => suffixed extractTo fileName (counter + j)) <$> seq 0 (S (size fs))))
    as (p & Hp & Hnone).
  - apply NoDup_fmap_2; [|apply NoDup_seq].
    intros i j Hij%suffixed_inj. lia.
  - rewrite length_fmap, length_seq. lia.
  - apply list_elem_of_fmap in Hp as (j & -> & Hj%elem_of_seq).
    apply existsSync_false in Hnone.
    destruct (decide (j = size fs)) as [->|Hne].
    + rewrite Hr in Hex. congruence.
    + rewrite Hbelow in Hnone by lia. done.
Qed.

(** Where the loop stops: at the plain location when it is free, else at the
    candidate with the least counter, from [counter] on, that is free. *)
Lemma free_path_least fs extractTo fileName finalPath counter :
  let r := free_path (S (size fs)) fs extractTo fileName finalPath counter in
  (fs !! finalPath = None ∧ r = finalPath)
  ∨ (is_Some (fs !! finalPath) ∧
     ∃ k, counter <= k ∧ r = suffixed extractTo fileName k
          ∧ fs !! r = None
          ∧ ∀ j, counter <= j < k ->
              is_Some (fs !! suffixed extractTo fileName j)).
Proof.
  intros r. pose proof (free_path_is_free fs extractTo fileName finalPath counter)
    as Hfree. fold r in Hfree.
  destruct (free_path_spec (S (size fs)) fs extractTo fileName finalPath counter)
    as [[Hnone Hr]|[(_ & ? & _)|(Hex & k & Hk & Hr & Hbelow & _)]]; [|done|].
  - left. split; [by apply existsSync_false|done].
  - right. split; [by apply existsSync_true|].
    exists (counter + k). split_and!; [lia|done|done|].
    intros j Hj. apply existsSync_true.
    replace j with (counter + (j - counter)) by lia. apply Hbelow. lia.
Qed.

End free_path_facts.

(** ** The entry handler *)

Section on_entry_facts.
Import Js Path.

Local Arguments free_path : simpl never.

Lemma split_slash_all_chars P s :
  all_chars P s = true ->
  Forall (fun x => all_chars P x = true) (split_slash s).
Proof.
  induction s as [|c s IH]; simpl; [by repeat constructor|].
  intros [Hc Hs]%andb_true_iff. specialize (IH Hs).
  destruct (is_slash c); [by constructor|].
  destruct (split_slash s) as [|h t];
    [by repeat constructor; simpl; rewrite Hc|].
  apply Forall_cons in IH as [Hh Ht]. constructor; [|done].
  simpl. by rewrite Hc, Hh.
Qed.

Lemma basename_all_chars P p :
  all_chars P p = true -> all_chars P (basename p) = true.
Proof.
  intros Hp. unfold basename.
  destruct (last (segments p)) as [b|] eqn:Hlast; [|done].
  apply last_Some_elem_of in Hlast. unfold segments in Hlast.
  apply list_elem_of_filter in Hlast as [_ Hb].
  pose proof (split_slash_all_chars P p Hp) as Hall.
  by eapply Forall_forall in Hall.
Qed.

Lemma basename_suffix_all_chars P p suffix :
  all_chars P p = true -> all_chars P (basename_suffix p suffix) = true.
Proof.
  intros Hp. unfold basename_suffix.
  pose proof (basename_all_chars P p Hp).
  repeat case_match; try done. by apply all_chars_slice_to.
Qed.

Lemma extname_all_chars P p :
  all_chars P p = true -> all_chars P (extname p) = true.
Proof.
  intros Hp. destruct (decide (extname p = EmptyString)) as [->|Hne]; [done|].
  pose proof (basename_all_chars P p Hp) as Hb. unfold extname in *.
  apply ext_of_component_decomp in Hne as (_&_&n&_&Heq).
  rewrite Heq, all_chars_app in Hb. by apply andb_true_iff in Hb as [_ ?].
Qed.

Lemma isImageFile_extname name :
  isImageFile name = true -> extname name ≠ EmptyString.
Proof.
  unfold isImageFile. rewrite bool_decide_eq_true. intros Hin Hnil.
  rewrite Hnil in Hin. simpl in Hin. unfold IMAGE_EXTENSIONS in Hin.
  rewrite !elem_of_cons, elem_of_nil in Hin. intuition discriminate.
Qed.

Lemma keeps_true name :
  keeps name = true <->
  endsWith name "/" = false ∧ isImageFile name = true
  ∧ startsWith (basename name) "._" = false.
Proof.
  unfold keeps. rewrite !andb_true_iff, !negb_true_iff. tauto.
Qed.

Lemma keeps_Plain name : keeps name = true -> Plain (basename name).
Proof.
  intros (_ & Himg & _)%keeps_true.
  by apply extname_Plain, isImageFile_extname.
Qed.

Context (extractTo : string).

Lemma on_entry_seen st e :
  fileName e ∈ processedEntries st -> on_entry extractTo st e = st.
Proof. intros Hin. unfold on_entry. by rewrite decide_True. Qed.

Lemma on_entry_rejected st e :
  fileName e ∉ processedEntries st -> keeps (fileName e) = false ->
  on_entry extractTo st e = mark_processed st e.
Proof.
  intros Hin Hk. unfold on_entry. rewrite decide_False by done.
  unfold keeps in Hk.
  destruct (endsWith (fileName e) "/"); [done|].
  destruct (isImageFile (fileName e)); [|done].
  destruct (startsWith (basename (fileName e)) "._"); [done|].
  done.
Qed.

Lemma on_entry_failed st e :
  fileName e ∉ processedEntries st -> keeps (fileName e) = true ->
  (∀ data, io e ≠ Piped data) ->
  on_entry extractTo st e = push_promise (mark_processed st e) (disk st) None.
Proof.
  intros Hin (Hd & Himg & Hfork)%keeps_true Hio. unfold on_entry.
  rewrite decide_False by done. rewrite Hd, Himg, Hfork. simpl.
  destruct (io e) as [|data]; [done|]. by destruct (Hio data).
Qed.

Lemma on_entry_piped st e data :
  fileName e ∉ processedEntries st -> keeps (fileName e) = true ->
  io e = Piped data ->
  on_entry extractTo st e
  = push_promise (mark_processed st e)
      (<[final_path extractTo (disk st) (fileName e) := File data]> (disk st))
      (Some (final_path extractTo (disk st) (fileName e))).
Proof.
  intros Hin (Hd & Himg & Hfork)%keeps_true Hio. unfold on_entry.
  rewrite decide_False by done. rewrite Hd, Himg, Hfork, Hio. simpl.
  fold (final_path extractTo (disk st) (fileName e)).
  unfold Fs.existsSync. rewrite bool_decide_true; [done|].
  rewrite lookup_insert_eq. eauto.
Qed.

Lemma final_path_fresh fs name : fs !! final_path extractTo fs name = None.
Proof. apply free_path_is_free. Qed.

Lemma final_path_shape fs name :
  keeps name = true ->
  ∃ seg, Plain seg ∧ final_path extractTo fs name = join [extractTo; seg]
         ∧ chars_from name seg.
Proof.
  intros Hk. unfold final_path.
  destruct (free_path_least fs extractTo (basename name)
              (join [extractTo; basename name]) 1)
    as [[_ ->]|(_ & k & _ & -> & _)].
  - exists (basename name). split_and!; [by apply keeps_Plain|done|].
    intros P _ _. apply basename_all_chars.
  - eexists. split_and!; [apply suffixed_segment_Plain|done|].
    intros P Hu Hd Hn. rewrite !all_chars_app, !andb_true_iff. split_and!.
    + by apply basename_suffix_all_chars, basename_all_chars.
    + simpl. by rewrite Hu.
    + eapply all_chars_impl; [exact Hd|]. apply pretty_nat_digits.
    + by apply extname_all_chars, basename_all_chars.
Qed.

Lemma on_entry_processed st e :
  processedEntries (on_entry extractTo st e)
  = {[fileName e]} ∪ processedEntries st.
Proof.
  destruct (decide (fileName e ∈ processedEntries st)) as [Hin|Hin].
  { rewrite on_entry_seen by done. apply set_eq. intros x.
    rewrite elem_of_union, elem_of_singleton. split; [tauto|].
    intros [->|?]; done. }
  destruct (keeps (fileName e)) eqn:Hk.
  - destruct (io e) as [|data] eqn:Hio.
    + rewrite on_entry_failed; [done..|]. by rewrite Hio.
    + by erewrite on_entry_piped.
  - by rewrite on_entry_rejected.
Qed.

End on_entry_facts.

(** ** Reading a whole archive *)

Section read_entries_facts.
Import Js Path.

Context (extractTo : string).

Local Abbreviation run := (foldl (on_entry extractTo)).

Lemma Extracted_mono l l' fs fs' p :
  l ⊆ l' -> fs ⊆ fs' -> Extracted extractTo l fs p -> Extracted extractTo l' fs' p.
Proof.
  intros Hl Hfs (e & data & seg & He & Hk & Hio & Hp & Hrest).
  exists e, data, seg. split_and!; try tauto; [by apply Hl|].
  by eapply lookup_weaken.
Qed.

Lemma on_entry_spec st e :
  ∃ new,
    writePromises (on_entry extractTo st e) = writePromises st ++ new
    ∧ disk st ⊆ disk (on_entry extractTo st e)
    ∧ NoDup (fulfilled new)
    ∧ ∀ p, p ∈ fulfilled new ->
        disk st !! p = None
        ∧ Extracted extractTo [e] (disk (on_entry extractTo st e)) p.
Proof.
  destruct (decide (fileName e ∈ processedEntries st)) as [Hin|Hin].
  { rewrite on_entry_seen by done. exists []. rewrite app_nil_r.
    split_and!; [done|done|constructor|]. by intros p ?%elem_of_nil. }
  destruct (keeps (fileName e)) eqn:Hk.
  2: { rewrite on_entry_rejected by done. exists []. simpl. rewrite app_nil_r.
       split_and!; [done|done|constructor|]. by intros p ?%elem_of_nil. }
  destruct (io e) as [|data] eqn:Hio.
  1: rewrite on_entry_failed by (done || by rewrite Hio);
    exists [None]; simpl; split_and!; [done|done|constructor|];
    by intros p ?%elem_of_nil.
  erewrite on_entry_piped by done. eexists [Some _]. simpl.
  pose proof (final_path_fresh extractTo (disk st) (fileName e)) as Hfresh.
  split_and!; [done|by apply insert_subseteq|apply NoDup_singleton|].
  intros p ->%list_elem_of_singleton. split; [done|].
  destruct (final_path_shape extractTo (disk st) (fileName e) Hk)
    as (seg & Hseg & Hp & Hbs).
  exists e, data, seg. split_and!; try done.
  - apply list_elem_of_singleton. done.
  - by rewrite lookup_insert_eq.
Qed.

Lemma fulfilled_app xs ys : fulfilled (xs ++ ys) = fulfilled xs ++ fulfilled ys.
Proof. apply omap_app. Qed.

(** The handler run over a list of entries only adds promises and files;
    the fulfilled promises it adds are pairwise distinct, at locations that
    were free, and each holds the bytes of a kept entry. *)
Lemma run_spec l st :
  ∃ new,
    writePromises (run st l) = writePromises st ++ new
    ∧ disk st ⊆ disk (run st l)
    ∧ NoDup (fulfilled new)
    ∧ ∀ p, p ∈ fulfilled new ->
        disk st !! p = None ∧ Extracted extractTo l (disk (run st l)) p.
Proof.
  revert st. induction l as [|e l IH]; intros st; simpl.
  { exists []. rewrite app_nil_r. split_and!; [done|done|constructor|].
    by intros p ?%elem_of_nil. }
  destruct (on_entry_spec st e) as (new1 & Hw1 & Hd1 & Hnd1 & Hnew1).
  destruct (IH (on_entry extractTo st e)) as (new2 & Hw2 & Hd2 & Hnd2 & Hnew2).
  exists (new1 ++ new2). rewrite Hw2, Hw1, <-app_assoc, fulfilled_app.
  split_and!; [done|by etrans| |].
  - apply NoDup_app. split_and!; [done| |done].
    intros p Hp1 Hp2.
    destruct (Hnew1 p Hp1) as (_ & e' & data & seg & _ & _ & _ & Hsome & _).
    destruct (Hnew2 p Hp2) as (Hnone & _). congruence.
  - intros p [Hp|Hp]%elem_of_app.
    + destruct (Hnew1 p Hp) as [Hnone Hex]. split; [done|].
      refine (Extracted_mono [e] _ _ _ p _ Hd2 Hex).
      intros x ->%list_elem_of_singleton. apply elem_of_cons. by left.
    + destruct (Hnew2 p Hp) as [Hnone Hex]. split.
      * eapply lookup_weaken_None; done.
      * refine (Extracted_mono l _ _ _ p _ (reflexivity _) Hex).
        intros x Hx. apply elem_of_cons. by right.
Qed.

Lemma run_processed l st :
  processedEntries (run st l)
  = list_to_set (fileName <$> l) ∪ processedEntries st.
Proof.
  revert st. induction l as [|e l IH]; intros st; simpl.
  { by rewrite (left_id_L ∅ (∪)). }
  rewrite IH, on_entry_processed. apply set_eq. intros x.
  rewrite !elem_of_union, elem_of_singleton. tauto.
Qed.

(** Every kept entry with a fresh name whose bytes are piped adds exactly
    one fulfilled promise. *)
Lemma run_count l st :
  NoDup (fileName <$> filter (fun e => keeps (fileName e) = true) l) ->
  (∀ e, e ∈ l -> keeps (fileName e) = true ->
     (fileName e ∉ processedEntries st) ∧ (∃ data, io e = Piped data)) ->
  List.length (fulfilled (writePromises (run st l)))
  = List.length (fulfilled (writePromises st))
    + List.length (filter (fun e => keeps (fileName e) = true) l).
Proof.
  revert st. induction l as [|e l IH]; intros st Hnd Hall; simpl; [lia|].
  assert (∀ e', e' ∈ l -> keeps (fileName e') = true ->
            (fileName e' ∉ processedEntries (on_entry extractTo st e))
            ∧ (∃ data, io e' = Piped data)) as Hrest.
  { intros e' He' Hk'.
    destruct (Hall e') as [Hfresh Hio]; [apply elem_of_cons; by right|done|].
    split; [|done]. rewrite on_entry_processed, elem_of_union, elem_of_singleton.
    intros [Heq|?]; [|done].
    destruct (keeps (fileName e)) eqn:Hk; [|congruence].
    rewrite filter_cons_True, fmap_cons in Hnd by done.
    apply NoDup_cons in Hnd as [Hnotin _]. apply Hnotin.
    rewrite <-Heq. apply list_elem_of_fmap. exists e'. split; [done|].
    by apply list_elem_of_filter. }
  destruct (keeps (fileName e)) eqn:Hk.
  - rewrite filter_cons_True in * by done.
    rewrite fmap_cons in Hnd. apply NoDup_cons in Hnd as [_ Hnd].
    destruct (Hall e) as [Hfresh [data Hio]]; [apply elem_of_cons; by left|done|].
    rewrite IH by done.
    erewrite on_entry_piped by done. simpl.
    unfold fulfilled at 1. rewrite omap_app, length_app. simpl. 
    unfold fulfilled. lia.
  - rewrite filter_cons_False in * by congruence.
    rewrite IH by done.
    destruct (decide (fileName e ∈ processedEntries st)).
    + by rewrite on_entry_seen.
    + by rewrite on_entry_rejected.
Qed.

(** Entries that the filter rejects never add a promise or a file. *)
Lemma run_none_kept l st :
  (∀ e, e ∈ l -> keeps (fileName e) = false) ->
  writePromises (run st l) = writePromises st ∧ disk (run st l) = disk st.
Proof.
  revert st. induction l as [|e l IH]; intros st Hall; simpl; [done|].
  destruct (IH (on_entry extractTo st e)) as [-> ->].
  { intros e' He'. apply Hall, elem_of_cons. by right. }
  destruct (decide (fileName e ∈ processedEntries st)).
  - by rewrite on_entry_seen.
  - rewrite on_entry_rejected; [done..|]. apply Hall, elem_of_cons. by left.
Qed.

End read_entries_facts.

(** ** The upload handler, phase by phase *)

Section post_facts.
Import Js Path.

Context (yauzl_open : string -> string + ZipFile) (cwd : string).

Lemma bind_inr {A B} (m : IO A) (k : A -> IO B) fs x fs' :
  m fs = (inr x, fs') -> (m ≫= k) fs = k x fs'.
Proof. intros Hm. unfold mbind, IO_bind. by rewrite Hm. Qed.

Lemma bind_inl {A B} (m : IO A) (k : A -> IO B) fs err fs' :
  m fs = (inl err, fs') -> (m ≫= k) fs = (inl err, fs').
Proof. intros Hm. unfold mbind, IO_bind. by rewrite Hm. Qed.

Lemma POST_try_unfold now_zip now_dir file :
  endsWith (name file) ".zip" = true ->
  POST_try yauzl_open cwd now_zip now_dir (Some file)
  = (_ ← Fs.writeFile (staging_path cwd now_zip) (bytes file);
     _ ← Fs.mkdir_recursive (session_dir cwd now_dir);
     extractedFiles ←
       extractZip yauzl_open (staging_path cwd now_zip) (session_dir cwd now_dir);
     respond cwd (staging_path cwd now_zip) (session_dir cwd now_dir) extractedFiles).
Proof. intros Hzip. unfold POST_try. by rewrite Hzip. Qed.

Lemma final_urls_length fs extractedFiles :
  List.length (final_urls cwd fs extractedFiles) <= List.length extractedFiles.
Proof.
  unfold final_urls.
  etrans; [apply array_from_set_length|].
  etrans; [apply array_from_set_length|].
  rewrite length_fmap.
  etrans; [apply length_filter|].
  etrans; [apply array_from_set_length|].
  by rewrite sort_Permutation.
Qed.

Lemma respond_empty tempZipPath extractDir fs :
  respond cwd tempZipPath extractDir [] fs
  = (inr (ErrorJson 400 "No images found in ZIP file"),
     (Fs.remove tempZipPath (Fs.remove extractDir fs).2).2).
Proof. reflexivity. Qed.

Lemma respond_too_many tempZipPath extractDir extractedFiles fs :
  100 < List.length extractedFiles ->
  respond cwd tempZipPath extractDir extractedFiles fs
  = (inr (ErrorJson 400 "ZIP file contains more than 100 images"),
     (Fs.remove tempZipPath (Fs.remove extractDir fs).2).2).
Proof.
  intros Hlen. unfold respond.
  rewrite bool_decide_false by lia. by rewrite bool_decide_true.
Qed.

Lemma respond_ok tempZipPath extractDir extractedFiles fs :
  0 < List.length extractedFiles <= 100 ->
  respond cwd tempZipPath extractDir extractedFiles fs
  = (inr (UploadJson (final_urls cwd fs extractedFiles) extractDir),
     (Fs.remove tempZipPath fs).2).
Proof.
  intros Hlen. unfold respond.
  rewrite !bool_decide_false by lia.
  unfold mbind, IO_bind, get_fs. simpl.
  rewrite bool_decide_false; [done|].
  pose proof (final_urls_length fs extractedFiles). lia.
Qed.

Lemma respond_cases tempZipPath extractDir extractedFiles fs :
  (extractedFiles = [] ∧
   respond cwd tempZipPath extractDir extractedFiles fs
   = (inr (ErrorJson 400 "No images found in ZIP file"),
      (Fs.remove tempZipPath (Fs.remove extractDir fs).2).2))
  ∨ (100 < List.length extractedFiles ∧
     respond cwd tempZipPath extractDir extractedFiles fs
     = (inr (ErrorJson 400 "ZIP file contains more than 100 images"),
        (Fs.remove tempZipPath (Fs.remove extractDir fs).2).2))
  ∨ (0 < List.length extractedFiles <= 100 ∧
     respond cwd tempZipPath extractDir extractedFiles fs
     = (inr (UploadJson (final_urls cwd fs extractedFiles) extractDir),
        (Fs.remove tempZipPath fs).2)).
Proof.
  destruct extractedFiles as [|p l] eqn:Hfiles.
  { left. split; [done|]. apply respond_empty. }
  rewrite <-Hfiles. assert (0 < List.length extractedFiles) by (subst; simpl; lia).
  destruct (decide (100 < List.length extractedFiles)).
  - right; left. split; [done|]. by apply respond_too_many.
  - right; right. split; [lia|]. apply respond_ok. lia.
Qed.

End post_facts.

(** ** Ingestion under a normalised working directory *)

Create HintDb plain.

Section ingest_facts.
Import Js Path.

Context (yauzl_open : string -> string + ZipFile).
Context (cwd : string) (segs : list string).
Context (Hsegs : Forall Plain segs) (Hcwd : cwd = abs_path segs).

Lemma Plain_uploads : Plain "uploads".
Proof. by repeat split. Qed.

Lemma Plain_temp : Plain "temp".
Proof. by repeat split. Qed.

Lemma Plain_upload_name t : Plain (upload_name t).
Proof.
  change (upload_name t) with ("upload" +:+ "_" +:+ pretty t +:+ ".zip").
  apply underscore_Plain; [done|]. apply NoSlash_app. split; [|done].
  apply digits_NoSlash, pretty_N_digits.
Qed.

Lemma Plain_extract_name t : Plain (extract_name t).
Proof.
  change (extract_name t) with ("extract" +:+ "_" +:+ pretty t).
  apply underscore_Plain; [done|]. apply digits_NoSlash, pretty_N_digits.
Qed.

Local Hint Resolve Plain_uploads Plain_temp Plain_upload_name
  Plain_extract_name : plain.

Ltac plain_list :=
  repeat first
    [ apply Forall_nil_2
    | apply Forall_app_2
    | apply Forall_cons_2; [solve [eauto with plain]|] ];
  eauto with plain.

Lemma UPLOAD_DIR_abs : UPLOAD_DIR cwd = abs_path (segs ++ ["uploads"]).
Proof.
  unfold UPLOAD_DIR. rewrite Hcwd.
  apply join_abs_Plain; [done|apply Plain_uploads].
Qed.

Lemma TEMP_DIR_abs : TEMP_DIR cwd = abs_path (segs ++ ["temp"]).
Proof.
  unfold TEMP_DIR. rewrite Hcwd. apply join_abs_Plain; [done|apply Plain_temp].
Qed.

Lemma Plain_upload_segs : Forall Plain (segs ++ ["uploads"]).
Proof. plain_list. Qed.

Lemma staging_path_abs t :
  staging_path cwd t = abs_path (segs ++ ["temp"; upload_name t]).
Proof.
  unfold staging_path. rewrite TEMP_DIR_abs.
  fold (upload_name t). rewrite join_abs_Plain.
  - by rewrite <-app_assoc.
  - plain_list.
  - apply Plain_upload_name.
Qed.

Lemma Plain_session_segs t :
  Forall Plain (segs ++ ["uploads"; extract_name t]).
Proof.
  plain_list.
Qed.

Lemma session_dir_abs t :
  session_dir cwd t = abs_path (segs ++ ["uploads"; extract_name t]).
Proof.
  unfold session_dir. rewrite UPLOAD_DIR_abs.
  fold (extract_name t). rewrite join_abs_Plain.
  - by rewrite <-app_assoc.
  - apply Plain_upload_segs.
  - apply Plain_extract_name.
Qed.

Lemma staging_ne_session t1 t2 : staging_path cwd t1 ≠ session_dir cwd t2.
Proof.
  rewrite staging_path_abs, session_dir_abs. intros Heq%abs_path_inj.
  - by apply app_inv_head in Heq.
  - plain_list.
  - apply Plain_session_segs.
Qed.

Lemma staged_lookup_staging fs file t1 t2 :
  staged cwd fs file t1 t2 !! staging_path cwd t1 = Some (File (bytes file)).
Proof.
  unfold staged. pose proof (staging_ne_session t1 t2).
  rewrite lookup_insert_ne by done.
  destruct (fs !! session_dir cwd t2).
  - by rewrite lookup_insert_eq.
  - rewrite lookup_insert_ne by done. by rewrite lookup_insert_eq.
Qed.

Lemma staged_lookup_session fs file t1 t2 :
  (∀ data, fs !! session_dir cwd t2 ≠ Some (File data)) ->
  staged cwd fs file t1 t2 !! session_dir cwd t2 = Some Directory.
Proof.
  intros Hdir. unfold staged. pose proof (staging_ne_session t1 t2).
  rewrite lookup_insert_ne by done.
  destruct (fs !! session_dir cwd t2) as [[data|]|] eqn:Hs.
  - by destruct (Hdir data).
  - by rewrite lookup_insert_ne.
  - by rewrite lookup_insert_eq.
Qed.

Lemma POST_reaches_extraction fs file t1 t2 :
  endsWith (name file) ".zip" = true ->
  fs !! staging_path cwd t1 ≠ Some Directory ->
  (∀ data, fs !! session_dir cwd t2 ≠ Some (File data)) ->
  POST yauzl_open cwd t1 t2 (Some file) fs
  = catch_500 (fun message => message)
      (extractedFiles ←
         extractZip yauzl_open (staging_path cwd t1) (session_dir cwd t2);
       respond cwd (staging_path cwd t1) (session_dir cwd t2) extractedFiles)
      (staged cwd fs file t1 t2).
Proof.
  intros Hzip Hstage Hdir. unfold POST. rewrite POST_try_unfold by done.
  unfold catch_500. unfold mbind at 1, IO_bind. unfold Fs.writeFile.
  assert (match fs !! staging_path cwd t1 with
          | Some Directory =>
              (inl ("EISDIR: illegal operation on a directory, open "
                    +:+ staging_path cwd t1), fs)
          | _ => (inr (), <[staging_path cwd t1 := File (bytes file)]> fs)
          end
          = (inr (), <[staging_path cwd t1 := File (bytes file)]> fs)) as ->.
  { by destruct (fs !! staging_path cwd t1) as [[|]|]. }
  unfold mbind at 1, IO_bind. unfold Fs.mkdir_recursive, staged.
  pose proof (staging_ne_session t1 t2).
  rewrite lookup_insert_ne by done.
  destruct (fs !! session_dir cwd t2) as [[data|]|] eqn:Hs; [|done..].
  by destruct (Hdir data).
Qed.

Lemma extractZip_ok zipPath extractTo fs content zipfile :
  fs !! zipPath = Some (File content) ->
  yauzl_open content = inr zipfile -> endError zipfile = None ->
  extractZip yauzl_open zipPath extractTo fs
  = (inr (array_from_set
            (fulfilled
               (writePromises (read_entries extractTo fs (entries zipfile))))),
     disk (read_entries extractTo fs (entries zipfile))).
Proof. intros Hfs Hopen Hend. unfold extractZip. by rewrite Hfs, Hopen, Hend. Qed.

Lemma extractZip_open_error zipPath extractTo fs content err :
  fs !! zipPath = Some (File content) -> yauzl_open content = inl err ->
  extractZip yauzl_open zipPath extractTo fs = (inl err, fs).
Proof. intros Hfs Hopen. unfold extractZip. by rewrite Hfs, Hopen. Qed.

(** Locations in the extraction directory and their addresses. *)

Lemma session_file_abs t seg :
  Plain seg ->
  join [session_dir cwd t; seg]
  = abs_path (segs ++ ["uploads"; extract_name t; seg]).
Proof.
  intros Hseg. rewrite session_dir_abs, join_abs_Plain.
  - by rewrite <-app_assoc.
  - apply Plain_session_segs.
  - done.
Qed.

Lemma Plain_file_segs t seg :
  Plain seg -> Forall Plain (segs ++ ["uploads"; extract_name t; seg]).
Proof.
  intros Hseg. plain_list.
Qed.

Lemma relative_session_file t seg :
  Plain seg ->
  relative cwd (UPLOAD_DIR cwd) (join [session_dir cwd t; seg])
  = extract_name t +:+ "/" +:+ seg.
Proof.
  intros Hseg. rewrite UPLOAD_DIR_abs, session_file_abs by done.
  replace (segs ++ ["uploads"; extract_name t; seg])
    with ((segs ++ ["uploads"]) ++ [extract_name t; seg])
    by (by rewrite <-app_assoc).
  rewrite relative_abs_path; [done|apply Plain_upload_segs| |done].
  plain_list.
Qed.

Lemma extract_name_NoBackslash t : NoBackslash (extract_name t).
Proof.
  apply (NoBackslash_app "extract_"). split; [done|].
  apply digits_NoBackslash, pretty_N_digits.
Qed.

Lemma image_url_session_file t seg :
  Plain seg ->
  image_url cwd (join [session_dir cwd t; seg])
  = "/api/images/" +:+ extract_name t +:+ "/" +:+ replace_backslashes seg.
Proof.
  intros Hseg. unfold image_url. rewrite relative_session_file by done.
  rewrite replace_backslashes_app.
  rewrite (replace_backslashes_id (extract_name t))
    by apply extract_name_NoBackslash.
  change (replace_backslashes ("/" +:+ seg))
    with ("/" +:+ replace_backslashes seg).
  assert (startsWith (extract_name t +:+ "/" +:+ replace_backslashes seg) "/"
          = false) as -> by done.
  done.
Qed.

Lemma image_url_session_inj t seg1 seg2 :
  Plain seg1 -> Plain seg2 ->
  image_url cwd (join [session_dir cwd t; seg1])
  = image_url cwd (join [session_dir cwd t; seg2]) ->
  seg1 = seg2.
Proof.
  intros H1 H2. rewrite !image_url_session_file by done.
  intros Heq. apply string_app_inv_head in Heq.
  apply string_app_inv_head in Heq.
  apply (string_app_inv_head "/") in Heq.
  destruct H1 as (_&_&_&?), H2 as (_&_&_&?).
  by apply replace_backslashes_inj.
Qed.

Lemma session_file_not_staged t1 t2 seg :
  Plain seg ->
  join [session_dir cwd t2; seg] ≠ staging_path cwd t1
  ∧ Fs.is_under (staging_path cwd t1) (join [session_dir cwd t2; seg]) = false.
Proof.
  intros Hseg. rewrite session_file_abs, staging_path_abs by done. split.
  - intros Heq%abs_path_inj; [|plain_list..].
    by apply app_inv_head in Heq.
  - unfold Fs.is_under. rewrite !abs_path_app by done.
    rewrite string_app_assoc, startsWith_app_both. done.
Qed.

Lemma split_relative t seg :
  Plain seg ->
  split_slash (extract_name t +:+ "/" +:+ seg) = [extract_name t; seg].
Proof.
  intros (_&_&_&Hseg). rewrite split_slash_app.
  pose proof (Plain_extract_name t) as (_&_&_&Hex).
  by rewrite !split_slash_NoSlash.
Qed.

(** [GET] serves a file of the extraction directory when it is given the
    components of the file's location relative to the upload directory. *)
Lemma GET_serves t seg data fs :
  Plain seg ->
  fs !! join [session_dir cwd t; seg] = Some (File data) ->
  GET cwd (Some [extract_name t; seg]) fs
  = (ImageResponse data
       (content_type (toLowerCase (extname (join [session_dir cwd t; seg])))),
     fs).
Proof.
  intros Hseg Hfile. unfold GET, catch_500, GET_try.
  assert (join (UPLOAD_DIR cwd :: [extract_name t; seg])
          = join [session_dir cwd t; seg]) as ->.
  { rewrite UPLOAD_DIR_abs, session_file_abs by done.
    rewrite join_abs_list by plain_list. by rewrite <-app_assoc. }
  rewrite UPLOAD_DIR_abs, session_file_abs by done.
  rewrite !resolve_abs_path by plain_list.
  assert (startsWith (abs_path (segs ++ ["uploads"; extract_name t; seg]))
            (abs_path (segs ++ ["uploads"])) = true) as ->.
  { apply startsWith_spec.
    replace (segs ++ ["uploads"; extract_name t; seg])
      with ((segs ++ ["uploads"]) ++ [extract_name t; seg])
      by (by rewrite <-app_assoc).
    unfold abs_path. rewrite join_slash_app by (done || by destruct segs).
    rewrite <-string_app_assoc. eauto. }
  rewrite <-session_file_abs by done.
  unfold mbind, IO_bind, get_fs.
  change (negb true) with false. cbv beta iota.
  assert (Fs.existsSync fs (join [session_dir cwd t; seg]) = true) as ->
    by (apply existsSync_true; rewrite Hfile; eauto).
  change (negb true) with false. cbv beta iota.
  unfold Fs.readFile. by rewrite Hfile.
Qed.

Lemma session_file_prefixed t seg :
  Plain seg ->
  join [session_dir cwd t; seg]
  = join_prefix (UPLOAD_DIR cwd)
    +:+ relative cwd (UPLOAD_DIR cwd) (join [session_dir cwd t; seg]).
Proof.
  intros Hseg. rewrite relative_session_file by done.
  rewrite session_file_abs, UPLOAD_DIR_abs by done.
  replace (segs ++ ["uploads"; extract_name t; seg])
    with ((segs ++ ["uploads"]) ++ [extract_name t; seg])
    by (by rewrite <-app_assoc).
  by rewrite abs_path_app by plain_list.
Qed.

(** Locations of one session directory are ordered as their locations
    relative to the upload directory are. *)
Lemma relative_sorted t locations :
  (∀ p, p ∈ locations ->
     ∃ seg, Plain seg ∧ p = join [session_dir cwd t; seg]) ->
  StronglySorted String.le locations ->
  StronglySorted String.le (relative cwd (UPLOAD_DIR cwd) <$> locations).
Proof.
  intros Hshape Hsorted.
  induction Hsorted as [|x l Hl IH Hx]; [constructor|].
  rewrite fmap_cons. constructor.
  { apply IH. intros p Hp. apply Hshape, elem_of_cons. by right. }
  apply Forall_fmap, Forall_forall. intros y Hy. simpl.
  eapply Forall_forall in Hx; [|exact Hy].
  destruct (Hshape x) as (sx & Hsx & ->); [apply elem_of_cons; by left|].
  destruct (Hshape y) as (sy & Hsy & ->); [apply elem_of_cons; by right|].
  rewrite (session_file_prefixed t sx), (session_file_prefixed t sy) in Hx
    by done.
  by apply string_le_app in Hx.
Qed.

(** The extraction into a session directory, and what [POST] answers. *)

Context (fs0 : gmap string node) (t1 t2 : N) (l : list Entry).

Local Abbreviation st := (read_entries (session_dir cwd t2) fs0 l).
Local Abbreviation files := (fulfilled (writePromises st)).

Lemma session_files_NoDup : NoDup files.
Proof.
  unfold read_entries.
  destruct (run_spec (session_dir cwd t2) l
              {| disk := fs0; processedEntries := ∅; writePromises := [] |})
    as (new & -> & _ & Hnd & _). done.
Qed.

Lemma session_files_Extracted p :
  p ∈ files -> Extracted (session_dir cwd t2) l (disk st) p.
Proof.
  unfold read_entries.
  destruct (run_spec (session_dir cwd t2) l
              {| disk := fs0; processedEntries := ∅; writePromises := [] |})
    as (new & -> & _ & _ & Hnew). intros Hp. by apply Hnew.
Qed.

Lemma session_files_count :
  NoDup (fileName <$> filter (fun e => keeps (fileName e) = true) l) ->
  (∀ e, e ∈ l -> keeps (fileName e) = true -> ∃ data, io e = Piped data) ->
  List.length files
  = List.length (filter (fun e => keeps (fileName e) = true) l).
Proof.
  intros Hnd Hio. unfold read_entries.
  rewrite run_count; [done|done|].
  intros e He Hk. split; [apply not_elem_of_empty|by apply Hio].
Qed.

Lemma final_urls_session :
  final_urls cwd (disk st) files = image_url cwd <$> sort files.
Proof.
  unfold final_urls.
  assert (NoDup (sort files)) as Hnd.
  { rewrite sort_Permutation. apply session_files_NoDup. }
  rewrite (array_from_set_id (sort files)) by done.
  assert (filter (fun filePath => Fs.existsSync (disk st) filePath = true)
            (sort files) = sort files) as ->.
  { apply list_filter_True_all. intros p Hp.
    rewrite sort_Permutation in Hp.
    destruct (session_files_Extracted p Hp) as (e & data & seg & _ & _ & _ & Hfile & _).
    apply existsSync_true. eauto. }
  assert (NoDup (image_url cwd <$> sort files)) as Hurls.
  { apply NoDup_fmap_2_strong; [|done]. intros p q Hp Hq Heq.
    rewrite sort_Permutation in Hp, Hq.
    destruct (session_files_Extracted p Hp)
      as (_ & _ & seg1 & _ & _ & _ & _ & Hs1 & -> & _).
    destruct (session_files_Extracted q Hq)
      as (_ & _ & seg2 & _ & _ & _ & _ & Hs2 & -> & _).
    by rewrite (image_url_session_inj t2 seg1 seg2). }
  rewrite (array_from_set_id (image_url cwd <$> sort files)) by done.
  by apply array_from_set_id.
Qed.

End ingest_facts.

Section ingest_outcomes.
Import Js Path.

Context (yauzl_open : string -> string + ZipFile).
Context (cwd : string) (segs : list string).
Context (Hsegs : Forall Plain segs) (Hcwd : cwd = abs_path segs).
Context (t1 t2 : N).

(** A successful upload went through every phase. *)
Lemma POST_upload_inv file fs urls dir fs' :
  POST yauzl_open cwd t1 t2 (Some file) fs = (UploadJson urls dir, fs') ->
  ∃ zipfile,
    yauzl_open (bytes file) = inr zipfile
    ∧ endError zipfile = None
    ∧ let done_ :=
        read_entries (session_dir cwd t2) (staged cwd fs file t1 t2)
          (entries zipfile) in
      urls = image_url cwd <$> sort (fulfilled (writePromises done_))
      ∧ dir = session_dir cwd t2
      ∧ fs' = (Fs.remove (staging_path cwd t1) (disk done_)).2.
Proof.
  intros Hpost.
  destruct (endsWith (name file) ".zip") eqn:Hzip.
  2: { unfold POST, catch_500, POST_try in Hpost. by rewrite Hzip in Hpost. }
  destruct (decide (fs !! staging_path cwd t1 = Some Directory)) as [Hd|Hstage].
  { unfold POST, catch_500 in Hpost. rewrite POST_try_unfold in Hpost by done.
    unfold mbind at 1, IO_bind, Fs.writeFile in Hpost.
    by rewrite Hd in Hpost. }
  destruct (fs !! session_dir cwd t2) as [[data|]|] eqn:Hsession.
  { unfold POST, catch_500 in Hpost. rewrite POST_try_unfold in Hpost by done.
    unfold mbind at 1, IO_bind, Fs.writeFile in Hpost.
    assert (match fs !! staging_path cwd t1 with
            | Some Directory =>
                (inl ("EISDIR: illegal operation on a directory, open "
                      +:+ staging_path cwd t1), fs)
            | _ => (inr (), <[staging_path cwd t1 := File (bytes file)]> fs)
            end
            = (inr (), <[staging_path cwd t1 := File (bytes file)]> fs)) as Hw.
    { by destruct (fs !! staging_path cwd t1) as [[|]|]. }
    rewrite Hw in Hpost.
    unfold mbind at 1, IO_bind, Fs.mkdir_recursive in Hpost.
    rewrite lookup_insert_ne in Hpost by (by eapply staging_ne_session).
    by rewrite Hsession in Hpost. }
  all: rewrite (POST_reaches_extraction yauzl_open cwd segs) in Hpost;
    [|done|done|done|done|by intros data; rewrite Hsession].
  all: unfold catch_500 in Hpost; unfold mbind, IO_bind in Hpost.
  all: unfold extractZip in Hpost;
    rewrite (staged_lookup_staging cwd segs) in Hpost by done.
  all: destruct (yauzl_open (bytes file)) as [err|zipfile] eqn:Hopen;
    [done|].
  all: destruct (endError zipfile) eqn:Hend; [done|].
  all: exists zipfile; split_and!; [done|done|].
  all: set (st := read_entries _ _ _) in *.
  all: rewrite (array_from_set_id (omap id (writePromises st))) in Hpost
    by apply session_files_NoDup.
  all: destruct (respond_cases cwd (staging_path cwd t1) (session_dir cwd t2)
                   (omap id (writePromises st)) (disk st))
         as [[_ Hr]|[[_ Hr]|[_ Hr]]]; rewrite Hr in Hpost; try done.
  all: injection Hpost as <- <- <-.
  all: split_and!; [|done|done].
  all: by apply (final_urls_session cwd segs).
Qed.

End ingest_outcomes.

(** ** More on the collision loop and on the names it produces *)

Section free_path_more.
Import Js Path.

Lemma free_path_more_fuel fuel1 fuel2 fs extractTo fileName finalPath counter :
  fuel1 <= fuel2 ->
  fs !! free_path fuel1 fs extractTo fileName finalPath counter = None ->
  free_path fuel2 fs extractTo fileName finalPath counter
  = free_path fuel1 fs extractTo fileName finalPath counter.
Proof.
  revert fuel2 finalPath counter.
  induction fuel1 as [|fuel1 IH]; intros fuel2 finalPath counter Hle Hfree;
    simpl in *.
  - destruct fuel2; [done|]. simpl.
    by rewrite (proj2 (existsSync_false _ _) Hfree).
  - destruct fuel2 as [|fuel2]; [lia|]. simpl.
    destruct (Fs.existsSync fs finalPath); [|done]. apply IH; [lia|done].
Qed.

Lemma basename_app_slash a seg :
  Plain seg -> basename (a +:+ "/" +:+ seg) = seg.
Proof.
  intros (?&?&?&?). unfold basename, segments.
  rewrite split_slash_app, filter_app, (split_slash_NoSlash seg) by done.
  rewrite filter_cons_True, filter_nil by done. by rewrite last_snoc.
Qed.

Lemma basename_join_Plain d seg : Plain seg -> basename (join [d; seg]) = seg.
Proof.
  intros Hseg. pose proof Hseg as (?&?&?&?).
  rewrite join_Plain by done. unfold join_prefix.
  case_bool_decide; [by apply basename_id|].
  destruct (isAbsolute d); case_bool_decide.
  - by apply (basename_app_slash EmptyString).
  - rewrite <-string_app_assoc, string_app_assoc.
    by apply basename_app_slash.
  - by apply basename_id.
  - rewrite string_app_nil_l, string_app_assoc. by apply basename_app_slash.
Qed.

Lemma last_dot_suffix_shape s r :
  last_dot_suffix s = Some r ->
  ∃ r', r = String "." r' ∧ last_dot_suffix r' = None.
Proof.
  induction s as [|c s IH]; simpl; [done|].
  destruct (last_dot_suffix s) as [r0|] eqn:Hs.
  - intros [= <-]. by apply IH.
  - case_bool_decide as Hc; [|done]. intros [= <-]. subst c. eauto.
Qed.

Lemma last_dot_suffix_app a r :
  last_dot_suffix r = None ->
  last_dot_suffix (a +:+ String "." r) = Some (String "." r).
Proof.
  intros Hr. induction a as [|c a IH].
  - rewrite string_app_nil_l. simpl. by rewrite Hr.
  - rewrite string_app_cons. simpl. by rewrite IH.
Qed.

(** A name put in front of an extension keeps the extension. *)
Lemma ext_of_component_append b n :
  ext_of_component b ≠ EmptyString -> n ≠ EmptyString ->
  n +:+ ext_of_component b ≠ ".." ->
  ext_of_component (n +:+ ext_of_component b) = ext_of_component b.
Proof.
  destruct b as [|c b]; simpl; [done|].
  case_bool_decide; [done|].
  destruct (last_dot_suffix b) as [r|] eqn:Hr; [|done]. simpl.
  intros _ Hn Hdd. apply last_dot_suffix_shape in Hr as (r' & -> & Hr').
  destruct n as [|c' n]; [done|]. rewrite string_app_cons in *.
  unfold ext_of_component. rewrite bool_decide_false by done.
  by rewrite last_dot_suffix_app.
Qed.

(** The file written for a kept entry has the entry's extension, also when
    the loop has renamed it. *)
Lemma final_path_extname extractTo fs name :
  keeps name = true ->
  extname (final_path extractTo fs name) = extname name.
Proof.
  intros Hk. pose proof (keeps_Plain name Hk) as Hb.
  pose proof Hk as (_ & Himg%isImageFile_extname & _)%keeps_true.
  assert (extname (basename name) = extname name) as Hext.
  { unfold extname. by rewrite basename_id by apply basename_NoSlash. }
  unfold final_path.
  destruct (free_path_least fs extractTo (basename name)
              (join [extractTo; basename name]) 1)
    as [[_ ->]|(_ & k & _ & -> & _)].
  - unfold extname at 1. by rewrite basename_join_Plain.
  - unfold suffixed, extname at 1.
    rewrite basename_join_Plain by apply suffixed_segment_Plain.
    pose proof (suffixed_segment_Plain (basename name) k) as (_&_&Hdd&_).
    rewrite Hext in *.
    rewrite <-!string_app_assoc in *.
    unfold extname in *. apply ext_of_component_append; [done| |done].
    intros [[_ ?]%string_app_eq_nil _]%string_app_eq_nil. done.
Qed.

Lemma final_path_isImageFile extractTo fs name :
  keeps name = true -> isImageFile (final_path extractTo fs name) = true.
Proof.
  intros Hk. unfold isImageFile. rewrite final_path_extname by done.
  by apply keeps_true in Hk as (_ & ? & _).
Qed.

End free_path_more.

(** ** More on the run of the entry handler *)

Section extraction_facts.
Import Js Path.

Context (extractTo : string).

Local Abbreviation run := (foldl (on_entry extractTo)).

(** The four ways the handler can treat an entry. *)
Lemma on_entry_cases st e :
  (fileName e ∈ processedEntries st ∧ on_entry extractTo st e = st)
  ∨ ((fileName e ∉ processedEntries st) ∧ keeps (fileName e) = false
     ∧ on_entry extractTo st e = mark_processed st e)
  ∨ ((fileName e ∉ processedEntries st) ∧ keeps (fileName e) = true
     ∧ (∀ data, io e ≠ Piped data)
     ∧ on_entry extractTo st e
       = push_promise (mark_processed st e) (disk st) None)
  ∨ ((fileName e ∉ processedEntries st) ∧ keeps (fileName e) = true
     ∧ ∃ data, io e = Piped data
       ∧ on_entry extractTo st e
         = push_promise (mark_processed st e)
             (<[final_path extractTo (disk st) (fileName e) := File data]>
                (disk st))
             (Some (final_path extractTo (disk st) (fileName e)))).
Proof.
  destruct (decide (fileName e ∈ processedEntries st)) as [Hin|Hin].
  { left. split; [done|]. by apply on_entry_seen. }
  right. destruct (keeps (fileName e)) eqn:Hk.
  2: { left. split_and!; [done..|]. by apply on_entry_rejected. }
  right. destruct (io e) as [|data] eqn:Hio.
  - left. split_and!; [done|done|by intros|].
    apply on_entry_failed; [done..|]. by rewrite Hio.
  - right. split_and!; [done..|]. exists data. split; [done|].
    by apply on_entry_piped.
Qed.

(** What a run adds: at most one promise per entry that passes the filter;
    locations that are not among the fulfilled promises keep what they
    had; every fulfilled promise carries the extension of its entry. *)
Lemma run_frame l st :
  ∃ new,
    writePromises (run st l) = writePromises st ++ new
    ∧ List.length new <= List.length (qualifying l)
    ∧ (∀ q, q ∉ fulfilled new -> disk (run st l) !! q = disk st !! q)
    ∧ (∀ p, p ∈ fulfilled new ->
         ∃ e, e ∈ qualifying l ∧ extname p = extname (fileName e)).
Proof.
  revert st. induction l as [|e l IH]; intros st; simpl.
  { exists []. rewrite app_nil_r. split_and!; [done|done|done|].
    by intros p ?%elem_of_nil. }
  destruct (IH (on_entry extractTo st e)) as (new2 & Hw2 & Hlen2 & Hfr2 & Hext2).
  assert (∀ p, p ∈ fulfilled new2 ->
            ∃ e0, e0 ∈ qualifying (e :: l)
                  ∧ extname p = extname (fileName e0)) as Hext2'.
  { intros p Hp. destruct (Hext2 p Hp) as (e0 & [Hk0 He0]%list_elem_of_filter & Hx).
    exists e0. split; [|done]. apply list_elem_of_filter. split; [done|].
    apply elem_of_cons. by right. }
  assert (List.length (qualifying l) <= List.length (qualifying (e :: l)))
    as Hmono.
  { unfold qualifying. rewrite filter_cons. case_decide; simpl; lia. }
  destruct (on_entry_cases st e)
    as [[_ Hstep]|[(_ & _ & Hstep)|[(_ & Hk & _ & Hstep)
        |(_ & Hk & data & _ & Hstep)]]];
    rewrite Hstep in *; simpl in *.
  - exists new2. split_and!; [done|lia|done|done].
  - exists new2. split_and!; [done|lia|done|done].
  - exists (None :: new2). rewrite Hw2, <-app_assoc.
    split_and!; [done| |done|done].
    unfold qualifying. rewrite filter_cons_True by done. simpl.
    fold (qualifying l). lia.
  - exists (Some (final_path extractTo (disk st) (fileName e)) :: new2).
    rewrite Hw2, <-app_assoc. split_and!; [done| | |].
    + unfold qualifying. rewrite filter_cons_True by done. simpl.
      fold (qualifying l). lia.
    + intros q Hq. simpl in Hq. apply not_elem_of_cons in Hq as [Hne Hq].
      rewrite Hfr2 by done. by rewrite lookup_insert_ne.
    + intros p Hp. simpl in Hp. apply elem_of_cons in Hp as [->|Hp]; [|auto].
      exists e. split; [|by apply final_path_extname].
      apply list_elem_of_filter. split; [done|]. apply elem_of_cons. by left.
Qed.

(** Two runs over the same entry from states with the same disk that agree
    on whether the entry's name was seen add the same promises. *)
Lemma on_entry_agree st st' e :
  disk st = disk st' ->
  (fileName e ∈ processedEntries st <-> fileName e ∈ processedEntries st') ->
  ∃ new,
    writePromises (on_entry extractTo st e) = writePromises st ++ new
    ∧ writePromises (on_entry extractTo st' e) = writePromises st' ++ new
    ∧ disk (on_entry extractTo st e) = disk (on_entry extractTo st' e).
Proof.
  intros Hdisk Hseen.
  destruct (on_entry_cases st e)
    as [[Hin Hstep]|[(Hin & Hk & Hstep)|[(Hin & Hk & Hio & Hstep)
        |(Hin & Hk & data & Hio & Hstep)]]]; rewrite Hstep.
  - rewrite (on_entry_seen extractTo st' e) by (by apply Hseen).
    exists []. by rewrite !app_nil_r.
  - rewrite (on_entry_rejected extractTo st' e) by (done || by rewrite <-Hseen).
    exists []. simpl. by rewrite !app_nil_r.
  - rewrite (on_entry_failed extractTo st' e) by (done || by rewrite <-Hseen).
    exists [None]. simpl. by rewrite Hdisk.
  - rewrite (on_entry_piped extractTo st' e data)
      by (done || by rewrite <-Hseen).
    eexists [Some _]. simpl. by rewrite Hdisk.
Qed.

Lemma run_agree l st st' :
  disk st = disk st' ->
  (∀ e, e ∈ l ->
     fileName e ∈ processedEntries st <-> fileName e ∈ processedEntries st') ->
  ∃ new,
    writePromises (run st l) = writePromises st ++ new
    ∧ writePromises (run st' l) = writePromises st' ++ new
    ∧ disk (run st l) = disk (run st' l).
Proof.
  revert st st'. induction l as [|e l IH]; intros st st' Hdisk Hseen; simpl.
  { exists []. by rewrite !app_nil_r. }
  destruct (on_entry_agree st st' e) as (new1 & Hw1 & Hw1' & Hd1);
    [done|apply Hseen, elem_of_cons; by left|].
  destruct (IH (on_entry extractTo st e) (on_entry extractTo st' e))
    as (new2 & Hw2 & Hw2' & Hd2); [done| |].
  { intros e' He'. rewrite !on_entry_processed, !elem_of_union.
    assert (e' ∈ e :: l) as Hin by (apply elem_of_cons; by right).
    specialize (Hseen e' Hin). tauto. }
  exists (new1 ++ new2). rewrite Hw2, Hw2', Hw1, Hw1', <-!app_assoc. done.
Qed.

(** Entries that the filter rejects have no influence on a run. *)
Lemma run_filter l st st' :
  disk st = disk st' ->
  (∀ n, keeps n = true ->
     n ∈ processedEntries st <-> n ∈ processedEntries st') ->
  ∃ new,
    writePromises (run st l) = writePromises st ++ new
    ∧ writePromises (run st' (qualifying l)) = writePromises st' ++ new
    ∧ disk (run st l) = disk (run st' (qualifying l)).
Proof.
  revert st st'. induction l as [|e l IH]; intros st st' Hdisk Hseen; simpl.
  { exists []. by rewrite !app_nil_r. }
  destruct (keeps (fileName e)) eqn:Hk.
  - unfold qualifying. rewrite filter_cons_True by done. simpl.
    fold (qualifying l).
    destruct (on_entry_agree st st' e) as (new1 & Hw1 & Hw1' & Hd1);
      [done|by apply Hseen|].
    destruct (IH (on_entry extractTo st e) (on_entry extractTo st' e))
      as (new2 & Hw2 & Hw2' & Hd2); [done| |].
    { intros n Hn. rewrite !on_entry_processed, !elem_of_union.
      specialize (Hseen n Hn). tauto. }
    exists (new1 ++ new2). rewrite Hw2, Hw2', Hw1, Hw1', <-!app_assoc. done.
  - unfold qualifying. rewrite filter_cons_False by congruence.
    fold (qualifying l).
    assert (writePromises (on_entry extractTo st e) = writePromises st
            ∧ disk (on_entry extractTo st e) = disk st) as [Hw1 Hd1].
    { destruct (decide (fileName e ∈ processedEntries st)).
      - by rewrite on_entry_seen.
      - by rewrite on_entry_rejected. }
    destruct (IH (on_entry extractTo st e) st')
      as (new2 & Hw2 & Hw2' & Hd2); [congruence| |].
    { intros n Hn. rewrite on_entry_processed, elem_of_union, elem_of_singleton.
      specialize (Hseen n Hn). split; [|tauto].
      intros [->|?]; [congruence|tauto]. }
    exists new2. by rewrite Hw2, Hw1.
Qed.

End extraction_facts.

Section extractZip_facts.
Import Js Path.

Context (yauzl_open : string -> string + ZipFile).

(** The outcomes of [extractZip]. *)
Lemma extractZip_cases zipPath extractTo fs :
  (∃ err, extractZip yauzl_open zipPath extractTo fs = (inl err, fs)
          ∧ ((∀ content, fs !! zipPath ≠ Some (File content))
             ∨ ∃ content, fs !! zipPath = Some (File content)
                          ∧ yauzl_open content = inl err))
  ∨ ∃ content zipfile,
      fs !! zipPath = Some (File content)
      ∧ yauzl_open content = inr zipfile
      ∧ let st := read_entries extractTo fs (entries zipfile) in
        match endError zipfile with
        | Some err =>
            extractZip yauzl_open zipPath extractTo fs = (inl err, disk st)
        | None =>
            extractZip yauzl_open zipPath extractTo fs
            = (inr (fulfilled (writePromises st)), disk st)
        end.
Proof.
  unfold extractZip.
  destruct (fs !! zipPath) as [[content|]|] eqn:Hzip.
  2, 3: left; eexists; split; [done|]; left; by intros content.
  destruct (yauzl_open content) as [err|zipfile] eqn:Hopen.
  { left. exists err. split; [done|]. right. eauto. }
  right. exists content, zipfile. split_and!; [done..|]. simpl.
  destruct (endError zipfile); [done|].
  rewrite array_from_set_id; [done|].
  unfold read_entries.
  destruct (run_spec extractTo (entries zipfile)
              {| disk := fs; processedEntries := ∅; writePromises := [] |})
    as (new & -> & _ & Hnd & _). done.
Qed.

End extractZip_facts.

Section read_entries_more.
Import Js Path.

Lemma fulfilled_length promises :
  List.length (fulfilled promises) <= List.length promises.
Proof.
  induction promises as [|[p|] promises IH]; simpl; lia.
Qed.

(** What reading the entries of an archive changes: the fulfilled promises
    are pairwise distinct; a location among them was free and now holds the
    bytes of a kept entry; any other location is as it was. *)
Lemma read_entries_changes extractTo fs l :
  let st := read_entries extractTo fs l in
  fs ⊆ disk st
  ∧ NoDup (fulfilled (writePromises st))
  ∧ List.length (writePromises st) <= List.length (qualifying l)
  ∧ (∀ q, q ∈ fulfilled (writePromises st) ->
       fs !! q = None ∧ Extracted extractTo l (disk st) q
       ∧ ∃ e, e ∈ qualifying l ∧ extname q = extname (fileName e))
  ∧ (∀ q, q ∉ fulfilled (writePromises st) -> disk st !! q = fs !! q).
Proof.
  unfold read_entries.
  set (st0 := {| disk := fs; processedEntries := ∅; writePromises := [] |}).
  destruct (run_spec extractTo l st0) as (new & Hw & Hsub & Hnd & Hnew).
  destruct (run_frame extractTo l st0) as (new' & Hw' & Hlen & Hframe & Hext).
  simpl in *. rewrite Hw' in Hw. subst new'. rewrite Hw'.
  split_and!; [done|done|done| |done].
  intros q Hq. destruct (Hnew q Hq) as [? ?]. split_and!; auto.
Qed.

End read_entries_more.

(** ** More on the upload handler *)

Section upload_outcomes.
Import Js Path.

Context (yauzl_open : string -> string + ZipFile).
Context (cwd : string) (segs : list string).
Context (Hsegs : Forall Plain segs) (Hcwd : cwd = abs_path segs).
Context (t1 t2 : N).

Lemma session_dir_not_staged :
  session_dir cwd t2 ≠ staging_path cwd t1
  ∧ Fs.is_under (staging_path cwd t1) (session_dir cwd t2) = false.
Proof.
  split; [intros Heq; by eapply staging_ne_session|].
  rewrite (session_dir_abs cwd segs), (staging_path_abs cwd segs) by done.
  unfold Fs.is_under. rewrite !abs_path_app by done.
  rewrite string_app_assoc, startsWith_app_both. done.
Qed.

(** A successful upload went through every phase, and the extraction gave
    between 1 and 100 files. *)
Lemma POST_upload_phases file fs urls dir fs' :
  POST yauzl_open cwd t1 t2 (Some file) fs = (UploadJson urls dir, fs') ->
  endsWith (name file) ".zip" = true
  ∧ fs !! staging_path cwd t1 ≠ Some Directory
  ∧ (∀ data, fs !! session_dir cwd t2 ≠ Some (File data))
  ∧ ∃ zipfile,
      yauzl_open (bytes file) = inr zipfile
      ∧ endError zipfile = None
      ∧ let done_ :=
          read_entries (session_dir cwd t2) (staged cwd fs file t1 t2)
            (entries zipfile) in
        0 < List.length (fulfilled (writePromises done_)) <= 100
        ∧ urls = image_url cwd <$> sort (fulfilled (writePromises done_))
        ∧ dir = session_dir cwd t2
        ∧ fs' = (Fs.remove (staging_path cwd t1) (disk done_)).2.
Proof.
  intros Hpost.
  destruct (POST_upload_inv yauzl_open cwd segs Hsegs Hcwd t1 t2 file fs urls
              dir fs' Hpost) as (zipfile & Hopen & Hend & Hrest).
  destruct (endsWith (name file) ".zip") eqn:Hzip.
  2: { unfold POST, catch_500, POST_try in Hpost. by rewrite Hzip in Hpost. }
  destruct (decide (fs !! staging_path cwd t1 = Some Directory)) as [Hd|Hstage].
  { unfold POST, catch_500 in Hpost. rewrite POST_try_unfold in Hpost by done.
    unfold mbind at 1, IO_bind, Fs.writeFile in Hpost.
    by rewrite Hd in Hpost. }
  assert (∀ data, fs !! session_dir cwd t2 ≠ Some (File data)) as Hdir.
  { intros data Hsession.
    unfold POST, catch_500 in Hpost. rewrite POST_try_unfold in Hpost by done.
    unfold mbind at 1, IO_bind, Fs.writeFile in Hpost.
    assert (match fs !! staging_path cwd t1 with
            | Some Directory =>
                (inl ("EISDIR: illegal operation on a directory, open "
                      +:+ staging_path cwd t1), fs)
            | _ => (inr (), <[staging_path cwd t1 := File (bytes file)]> fs)
            end
            = (inr (), <[staging_path cwd t1 := File (bytes file)]> fs)) as Hw.
    { by destruct (fs !! staging_path cwd t1) as [[|]|]. }
    rewrite Hw in Hpost.
    unfold mbind at 1, IO_bind, Fs.mkdir_recursive in Hpost.
    rewrite lookup_insert_ne in Hpost by (by eapply staging_ne_session).
    by rewrite Hsession in Hpost. }
  split_and!; [done..|]. exists zipfile. split_and!; [done..|].
  cbv zeta in *. destruct Hrest as (Hurls & Hdir' & Hfs').
  split; [|done].
  rewrite (POST_reaches_extraction yauzl_open cwd segs) in Hpost by done.
  unfold catch_500 in Hpost. erewrite bind_inr in Hpost.
  2: { apply (extractZip_ok _ _ _ _ (bytes file) zipfile); [|done..].
       by eapply staged_lookup_staging. }
  rewrite array_from_set_id in Hpost by apply session_files_NoDup.
  destruct (respond_cases cwd (staging_path cwd t1) (session_dir cwd t2)
              (fulfilled
                 (writePromises
                    (read_entries (session_dir cwd t2)
                       (staged cwd fs file t1 t2) (entries zipfile))))
              (disk (read_entries (session_dir cwd t2)
                       (staged cwd fs file t1 t2) (entries zipfile))))
    as [[_ Hr]|[[_ Hr]|[Hlen _]]]; [by rewrite Hr in Hpost..|done].
Qed.

End upload_outcomes.

Section address_facts.
Import Js Path.

Context (cwd : string) (segs : list string).
Context (Hsegs : Forall Plain segs) (Hcwd : cwd = abs_path segs).

(** The fourth component of an address names the extraction directory. *)
Lemma address_session t seg :
  Plain seg ->
  split_slash (image_url cwd (join [session_dir cwd t; seg])) !! 3
  = Some (extract_name t).
Proof.
  intros Hseg. rewrite (image_url_session_file cwd segs) by done.
  change ("/api/images/" +:+ extract_name t +:+ "/" +:+ replace_backslashes seg)
    with ("" +:+ "/" +:+ "api" +:+ "/" +:+ "images" +:+ "/"
          +:+ extract_name t +:+ "/" +:+ replace_backslashes seg).
  rewrite !split_slash_app.
  pose proof (Plain_extract_name t) as (_&_&_&Hex).
  rewrite (split_slash_NoSlash (extract_name t)) by done. done.
Qed.

End address_facts.

(** ** Parent segments, and what the image route answers *)

Section parent_segments.
Import Js Path.

Lemma Plain_ne_nil l : Forall Plain l -> Forall (fun s => s ≠ EmptyString) l.
Proof. intros Hl. eapply Forall_impl; [done|]. by intros s (?&?). Qed.

Lemma filter_ne_nil_id (l : list string) :
  Forall (fun s => s ≠ EmptyString) l ->
  filter (fun s => s ≠ EmptyString) l = l.
Proof.
  intros Hl. apply list_filter_True_all. intros x Hx.
  by eapply Forall_forall in Hl.
Qed.

Lemma join_slash_last_Plain pre l t :
  Plain t -> endsWith (pre +:+ "/" +:+ join_slash (l ++ [t])) "/" = false.
Proof.
  intros (?&?&?&?). destruct l as [|u l].
  - simpl join_slash. rewrite <-string_app_assoc. by apply endsWith_app_slash.
  - rewrite join_slash_snoc, <-!string_app_assoc by done.
    by apply endsWith_app_slash.
Qed.

(** [path.join] of a directory, a parent segment and plain segments: the
    parent segment removes the last component of the directory. *)
Lemma join_abs_dotdot segs u l :
  Forall Plain segs -> Plain u -> Forall Plain l -> l ≠ [] ->
  join (abs_path (segs ++ [u]) :: ".." :: l) = abs_path (segs ++ l).
Proof.
  intros Hsegs Hu Hl Hne.
  assert (Forall Plain (segs ++ [u])) as Hsu.
  { apply Forall_app. split; [done|]. by apply Forall_cons. }
  assert (Forall Plain (segs ++ l)) as Hall by (by apply Forall_app).
  unfold join. rewrite filter_ne_nil_id.
  2: { apply Forall_cons. split; [done|]. apply Forall_cons. split; [done|].
       by apply Plain_ne_nil. }
  rewrite join_slash_cons by done. rewrite join_slash_cons by done.
  unfold normalize. rewrite bool_decide_false by done.
  rewrite isAbsolute_app by done. rewrite abs_path_absolute.
  assert (endsWith (abs_path (segs ++ [u]) +:+ "/" +:+ ".." +:+ "/"
                    +:+ join_slash l) "/" = false) as ->.
  { destruct l as [|t l _] using rev_ind; [done|].
    apply Forall_app in Hl as [_ [Ht _]%Forall_cons].
    rewrite <-(string_app_assoc (abs_path (segs ++ [u])) "/").
    rewrite <-(string_app_assoc _ "..").
    by apply join_slash_last_Plain. }
  unfold normalizeString.
  rewrite !split_slash_app, !normalize_segments_app.
  rewrite normalize_abs_path by done.
  rewrite reverse_app. simpl.
  destruct Hu as (Hu1 & Hu2 & Hu3 & Hu4).
  rewrite (bool_decide_false (u = "..")) by done.
  rewrite split_join by (done || by apply Plain_NoSlash).
  rewrite normalize_segments_Plain by done.
  rewrite <-reverse_app, reverse_involutive.
  rewrite bool_decide_false; [done|].
  apply join_slash_ne_nil; [done|]. intros [_ ?]%app_eq_nil. done.
Qed.

(** A relative path given in one piece is joined as its components are. *)
Lemma join_flatten a l :
  a ≠ EmptyString -> l ≠ [] -> Forall (fun s => s ≠ EmptyString) l ->
  join [a; join_slash l] = join (a :: l).
Proof.
  intros Ha Hne Hl. unfold join.
  assert (join_slash l ≠ EmptyString) as Hj.
  { destruct l as [|u l]; [done|]. apply Forall_cons in Hl as [Hu _].
    destruct l as [|v l]; [done|]. rewrite join_slash_cons by done.
    by intros [? _]%string_app_eq_nil. }
  rewrite (filter_ne_nil_id (a :: l)) by (by apply Forall_cons).
  rewrite (filter_ne_nil_id [a; _])
    by (by repeat (apply Forall_cons; split; [done|])).
  rewrite (join_slash_cons a l) by done.
  by rewrite (join_slash_cons a [join_slash l]).
Qed.

End parent_segments.

Section serve_facts.
Import Js Path.

Context (cwd : string) (segs : list string).
Context (Hsegs : Forall Plain segs) (Hcwd : cwd = abs_path segs).

Lemma startsWith_upload_dir l :
  l ≠ [] ->
  startsWith (abs_path (segs ++ l)) (abs_path (segs ++ ["uploads"]))
  = startsWith (join_slash l) "uploads".
Proof.
  intros Hl. rewrite !abs_path_app by done.
  by rewrite startsWith_app_both.
Qed.

(** What [GET] answers once the location is known to be a normalised
    absolute path [abs_path (segs ++ l)]. *)
Lemma GET_at pathSegments l fs :
  pathSegments ≠ [] -> Forall Plain l -> l ≠ [] ->
  join (UPLOAD_DIR cwd :: pathSegments) = abs_path (segs ++ l) ->
  GET cwd (Some pathSegments) fs
  = (if startsWith (join_slash l) "uploads" then
       match fs !! abs_path (segs ++ l) with
       | Some (File data) =>
           ImageResponse data
             (content_type (toLowerCase (extname (abs_path (segs ++ l)))))
       | Some Directory => ErrorJson 500 "Failed to serve image"
       | None => ErrorJson 404 "File not found"
       end
     else ErrorJson 403 "Invalid path", fs).
Proof.
  intros Hne Hl Hlne Hjoin. unfold GET, catch_500, GET_try.
  destruct pathSegments as [|s0 rest]; [done|]. rewrite Hjoin.
  rewrite (UPLOAD_DIR_abs cwd segs) by done.
  rewrite !resolve_abs_path
    by (apply Forall_app; split; [done|];
        first [done|by repeat constructor]).
  rewrite startsWith_upload_dir by done.
  destruct (startsWith (join_slash l) "uploads"); [|done].
  change (negb true) with false. cbv beta iota.
  unfold mbind, IO_bind, get_fs.
  destruct (fs !! abs_path (segs ++ l)) as [[data|]|] eqn:Hfile.
  - assert (Fs.existsSync fs (abs_path (segs ++ l)) = true) as ->
      by (apply existsSync_true; rewrite Hfile; eauto).
    change (negb true) with false. cbv beta iota.
    unfold Fs.readFile. by rewrite Hfile.
  - assert (Fs.existsSync fs (abs_path (segs ++ l)) = true) as ->
      by (apply existsSync_true; rewrite Hfile; eauto).
    change (negb true) with false. cbv beta iota.
    unfold Fs.readFile. by rewrite Hfile.
  - assert (Fs.existsSync fs (abs_path (segs ++ l)) = false) as ->
      by (by apply existsSync_false).
    done.
Qed.

End serve_facts.

(** ** The classify route *)

Section classify_facts.
Import Js Path.

Lemma remove_first_unfold s pattern :
  remove_first s pattern
  = if startsWith s pattern then slice_from (String.length pattern) s
    else match s with
         | EmptyString => EmptyString
         | String c s' => String c (remove_first s' pattern)
         end.
Proof. by destruct s. Qed.

Lemma remove_first_prefix pattern s :
  remove_first (pattern +:+ s) pattern = s.
Proof.
  rewrite remove_first_unfold, startsWith_app. apply slice_from_app.
Qed.

Lemma includes_unfold s sub :
  includes s sub
  = startsWith s sub
    || match s with
       | EmptyString => false
       | String _ s' => includes s' sub
       end.
Proof. by destruct s. Qed.

Lemma includes_spec s sub :
  includes s sub = true <-> ∃ a b, s = a +:+ sub +:+ b.
Proof.
  induction s as [|c s IH]; rewrite includes_unfold, orb_true_iff.
  - rewrite startsWith_spec. split.
    + intros [[t Ht]|?]; [|done]. by exists EmptyString, t.
    + intros (a & b & Heq). left. destruct a; [by exists b|done].
  - rewrite startsWith_spec, IH. split.
    + intros [[t Ht]|(a & b & ->)]; [by exists EmptyString, t|].
      by exists (String c a), b.
    + intros (a & b & Heq). destruct a as [|c' a].
      * left. by exists b.
      * right. rewrite string_app_cons in Heq. injection Heq as _ ->. eauto.
Qed.

Lemma includes_colored s :
  includes s "colored" = true -> includes s "color" = true.
Proof.
  rewrite !includes_spec. intros (a & b & ->). by exists a, ("ed" +:+ b).
Qed.

Lemma lower_char_idemp c : lower_char (lower_char c) = lower_char c.
Proof.
  destruct (decide (65 <= nat_of_ascii c <= 90)) as [Hc|Hc].
  - assert (lower_char c = ascii_of_nat (nat_of_ascii c + 32)) as ->
      by (unfold lower_char; by rewrite bool_decide_true).
    unfold lower_char. rewrite nat_ascii_embedding by lia.
    by rewrite bool_decide_false by lia.
  - assert (lower_char c = c) as Heq
      by (unfold lower_char; by rewrite bool_decide_false).
    by rewrite !Heq.
Qed.

Lemma toLowerCase_idemp s : toLowerCase (toLowerCase s) = toLowerCase s.
Proof.
  induction s as [|c s IH]; [done|].
  change (toLowerCase (String c s))
    with (String (lower_char c) (toLowerCase s)).
  change (toLowerCase (String (lower_char c) (toLowerCase s)))
    with (String (lower_char (lower_char c)) (toLowerCase (toLowerCase s))).
  by rewrite lower_char_idemp, IH.
Qed.

Lemma mime_type_content_type ext : mime_type ext = content_type ext.
Proof. reflexivity. Qed.

End classify_facts.

(** ** The page *)

Section page_facts.
Import Js Path.

Lemma initial_images_urls l :
  Page.url <$> imap Page.initial_image l = l.
Proof.
  rewrite fmap_imap. unfold compose. simpl.
  induction l as [|x l IH] using rev_ind; [done|].
  rewrite imap_app. simpl. by rewrite IH.
Qed.

End page_facts.

(** ** First occurrences of entry names *)

Section first_occurrences_facts.
Import Js Path.

Context (extractTo : string).

Lemma first_occurrences_from_names seen l e :
  e ∈ first_occurrences_from seen l -> e ∈ l ∧ fileName e ∉ seen.
Proof.
  revert seen. induction l as [|x l IH]; intros seen; simpl.
  { by intros ?%elem_of_nil. }
  case_decide as Hx.
  - intros [? ?]%IH. split; [apply elem_of_cons; by right|done].
  - intros [->|[? Hn]%IH]%elem_of_cons.
    + split; [apply elem_of_cons; by left|done].
    + split; [apply elem_of_cons; by right|].
      intros Hin. apply Hn, elem_of_union. by right.
Qed.

Lemma first_occurrences_from_NoDup seen l :
  NoDup (fileName <$> first_occurrences_from seen l).
Proof.
  revert seen. induction l as [|x l IH]; intros seen; simpl.
  { constructor. }
  case_decide as Hx; [apply IH|].
  rewrite fmap_cons. apply NoDup_cons. split; [|apply IH].
  intros (e & Heq & [_ Hn]%first_occurrences_from_names)%list_elem_of_fmap.
  apply Hn, elem_of_union. left. by apply elem_of_singleton.
Qed.

(** The handler skips every entry but the first of its name: a run over a
    list of entries is the run over their first occurrences. *)
Lemma run_first_occurrences l st :
  foldl (on_entry extractTo) st l
  = foldl (on_entry extractTo) st
      (first_occurrences_from (processedEntries st) l).
Proof.
  revert st. induction l as [|e l IH]; intros st; simpl; [done|].
  case_decide as He.
  - rewrite on_entry_seen by done. apply IH.
  - simpl. rewrite IH. by rewrite on_entry_processed.
Qed.

Lemma read_entries_first_occurrences fs l :
  read_entries extractTo fs l = read_entries extractTo fs (first_occurrences l).
Proof. unfold read_entries. by rewrite run_first_occurrences. Qed.

Lemma qualifying_entries_NoDup l : NoDup (fileName <$> qualifying_entries l).
Proof.
  unfold qualifying_entries, qualifying, first_occurrences.
  pose proof (first_occurrences_from_NoDup ∅ l) as Hnd.
  induction (first_occurrences_from ∅ l) as [|e l' IH]; [constructor|].
  rewrite fmap_cons in Hnd. apply NoDup_cons in Hnd as [Hn Hnd].
  rewrite filter_cons. case_decide; [|by apply IH].
  rewrite fmap_cons. apply NoDup_cons. split; [|by apply IH].
  intros (e' & Heq & [_ He']%list_elem_of_filter)%list_elem_of_fmap.
  apply Hn. rewrite Heq. apply list_elem_of_fmap. eauto.
Qed.

End first_occurrences_facts.

(** ** Escapes *)

Section escape_facts.
Import Js Path.

Lemma hex_digit_in n : hex_digit n ∈ hex_digits.
Proof.
  unfold hex_digit. destruct (hex_digits !! n) as [c|] eqn:Hc.
  - by apply list_elem_of_lookup_2 in Hc.
  - apply elem_of_cons. by left.
Qed.

Lemma percent_encode_well_escaped s : well_escaped (percent_encode s) = true.
Proof.
  induction s as [|c s IH]; [done|].
  simpl percent_encode. destruct (unreserved c) eqn:Hc.
  - rewrite string_app_cons, string_app_nil_l. simpl.
    rewrite bool_decide_false; [done|]. by intros ->.
  - rewrite !string_app_cons, string_app_nil_l. simpl.
    rewrite !bool_decide_true by apply hex_digit_in. done.
Qed.

End escape_facts.

(** ** The scenario, evaluated *)

Section scenario_facts.
Import Js Path.

Lemma with_second {A B} (p : A * B) (x : A) : p.1 = x -> p = (x, p.2).
Proof. destruct p. simpl. by intros ->. Qed.

Lemma scenario_extraction :
  let outcome :=
    extractZip (yauzl_reads scenario) "/tmp/up.zip" "/out" staged_archive in
  outcome = (inr ["/out/a.jpg"; "/out/a_1.jpg"; "/out/b.png"], outcome.2).
Proof. apply with_second. vm_compute. reflexivity. Qed.

Lemma scenario_upload :
  let outcome :=
    POST (yauzl_reads scenario) "/app" 5 7 (Some photos_upload)
      earlier_upload in
  outcome = (UploadJson scenario_urls "/app/uploads/extract_7", outcome.2).
Proof. apply with_second. vm_compute. reflexivity. Qed.

Lemma scenario_upload_later :
  let outcome :=
    POST (yauzl_reads scenario) "/app" 6 8 (Some photos_upload)
      earlier_upload in
  outcome = (UploadJson later_urls "/app/uploads/extract_8", outcome.2).
Proof. apply with_second. vm_compute. reflexivity. Qed.

End scenario_facts.

(** * The claims *)

Import Js Path.

(** ** Entry filter *)

Lemma isImageFile_spec entryName :
  isImageFile entryName = true <-> has_image_extension entryName.
Proof.
  unfold isImageFile, has_image_extension, IMAGE_EXTENSIONS.
  rewrite bool_decide_eq_true. split.
  - rewrite !elem_of_cons, elem_of_nil.
    intros [->|[->|[->|[->|[->|[->|[]]]]]]]; eexists;
      (split; [|reflexivity]); rewrite !elem_of_cons; tauto.
  - intros (x & Hx & ->). revert Hx. rewrite !elem_of_cons, !elem_of_nil.
    intros [->|[->|[->|[->|[->|[->|[]]]]]]]; simpl; tauto.
Qed.

(** C6: an entry not seen before gets a write promise exactly when its name
    does not end in a separator, its extension is, ignoring case, one of
    jpg, jpeg, png, gif, webp, bmp, and its last segment does not start with
    [._]; an entry whose leaf name starts with [._] never adds a promise or
    a file, whatever its extension. *)
Theorem entry_filter_decision extractTo st e :
  (fileName e ∉ processedEntries st ->
   (List.length (writePromises (on_entry extractTo st e))
      = S (List.length (writePromises st))
    <-> ¬ is_directory_entry (fileName e)
        ∧ has_image_extension (fileName e)
        ∧ ¬ is_resource_fork (fileName e)))
  ∧ (is_resource_fork (fileName e) ->
     writePromises (on_entry extractTo st e) = writePromises st
     ∧ disk (on_entry extractTo st e) = disk st).
Proof.
  assert (keeps (fileName e) = true
          <-> ¬ is_directory_entry (fileName e)
              ∧ has_image_extension (fileName e)
              ∧ ¬ is_resource_fork (fileName e)) as Hkeeps.
  { rewrite keeps_true, isImageFile_spec.
    unfold is_directory_entry, is_resource_fork.
    destruct (endsWith (fileName e) "/"),
      (startsWith (basename (fileName e)) "._"); intuition congruence. }
  split.
  - intros Hfresh. rewrite <-Hkeeps. destruct (keeps (fileName e)) eqn:Hk.
    + split; [done|intros _].
      destruct (io e) as [|data] eqn:Hio.
      * rewrite on_entry_failed by (done || by rewrite Hio).
        simpl. rewrite length_app. simpl. lia.
      * erewrite on_entry_piped by done.
        simpl. rewrite length_app. simpl. lia.
    + rewrite on_entry_rejected by done. simpl. split; [lia|done].
  - intros Hfork.
    destruct (decide (fileName e ∈ processedEntries st)) as [Hseen|Hfresh].
    { by rewrite on_entry_seen. }
    rewrite on_entry_rejected; [done..|].
    destruct (keeps (fileName e)) eqn:Hk; [|done].
    destruct Hkeeps as [Hk' _]. specialize (Hk' eq_refl). tauto.
Qed.

(** ** Archive extractor *)

(** C5: an entry whose name already occurred earlier in the same container
    is skipped: the handler leaves its state as it is (no promise, no file,
    no error), and the extraction ends as if the entry were not there. *)
Theorem duplicate_entry_name_skipped extractTo fs l1 e l2 :
  fileName e ∈ (fileName <$> l1) ->
  on_entry extractTo (read_entries extractTo fs l1) e
  = read_entries extractTo fs l1
  ∧ read_entries extractTo fs (l1 ++ e :: l2)
    = read_entries extractTo fs (l1 ++ l2).
Proof.
  intros Hin.
  assert (on_entry extractTo (read_entries extractTo fs l1) e
          = read_entries extractTo fs l1) as Hskip.
  { apply on_entry_seen. unfold read_entries. rewrite run_processed.
    apply elem_of_union. left. by apply elem_of_list_to_set. }
  split; [done|].
  unfold read_entries in *. rewrite !foldl_app. simpl. by rewrite Hskip.
Qed.

(** C8: the list that [extractZip] resolves with has no duplicate location,
    has the locations of the fulfilled writes as its elements, and lists
    them in the order of their first occurrence. *)
Theorem extractZip_unique_in_order yauzl_open zipPath extractTo fs files fs' :
  extractZip yauzl_open zipPath extractTo fs = (inr files, fs') ->
  NoDup files
  ∧ ∃ content zipfile,
      fs !! zipPath = Some (File content)
      ∧ yauzl_open content = inr zipfile
      ∧ let successful :=
          fulfilled
            (writePromises (read_entries extractTo fs (entries zipfile))) in
        (∀ p, p ∈ files <-> p ∈ successful)
        ∧ ∀ pre p post,
            successful = pre ++ p :: post -> p ∉ pre ->
            ∃ kept_pre kept_post,
              files = kept_pre ++ p :: kept_post
              ∧ ∀ q, q ∈ kept_pre <-> q ∈ pre.
Proof.
  unfold extractZip. intros Hrun.
  destruct (fs !! zipPath) as [[content|]|] eqn:Hzip; [|done..].
  destruct (yauzl_open content) as [err|zipfile] eqn:Hopen; [done|].
  destruct (endError zipfile); [done|]. injection Hrun as <- <-.
  split; [apply array_from_set_NoDup|].
  exists content, zipfile. split_and!; [done|done|..].
  - intros p. apply array_from_set_elem.
  - intros pre p post Heq Hp. unfold fulfilled in Heq. rewrite Heq.
    by apply array_from_set_first_occurrence.
Qed.

(** C4, as stated, fails: of two kept entries with the same leaf name, the
    one whose read stream cannot be opened is not extracted. *)
Lemma unread_twin_not_extracted :
  let e1 := {| fileName := "a.jpg"; io := Piped "A" |} in
  let e2 := {| fileName := "sub/a.jpg"; io := ReadStreamError |} in
  let final := read_entries "/out" ∅ [e1; e2] in
  keeps (fileName e1) = true ∧ keeps (fileName e2) = true
  ∧ basename (fileName e1) = basename (fileName e2)
  ∧ writePromises final = [Some "/out/a.jpg"; None]
  ∧ ¬ ∃ p1 p2, p1 ≠ p2 ∧ Some p1 ∈ writePromises final
               ∧ Some p2 ∈ writePromises final.
Proof.
  intros e1 e2 final.
  assert (writePromises final = [Some "/out/a.jpg"; None]) as Hw
    by (vm_compute; reflexivity).
  split_and!; [reflexivity|reflexivity|reflexivity|exact Hw|].
  rewrite Hw. intros (p1 & p2 & Hne & H1 & H2).
  rewrite !elem_of_cons, elem_of_nil in H1, H2.
  destruct H1 as [[= ->]|[?|[]]]; [|done].
  destruct H2 as [[= ->]|[?|[]]]; done.
Qed.

(** C4, amended: of two kept entries with distinct names and the same leaf
    name whose bytes are written, both get a file of their own with their
    own bytes, and the later one is written to [name_k.ext], [k >= 1] the
    least counter whose location was free when the entry was reached. *)
Theorem colliding_leaf_names_get_suffix
    extractTo fs l1 e1 l2 e2 l3 data1 data2 :
  keeps (fileName e1) = true -> keeps (fileName e2) = true ->
  io e1 = Piped data1 -> io e2 = Piped data2 ->
  fileName e1 ∉ (fileName <$> l1) ->
  fileName e2 ∉ (fileName <$> l1 ++ e1 :: l2) ->
  basename (fileName e1) = basename (fileName e2) ->
  let leaf := basename (fileName e2) in
  let ext := extname leaf in
  let name := basename_suffix leaf ext in
  let before := read_entries extractTo fs (l1 ++ e1 :: l2) in
  let final := read_entries extractTo fs (l1 ++ e1 :: l2 ++ e2 :: l3) in
  ∃ p1 p2 k,
    Some p1 ∈ writePromises final ∧ Some p2 ∈ writePromises final
    ∧ p1 ≠ p2
    ∧ disk final !! p1 = Some (File data1)
    ∧ disk final !! p2 = Some (File data2)
    ∧ leaf = name +:+ ext
    ∧ 1 <= k
    ∧ p2 = join [extractTo; name +:+ "_" +:+ pretty k +:+ ext]
    ∧ disk before !! p2 = None
    ∧ is_Some (disk before !! join [extractTo; leaf])
    ∧ ∀ j, 1 <= j < k ->
        is_Some (disk before
                 !! join [extractTo; name +:+ "_" +:+ pretty j +:+ ext]).
Proof.
  intros Hk1 Hk2 Hio1 Hio2 Hfresh1 Hfresh2 Hleaf leaf ext name before final.
  set (s1 := read_entries extractTo fs l1).
  set (p1 := final_path extractTo (disk s1) (fileName e1)).
  set (p2 := final_path extractTo (disk before) (fileName e2)).
  assert (on_entry extractTo s1 e1
          = push_promise (mark_processed s1 e1)
              (<[p1 := File data1]> (disk s1)) (Some p1)) as Hstep1.
  { apply on_entry_piped; [|done..]. unfold s1, read_entries.
    rewrite run_processed, elem_of_union, elem_of_list_to_set.
    intros [?|?%elem_of_empty]; done. }
  assert (before = foldl (on_entry extractTo) (on_entry extractTo s1 e1) l2)
    as Hbefore.
  { unfold before, s1, read_entries. by rewrite foldl_app. }
  assert (on_entry extractTo before e2
          = push_promise (mark_processed before e2)
              (<[p2 := File data2]> (disk before)) (Some p2)) as Hstep2.
  { apply on_entry_piped; [|done..]. unfold before, read_entries.
    rewrite run_processed, elem_of_union, elem_of_list_to_set.
    intros [?|?%elem_of_empty]; done. }
  assert (final = foldl (on_entry extractTo) (on_entry extractTo before e2) l3)
    as Hfinal.
  { unfold final, before, read_entries.
    replace (l1 ++ e1 :: l2 ++ e2 :: l3) with ((l1 ++ e1 :: l2) ++ e2 :: l3)
      by (by rewrite <-app_assoc).
    by rewrite (foldl_app _ (l1 ++ e1 :: l2)). }
  destruct (run_spec extractTo l2 (on_entry extractTo s1 e1))
    as (new2 & Hw2 & Hd2 & _).
  destruct (run_spec extractTo l3 (on_entry extractTo before e2))
    as (new3 & Hw3 & Hd3 & _).
  rewrite <-Hbefore in Hw2, Hd2. rewrite <-Hfinal in Hw3, Hd3.
  rewrite Hstep1 in Hw2, Hd2. rewrite Hstep2 in Hw3, Hd3.
  simpl in Hw2, Hd2, Hw3, Hd3.
  pose proof (final_path_fresh extractTo (disk before) (fileName e2)) as Hfree2.
  fold p2 in Hfree2.
  assert (disk before !! p1 = Some (File data1)) as Hp1.
  { eapply lookup_weaken; [|exact Hd2]. by rewrite lookup_insert_eq. }
  assert (is_Some (disk before !! join [extractTo; leaf])) as Hplain.
  { unfold leaf. rewrite <-Hleaf.
    destruct (free_path_least (disk s1) extractTo (basename (fileName e1))
                (join [extractTo; basename (fileName e1)]) 1)
      as [[_ Hr]|([x Hx] & _)].
    - fold (final_path extractTo (disk s1) (fileName e1)) in Hr. fold p1 in Hr.
      rewrite <-Hr. eauto.
    - exists x. eapply lookup_weaken; [|exact Hd2].
      rewrite lookup_insert_ne; [done|].
      intros Heq. pose proof (final_path_fresh extractTo (disk s1) (fileName e1)).
      fold p1 in H. congruence. }
  destruct (free_path_least (disk before) extractTo leaf
              (join [extractTo; leaf]) 1)
    as [[Hnone _]|(_ & k & Hk & Hr & _ & Hbelow)].
  { destruct Hplain as [x Hx]. congruence. }
  fold (final_path extractTo (disk before) (fileName e2)) in Hr. fold p2 in Hr.
  exists p1, p2, k. split_and!.
  - rewrite Hw3, Hw2. rewrite !elem_of_app, list_elem_of_singleton. tauto.
  - rewrite Hw3. rewrite !elem_of_app, list_elem_of_singleton. tauto.
  - intros Heq. congruence.
  - eapply lookup_weaken; [|exact Hd3].
    rewrite lookup_insert_ne by congruence. done.
  - eapply lookup_weaken; [|exact Hd3]. by rewrite lookup_insert_eq.
  - symmetry. unfold name, ext. apply basename_suffix_extname.
    + apply basename_NoSlash.
    + unfold leaf, extname. rewrite basename_id by apply basename_NoSlash.
      apply keeps_true in Hk2 as (_ & Himg & _).
      by apply isImageFile_extname.
  - done.
  - done.
  - done.
  - done.
  - intros j Hj. by apply Hbelow.
Qed.

(** ** Upload handler *)

(** C10: the steps between the two limit checks never lengthen the list, so
    the second check never fires: [POST] never answers with its
    ['Too many images'] error. *)
Theorem second_limit_unreachable yauzl_open cwd now_zip now_dir file fs :
  (∀ fs' extractedFiles,
     List.length (final_urls cwd fs' extractedFiles)
     <= List.length extractedFiles)
  ∧ (POST yauzl_open cwd now_zip now_dir file fs).1
    ≠ ErrorJson 400 "Too many images".
Proof.
  split; [intros; apply final_urls_length|].
  unfold POST, catch_500.
  destruct file as [file|]; [|done].
  destruct (endsWith (name file) ".zip") eqn:Hzip.
  2: { unfold POST_try. by rewrite Hzip. }
  rewrite POST_try_unfold by done.
  unfold mbind at 1, IO_bind.
  destruct (Fs.writeFile _ _ fs) as [[err|[]] fs1]; [done|].
  unfold mbind at 1, IO_bind.
  destruct (Fs.mkdir_recursive _ fs1) as [[err|[]] fs2]; [done|].
  unfold mbind at 1, IO_bind.
  destruct (extractZip _ _ _ fs2) as [[err|files] fs3]; [done|].
  destruct (respond_cases cwd (staging_path cwd now_zip)
              (session_dir cwd now_dir) files fs3)
    as [[_ ->]|[[_ ->]|[_ ->]]]; done.
Qed.

(** C9: for an upload whose archive is read to its end and has no entry
    passing the filter, [POST] answers 400 ['No images found in ZIP file'],
    and neither the extraction directory (nor anything under it) nor the
    staging file exists afterwards. *)
Theorem empty_container_cleans_up
    yauzl_open cwd now_zip now_dir file fs zipfile :
  normalized_absolute cwd ->
  endsWith (name file) ".zip" = true ->
  fs !! staging_path cwd now_zip ≠ Some Directory ->
  (∀ data, fs !! session_dir cwd now_dir ≠ Some (File data)) ->
  yauzl_open (bytes file) = inr zipfile -> endError zipfile = None ->
  qualifying (entries zipfile) = [] ->
  ∃ fs',
    POST yauzl_open cwd now_zip now_dir (Some file) fs
    = (ErrorJson 400 "No images found in ZIP file", fs')
    ∧ fs' !! session_dir cwd now_dir = None
    ∧ fs' !! staging_path cwd now_zip = None
    ∧ ∀ p, Fs.is_under (session_dir cwd now_dir) p = true -> fs' !! p = None.
Proof.
  intros (segs & Hsegs & Hcwd) Hzip Hstage Hdir Hopen Hend Hnone.
  rewrite (POST_reaches_extraction yauzl_open cwd segs) by done.
  unfold catch_500.
  erewrite bind_inr.
  2: { apply (extractZip_ok _ _ _ _ (bytes file) zipfile); [|done..].
       by eapply staged_lookup_staging. }
  assert (writePromises
            (read_entries (session_dir cwd now_dir)
               (staged cwd fs file now_zip now_dir) (entries zipfile)) = [])
    as ->.
  { unfold read_entries. apply run_none_kept. intros e He.
    destruct (keeps (fileName e)) eqn:Hk; [|done].
    assert (e ∈ qualifying (entries zipfile)) as Hin
      by (by apply list_elem_of_filter).
    rewrite Hnone in Hin. by apply elem_of_nil in Hin. }
  change (array_from_set (fulfilled [])) with (@nil string).
  rewrite respond_empty. eexists. split_and!; [done|..].
  - apply remove_lookup_None, remove_lookup_self.
  - apply remove_lookup_self.
  - intros p Hp. by apply remove_lookup_None, remove_lookup_under.
Qed.

(** C3: on an archive that cannot be opened, [POST] answers 500 with the
    error's message and deletes nothing: the staging file and the extraction
    directory it created are still there. *)
Theorem open_error_skips_cleanup :
  let outcome := POST yauzl_rejects "/app" 5 7 (Some corrupt_upload) ∅ in
  outcome.1
  = ErrorJson 500 "end of central directory record signature not found"
  ∧ outcome.2 !! "/app/temp/upload_5.zip" = Some (File "not a zip archive")
  ∧ outcome.2 !! "/app/uploads/extract_7" = Some Directory.
Proof. vm_compute. done. Qed.

(** C2, as stated, fails: an archive whose only qualifying entry cannot be
    read has [N = 1], and [POST] answers that it found no image; an archive
    that [yauzl] stops reading with an error has [N = 1] too, and [POST]
    answers 500. *)
Lemma unwritten_entry_yields_no_address :
  List.length (qualifying_entries (entries unreadable_image)) = 1
  ∧ (POST (yauzl_reads unreadable_image) "/app" 5 7 (Some photos_upload) ∅).1
    = ErrorJson 400 "No images found in ZIP file"
  ∧ ¬ returns_sorted_addresses (yauzl_reads unreadable_image) "/app" 5 7
        photos_upload ∅
        (List.length (qualifying_entries (entries unreadable_image)))
  ∧ List.length (qualifying_entries (entries cut_short)) = 1
  ∧ (POST (yauzl_reads cut_short) "/app" 5 7 (Some photos_upload) ∅).1
    = ErrorJson 500 "unexpected EOF"
  ∧ ¬ returns_sorted_addresses (yauzl_reads cut_short) "/app" 5 7
        photos_upload ∅ (List.length (qualifying_entries (entries cut_short))).
Proof.
  assert ((POST (yauzl_reads unreadable_image) "/app" 5 7 (Some photos_upload)
             ∅).1 = ErrorJson 400 "No images found in ZIP file") as Hrun
    by (vm_compute; reflexivity).
  assert ((POST (yauzl_reads cut_short) "/app" 5 7 (Some photos_upload) ∅).1
          = ErrorJson 500 "unexpected EOF") as Hcut
    by (vm_compute; reflexivity).
  split_and!; [reflexivity|exact Hrun| |reflexivity|exact Hcut|].
  - intros (locations & fs' & Hpost & _). rewrite Hpost in Hrun. done.
  - intros (locations & fs' & Hpost & _). rewrite Hpost in Hcut. done.
Qed.

(** C2, amended: when the container is read to its end and every
    qualifying entry (the first entry of a name that passes the filter) is
    written, and there are between 1 and 100 of them, [POST] succeeds with
    exactly that many distinct addresses, in the order of the files'
    locations relative to the upload directory. *)
Theorem qualifying_entries_all_addressed
    yauzl_open cwd now_zip now_dir file fs zipfile :
  normalized_absolute cwd ->
  endsWith (name file) ".zip" = true ->
  fs !! staging_path cwd now_zip ≠ Some Directory ->
  (∀ data, fs !! session_dir cwd now_dir ≠ Some (File data)) ->
  yauzl_open (bytes file) = inr zipfile -> endError zipfile = None ->
  (∀ e, e ∈ qualifying_entries (entries zipfile) -> ∃ data, io e = Piped data) ->
  1 <= List.length (qualifying_entries (entries zipfile)) <= 100 ->
  returns_sorted_addresses yauzl_open cwd now_zip now_dir file fs
    (List.length (qualifying_entries (entries zipfile))).
Proof.
  intros (segs & Hsegs & Hcwd) Hzip Hstage Hdir Hopen Hend Hio HN.
  set (fs0 := staged cwd fs file now_zip now_dir).
  set (st := read_entries (session_dir cwd now_dir) fs0 (entries zipfile)).
  set (files := fulfilled (writePromises st)).
  assert (List.length files
          = List.length (qualifying_entries (entries zipfile))) as Hcount.
  { unfold files, st. rewrite read_entries_first_occurrences.
    apply session_files_count; [apply qualifying_entries_NoDup|].
    intros e He Hk. apply Hio. by apply list_elem_of_filter. }
  exists (sort files), (Fs.remove (staging_path cwd now_zip) (disk st)).2.
  split_and!.
  - rewrite (POST_reaches_extraction yauzl_open cwd segs) by done.
    unfold catch_500. erewrite bind_inr.
    2: { apply (extractZip_ok _ _ _ _ (bytes file) zipfile); [|done..].
         by eapply staged_lookup_staging. }
    fold fs0 st files.
    rewrite (array_from_set_id files) by apply session_files_NoDup.
    rewrite respond_ok by lia.
    unfold files, st. by rewrite (final_urls_session cwd segs).
  - by rewrite sort_Permutation.
  - unfold files, st. rewrite <-(final_urls_session cwd segs) by done.
    apply array_from_set_NoDup.
  - apply (relative_sorted cwd segs Hsegs Hcwd now_dir);
      [|apply sort_StronglySorted].
    intros p Hp. rewrite sort_Permutation in Hp.
    destruct (session_files_Extracted cwd fs0 now_dir (entries zipfile) p Hp)
      as (_ & _ & seg & _ & _ & _ & _ & Hseg & -> & _).
    eauto.
Qed.

Lemma hex_digit_not_space n : not_space (hex_digit n) = true.
Proof.
  unfold hex_digit. destruct (hex_digits !! n) as [c|] eqn:Hc; [|done].
  apply list_elem_of_lookup_2 in Hc. unfold hex_digits in Hc.
  rewrite !elem_of_cons, elem_of_nil in Hc.
  repeat (destruct Hc as [->|Hc]; [done|]). done.
Qed.

Lemma percent_encode_no_space s :
  all_chars not_space (percent_encode s) = true.
Proof.
  induction s as [|c s IH]; simpl; [done|].
  rewrite all_chars_app, IH, andb_true_r.
  destruct (unreserved c) eqn:Hc; simpl.
  - rewrite andb_true_r. unfold not_space.
    apply negb_true_iff, bool_decide_eq_false. intros ->. done.
  - by rewrite !hex_digit_not_space.
Qed.

(** The address of a file whose name has a space is returned with the
    space in it, which no percent-encoding yields. *)
Example space_in_name_not_encoded :
  let url := "/api/images/extract_7/my photo.jpg" in
  (POST (yauzl_reads spaced_name) "/app" 5 7 (Some photos_upload) ∅).1
  = UploadJson [url] "/app/uploads/extract_7"
  ∧ ∀ location, ¬ percent_encoded_address "/app" location url.
Proof.
  split; [by vm_compute|].
  intros location Heq. unfold percent_encoded_address in Heq.
  apply (f_equal (all_chars not_space)) in Heq.
  rewrite all_chars_app, percent_encode_no_space in Heq. done.
Qed.

(** C7: an address is returned as the relative location is spelled, with
    nothing percent-encoded, so it is not the percent-encoding of any
    location when a name holds a [%] that no two hexadecimal digits follow;
    and [getImageBase64], which decodes the address it is given, then fails
    on an address that [POST] returned: with [URI malformed] for
    [50%off.jpg], and with a file that is not found for [a%41.jpg], whose
    escape decodes to [A]. *)
Theorem unencoded_address_breaks_decoding :
  let outcome :=
    POST (yauzl_reads percent_names) "/app" 5 7 (Some photos_upload) ∅ in
  let url := "/api/images/extract_7/50%off.jpg" in
  let url' := "/api/images/extract_7/a%41.jpg" in
  outcome.1 = UploadJson [url; url'] "/app/uploads/extract_7"
  ∧ outcome.2 !! "/app/uploads/extract_7/50%off.jpg" = Some (File "pixels")
  ∧ outcome.2 !! "/app/uploads/extract_7/a%41.jpg" = Some (File "more")
  ∧ (∀ location, ¬ percent_encoded_address "/app" location url)
  ∧ (∀ decodeURIComponent base64 message,
       decodeURIComponent "extract_7/50%off.jpg" = inl message ->
       getImageBase64 "/app" decodeURIComponent base64 url outcome.2
       = (inl message, outcome.2))
  ∧ (∀ decodeURIComponent base64,
       decodeURIComponent "extract_7/a%41.jpg" = inr "extract_7/aA.jpg" ->
       getImageBase64 "/app" decodeURIComponent base64 url' outcome.2
       = (inl "Image file not found: /app/uploads/extract_7/aA.jpg",
          outcome.2)).
Proof.
  intros outcome url url'.
  assert (outcome.1 = UploadJson [url; url'] "/app/uploads/extract_7")
    as Hrun by (vm_compute; reflexivity).
  assert (outcome.2 !! "/app/uploads/extract_7/50%off.jpg"
          = Some (File "pixels")) as Hfile by (vm_compute; reflexivity).
  assert (outcome.2 !! "/app/uploads/extract_7/a%41.jpg" = Some (File "more"))
    as Hfile' by (vm_compute; reflexivity).
  assert (outcome.2 !! "/app/uploads/extract_7/aA.jpg" = None) as Hnone
    by (vm_compute; reflexivity).
  split_and!; [exact Hrun|exact Hfile|exact Hfile'|..].
  - intros location Heq. unfold percent_encoded_address in Heq.
    apply (f_equal well_escaped) in Heq.
    change (well_escaped ("/api/images/" +:+ ?t))
      with (well_escaped t) in Heq.
    by rewrite percent_encode_well_escaped in Heq.
  - intros decodeURIComponent base64 message Hdecode.
    unfold getImageBase64, url.
    change (remove_first "/api/images/extract_7/50%off.jpg" "/api/images/")
      with "extract_7/50%off.jpg".
    by rewrite Hdecode.
  - intros decodeURIComponent base64 Hdecode.
    unfold getImageBase64, url'.
    change (remove_first "/api/images/extract_7/a%41.jpg" "/api/images/")
      with "extract_7/a%41.jpg".
    rewrite Hdecode.
    change (join [UPLOAD_DIR "/app"; "extract_7/aA.jpg"])
      with "/app/uploads/extract_7/aA.jpg".
    unfold mbind, IO_bind, get_fs.
    assert (Fs.existsSync outcome.2 "/app/uploads/extract_7/aA.jpg" = false)
      as -> by (by apply existsSync_false).
    done.
Qed.

(** ** Image route *)

(** C1: a location outside the upload directory whose spelling starts with
    the directory's spelling passes the prefix test, and [GET] serves it,
    whether the parent segment arrives inside one path segment or as a
    segment of its own. *)
Theorem prefix_test_admits_sibling :
  let pathSegments := ["../uploads-evil/secret.png"] in
  let resolvedPath :=
    resolve "/app" [join (UPLOAD_DIR "/app" :: pathSegments)] in
  resolvedPath = "/app/uploads-evil/secret.png"
  ∧ ¬ descendant_of (UPLOAD_DIR "/app") resolvedPath
  ∧ GET "/app" (Some pathSegments) sibling_fs
    = (ImageResponse "TOP SECRET" "image/png", sibling_fs)
  ∧ GET "/app" (Some [".."; "uploads-evil"; "secret.png"]) sibling_fs
    = (ImageResponse "TOP SECRET" "image/png", sibling_fs).
Proof.
  assert (resolve "/app"
            [join (UPLOAD_DIR "/app" :: ["../uploads-evil/secret.png"])]
          = "/app/uploads-evil/secret.png") as Hresolved
    by (vm_compute; reflexivity).
  intros pathSegments resolvedPath. unfold resolvedPath, pathSegments.
  rewrite Hresolved. split_and!.
  - reflexivity.
  - intros (below & _ & Heq).
    assert (segments "/app/uploads-evil/secret.png"
            = ["app"; "uploads-evil"; "secret.png"]) as Hp
      by (vm_compute; reflexivity).
    assert (segments (UPLOAD_DIR "/app") = ["app"; "uploads"]) as Hroot
      by (vm_compute; reflexivity).
    rewrite Hp, Hroot in Heq. simpl in Heq. by injection Heq.
  - vm_compute. reflexivity.
  - vm_compute. reflexivity.
Qed.

(** ** The scenario of the specification, as instances of the theorems *)

Lemma app_normalized : normalized_absolute "/app".
Proof.
  exists ["app"]. split; [|reflexivity].
  apply Forall_cons_2; [|apply Forall_nil_2]. by repeat split.
Defined.

Example scenario_addresses :
  (POST (yauzl_reads scenario) "/app" 5 7 (Some photos_upload) ∅).1
  = UploadJson ["/api/images/extract_7/a.jpg";
                "/api/images/extract_7/a_1.jpg";
                "/api/images/extract_7/b.png"] "/app/uploads/extract_7".
Proof. by vm_compute. Qed.

Example traversal_rejected :
  (GET "/app" (Some [".."; ".."; "etc"; "passwd"])
     {[ "/etc/passwd" := File "root" ]}).1
  = ErrorJson 403 "Invalid path".
Proof. by vm_compute. Qed.

Lemma entry_filter_decision_witness :
  let st := {| disk := ∅; processedEntries := ∅; writePromises := [] |} in
  let e := {| fileName := "x/._b.PNG"; io := Piped "D" |} in
  (fileName e ∉ processedEntries st)
  ∧ is_resource_fork (fileName e)
  ∧ (List.length (writePromises (on_entry "/app/uploads/extract_7" st e))
       = S (List.length (writePromises st))
     <-> ¬ is_directory_entry (fileName e)
         ∧ has_image_extension (fileName e)
         ∧ ¬ is_resource_fork (fileName e))
  ∧ writePromises (on_entry "/app/uploads/extract_7" st e) = writePromises st
  ∧ disk (on_entry "/app/uploads/extract_7" st e) = disk st.
Proof.
  intros st e.
  assert (fileName e ∉ processedEntries st) as Hfresh
    by apply not_elem_of_empty.
  assert (is_resource_fork (fileName e)) as Hfork by reflexivity.
  destruct (entry_filter_decision "/app/uploads/extract_7" st e)
    as [Hiff Hnever].
  split; [exact Hfresh|]. split; [exact Hfork|].
  split; [exact (Hiff Hfresh)|exact (Hnever Hfork)].
Defined.

Lemma duplicate_entry_name_skipped_witness :
  let first := {| fileName := "a.jpg"; io := Piped "A" |} in
  let again := {| fileName := "a.jpg"; io := Piped "A again" |} in
  fileName again ∈ (fileName <$> [first])
  ∧ on_entry "/out" (read_entries "/out" ∅ [first]) again
    = read_entries "/out" ∅ [first]
  ∧ read_entries "/out" ∅ ([first] ++ again :: [])
    = read_entries "/out" ∅ ([first] ++ []).
Proof.
  intros first again.
  assert (fileName again ∈ (fileName <$> [first])) as Hin
    by (apply elem_of_cons; by left).
  split; [exact Hin|].
  exact (duplicate_entry_name_skipped "/out" ∅ [first] again [] Hin).
Defined.

Lemma colliding_leaf_names_get_suffix_witness :
  let e1 := {| fileName := "a.jpg"; io := Piped "A" |} in
  let e2 := {| fileName := "sub/a.jpg"; io := Piped "B" |} in
  let final := read_entries "/out" ∅ ([] ++ e1 :: [] ++ e2 :: []) in
  ∃ p1 p2 k,
    Some p1 ∈ writePromises final ∧ Some p2 ∈ writePromises final
    ∧ p1 ≠ p2
    ∧ disk final !! p1 = Some (File "A")
    ∧ disk final !! p2 = Some (File "B")
    ∧ 1 <= k
    ∧ p2 = join ["/out"; "a" +:+ "_" +:+ pretty k +:+ ".jpg"].
Proof.
  intros e1 e2 final.
  destruct (colliding_leaf_names_get_suffix "/out" ∅ [] e1 [] e2 [] "A" "B")
    as (p1 & p2 & k & H1 & H2 & Hne & Hd1 & Hd2 & _ & Hk & Hp2 & _).
  - reflexivity.
  - reflexivity.
  - reflexivity.
  - reflexivity.
  - apply not_elem_of_nil.
  - intros Hin. apply list_elem_of_singleton in Hin. discriminate.
  - reflexivity.
  - exists p1, p2, k. repeat split; assumption.
Defined.

Lemma extractZip_unique_in_order_witness :
  let fs : gmap string node := {[ "/tmp/up.zip" := File "PK" ]} in
  let outcome := extractZip (yauzl_reads scenario) "/tmp/up.zip" "/out" fs in
  outcome = (inr ["/out/a.jpg"; "/out/a_1.jpg"; "/out/b.png"], outcome.2)
  ∧ NoDup ["/out/a.jpg"; "/out/a_1.jpg"; "/out/b.png"].
Proof.
  intros fs outcome.
  assert (outcome
          = (inr ["/out/a.jpg"; "/out/a_1.jpg"; "/out/b.png"], outcome.2))
    as Hrun by (vm_compute; reflexivity).
  split; [exact Hrun|].
  exact (proj1 (extractZip_unique_in_order (yauzl_reads scenario)
                  "/tmp/up.zip" "/out" fs _ _ Hrun)).
Defined.

Lemma empty_container_cleans_up_witness :
  qualifying (entries no_images) = []
  ∧ ∃ fs',
      POST (yauzl_reads no_images) "/app" 5 7 (Some photos_upload) ∅
      = (ErrorJson 400 "No images found in ZIP file", fs')
      ∧ fs' !! session_dir "/app" 7 = None
      ∧ fs' !! staging_path "/app" 5 = None
      ∧ ∀ p, Fs.is_under (session_dir "/app" 7) p = true -> fs' !! p = None.
Proof.
  assert (qualifying (entries no_images) = []) as Hnone by reflexivity.
  split; [exact Hnone|].
  apply (empty_container_cleans_up (yauzl_reads no_images) "/app" 5 7
           photos_upload ∅ no_images).
  - exact app_normalized.
  - reflexivity.
  - rewrite lookup_empty. discriminate.
  - intros data. rewrite lookup_empty. discriminate.
  - reflexivity.
  - reflexivity.
  - exact Hnone.
Defined.

Lemma qualifying_entries_all_addressed_witness :
  List.length (qualifying (entries twice_listed)) = 2
  ∧ List.length (qualifying_entries (entries twice_listed)) = 1
  ∧ returns_sorted_addresses (yauzl_reads twice_listed) "/app" 5 7
      photos_upload ∅
      (List.length (qualifying_entries (entries twice_listed))).
Proof.
  split; [reflexivity|]. split; [reflexivity|].
  apply (qualifying_entries_all_addressed (yauzl_reads twice_listed) "/app"
           5 7 photos_upload ∅ twice_listed).
  - exact app_normalized.
  - reflexivity.
  - rewrite lookup_empty. discriminate.
  - intros data. rewrite lookup_empty. discriminate.
  - reflexivity.
  - reflexivity.
  - intros e He. vm_compute in He.
    apply elem_of_cons in He as [->|He]; [by eexists|].
    by apply elem_of_nil in He.
  - vm_compute. lia.
Defined.

Lemma unencoded_address_breaks_decoding_witness :
  let outcome :=
    POST (yauzl_reads percent_names) "/app" 5 7 (Some photos_upload) ∅ in
  decode_ascii "extract_7/50%off.jpg" = inl "URI malformed"
  ∧ decode_ascii "extract_7/a%41.jpg" = inr "extract_7/aA.jpg"
  ∧ getImageBase64 "/app" decode_ascii encode_stub
      "/api/images/extract_7/50%off.jpg" outcome.2
    = (inl "URI malformed", outcome.2)
  ∧ getImageBase64 "/app" decode_ascii encode_stub
      "/api/images/extract_7/a%41.jpg" outcome.2
    = (inl "Image file not found: /app/uploads/extract_7/aA.jpg", outcome.2).
Proof.
  intros outcome.
  assert (decode_ascii "extract_7/50%off.jpg" = inl "URI malformed")
    as Hbad by reflexivity.
  assert (decode_ascii "extract_7/a%41.jpg" = inr "extract_7/aA.jpg")
    as Hother by reflexivity.
  destruct unencoded_address_breaks_decoding
    as (_ & _ & _ & _ & Hthrows & Hmissing).
  split; [exact Hbad|]. split; [exact Hother|].
  split; [exact (Hthrows decode_ascii encode_stub _ Hbad)
         |exact (Hmissing decode_ascii encode_stub Hother)].
Defined.

Example scenario_round_trip :
  let outcome :=
    POST (yauzl_reads scenario) "/app" 5 7 (Some photos_upload) ∅ in
  (GET "/app" (Some (split_slash "extract_7/a_1.jpg")) outcome.2).1
  = ImageResponse "B" "image/jpeg".
Proof. by vm_compute. Qed.

(** * Further properties *)

(** ** The archive extractor *)

(** X1: the collision loop terminates.  With any bound on its iterations
    above the number of files on disk it stops at the same location, and no
    file exists there. *)
Theorem collision_loop_terminates
    fuel fs extractTo fileName finalPath counter :
  size fs < fuel ->
  free_path fuel fs extractTo fileName finalPath counter
  = free_path (S (size fs)) fs extractTo fileName finalPath counter
  ∧ fs !! free_path fuel fs extractTo fileName finalPath counter = None.
Proof.
  intros Hfuel.
  pose proof (free_path_is_free fs extractTo fileName finalPath counter)
    as Hfree.
  rewrite (free_path_more_fuel (S (size fs)) fuel) by (lia || done). done.
Qed.

(** X2: [extractZip] only adds files, and only directly inside the
    destination directory: whatever the entry names are and whether it
    resolves or rejects, every location either is as it was before, or was
    free and now holds a file whose location is [path.join(extractTo, leaf)]
    for a single plain component [leaf]. *)
Theorem extractZip_only_adds_children yauzl_open zipPath extractTo fs :
  let fs' := (extractZip yauzl_open zipPath extractTo fs).2 in
  fs ⊆ fs'
  ∧ ∀ q, fs' !! q = fs !! q
      ∨ (fs !! q = None
         ∧ ∃ leaf data, Plain leaf ∧ q = join [extractTo; leaf]
                         ∧ fs' !! q = Some (File data)).
Proof.
  destruct (extractZip_cases yauzl_open zipPath extractTo fs)
    as [(err & -> & _)|(content & zipfile & _ & _ & Hrun)].
  { simpl. split; [done|]. by left. }
  destruct (read_entries_changes extractTo fs (entries zipfile))
    as (Hsub & _ & _ & Hnew & Hframe).
  assert ((extractZip yauzl_open zipPath extractTo fs).2
          = disk (read_entries extractTo fs (entries zipfile))) as ->.
  { simpl in Hrun. destruct (endError zipfile); by rewrite Hrun. }
  split; [done|]. intros q.
  destruct (decide (q ∈ fulfilled
                      (writePromises
                         (read_entries extractTo fs (entries zipfile)))))
    as [Hq|Hq]; [right|left; by apply Hframe].
  destruct (Hnew q Hq) as (Hfree & (e & data & seg & _ & _ & _ & Hfile & Hseg & -> & _) & _).
  split; [done|]. by exists seg, data.
Qed.

(** X3: in an extraction in which every write stream closes, the list that
    [extractZip] resolves with is exactly the set of locations whose content
    differs from before the call. *)
Theorem extractZip_returns_what_it_wrote
    yauzl_open zipPath extractTo fs files fs' :
  extractZip yauzl_open zipPath extractTo fs = (inr files, fs') ->
  ∀ q, q ∈ files <-> fs' !! q ≠ fs !! q.
Proof.
  intros Hrun q.
  destruct (extractZip_cases yauzl_open zipPath extractTo fs)
    as [(err & Herr & _)|(content & zipfile & _ & _ & Hcase)];
    [congruence|].
  simpl in Hcase. destruct (endError zipfile); [congruence|].
  rewrite Hcase in Hrun. injection Hrun as <- <-.
  destruct (read_entries_changes extractTo fs (entries zipfile))
    as (_ & _ & _ & Hnew & Hframe).
  split.
  - intros Hq. destruct (Hnew q Hq) as (Hfree & (e & data & seg & _ & _ & _ & Hfile & _) & _).
    congruence.
  - intros Hne.
    destruct (decide (q ∈ fulfilled
                        (writePromises
                           (read_entries extractTo fs (entries zipfile)))))
      as [Hq|Hq]; [done|].
    by destruct Hne; apply Hframe.
Qed.

(** X4: [extractZip] never resolves with more locations than the archive
    has entries that pass the entry filter. *)
Theorem extractZip_count_bound yauzl_open zipPath extractTo fs files fs' :
  extractZip yauzl_open zipPath extractTo fs = (inr files, fs') ->
  ∃ content zipfile,
    fs !! zipPath = Some (File content)
    ∧ yauzl_open content = inr zipfile
    ∧ endError zipfile = None
    ∧ List.length files <= List.length (qualifying (entries zipfile)).
Proof.
  intros Hrun.
  destruct (extractZip_cases yauzl_open zipPath extractTo fs)
    as [(err & Herr & _)|(content & zipfile & Hzip & Hopen & Hcase)];
    [congruence|].
  simpl in Hcase. destruct (endError zipfile) eqn:Hend; [congruence|].
  rewrite Hcase in Hrun. injection Hrun as <- <-.
  exists content, zipfile. split_and!; [done..|].
  destruct (read_entries_changes extractTo fs (entries zipfile))
    as (_ & _ & Hlen & _).
  etrans; [|exact Hlen]. apply fulfilled_length.
Qed.

(** X5: in an extraction in which every write stream closes, the entries
    that the filter rejects have no influence: reading all entries leaves
    the same promises and the same disk as reading only those that pass the
    filter. *)
Theorem extraction_ignores_rejected_entries extractTo fs l :
  writePromises (read_entries extractTo fs l)
  = writePromises (read_entries extractTo fs (qualifying l))
  ∧ disk (read_entries extractTo fs l)
    = disk (read_entries extractTo fs (qualifying l)).
Proof.
  unfold read_entries.
  destruct (run_filter extractTo l
              {| disk := fs; processedEntries := ∅; writePromises := [] |}
              {| disk := fs; processedEntries := ∅; writePromises := [] |})
    as (new & Hw & Hw' & Hd); [done..|].
  split; [|done]. by rewrite Hw, Hw'.
Qed.

(** X6: an entry whose read stream cannot be opened does not abort the
    extraction.  If its name does not occur again later in the archive, the
    other entries are extracted as if it were absent: same fulfilled
    promises, same disk. *)
Theorem failed_entry_does_not_disturb extractTo fs l1 e l2 :
  io e = ReadStreamError ->
  fileName e ∉ (fileName <$> l2) ->
  fulfilled (writePromises (read_entries extractTo fs (l1 ++ e :: l2)))
  = fulfilled (writePromises (read_entries extractTo fs (l1 ++ l2)))
  ∧ disk (read_entries extractTo fs (l1 ++ e :: l2))
    = disk (read_entries extractTo fs (l1 ++ l2)).
Proof.
  intros Hio Hlater. unfold read_entries. rewrite !foldl_app. simpl.
  set (s1 := foldl (on_entry extractTo) _ l1).
  assert (disk (on_entry extractTo s1 e) = disk s1
          ∧ fulfilled (writePromises (on_entry extractTo s1 e))
            = fulfilled (writePromises s1)) as [Hd1 Hw1].
  { destruct (on_entry_cases extractTo s1 e)
      as [[_ ->]|[(_ & _ & ->)|[(_ & _ & _ & ->)|(_ & _ & data & Hdata & _)]]];
      [done|done| |congruence].
    simpl. split; [done|]. rewrite fulfilled_app. simpl. apply app_nil_r. }
  destruct (run_agree extractTo l2 (on_entry extractTo s1 e) s1)
    as (new & Hw & Hw' & Hd); [done| |].
  { intros e' He'. rewrite on_entry_processed, elem_of_union, elem_of_singleton.
    split; [|tauto]. intros [Heq|?]; [|done]. destruct Hlater.
    rewrite <-Heq. apply list_elem_of_fmap. eauto. }
  split; [|done]. by rewrite Hw, Hw', !fulfilled_app, Hw1.
Qed.

(** X7: every location that [extractZip] resolves with has the extension of
    an entry that passed the filter, also after the collision loop has
    renamed the file; so it is itself an image file name. *)
Theorem extracted_files_keep_extension
    yauzl_open zipPath extractTo fs files fs' p :
  extractZip yauzl_open zipPath extractTo fs = (inr files, fs') ->
  p ∈ files ->
  isImageFile p = true
  ∧ ∃ content zipfile e,
      fs !! zipPath = Some (File content)
      ∧ yauzl_open content = inr zipfile
      ∧ e ∈ qualifying (entries zipfile)
      ∧ extname p = extname (fileName e).
Proof.
  intros Hrun Hp.
  destruct (extractZip_cases yauzl_open zipPath extractTo fs)
    as [(err & Herr & _)|(content & zipfile & Hzip & Hopen & Hcase)];
    [congruence|].
  simpl in Hcase. destruct (endError zipfile) eqn:Hend; [congruence|].
  rewrite Hcase in Hrun. injection Hrun as <- <-.
  destruct (read_entries_changes extractTo fs (entries zipfile))
    as (_ & _ & _ & Hnew & _).
  destruct (Hnew p Hp) as (_ & _ & e & He & Hext).
  split; [|by exists content, zipfile, e].
  unfold isImageFile. rewrite Hext.
  apply list_elem_of_filter in He as [(_ & Himg & _)%keeps_true _]. done.
Qed.

(** X8: the fulfilled writes of an extraction are pairwise distinct, so
    the pass that removes duplicate locations removes nothing and the
    branch that reports duplicate file paths is never taken. *)
Theorem extraction_paths_are_distinct extractTo fs l :
  let successfulFiles :=
    fulfilled (writePromises (read_entries extractTo fs l)) in
  let uniqueFiles := array_from_set successfulFiles in
  NoDup successfulFiles
  ∧ uniqueFiles = successfulFiles
  ∧ List.length successfulFiles = List.length uniqueFiles.
Proof.
  destruct (read_entries_changes extractTo fs l) as (_ & Hnd & _).
  simpl. rewrite array_from_set_id by done. done.
Qed.

(** ** The upload handler *)

(** X9: [POST] answers 400 ['File must be a ZIP file'] exactly when a file
    came whose name does not end in [.zip] (compared as it is spelled, so
    [.ZIP] is refused); the file system is then left as it was. *)
Theorem POST_wrong_suffix yauzl_open cwd now_zip now_dir file fs :
  ((POST yauzl_open cwd now_zip now_dir file fs).1
   = ErrorJson 400 "File must be a ZIP file"
   <-> ∃ f, file = Some f ∧ endsWith (name f) ".zip" = false)
  ∧ ((POST yauzl_open cwd now_zip now_dir file fs).1
     = ErrorJson 400 "File must be a ZIP file" ->
     (POST yauzl_open cwd now_zip now_dir file fs).2 = fs).
Proof.
  unfold POST, catch_500.
  destruct file as [file|].
  2: { split; [|done]. split; [done|]. by intros (f & ? & _). }
  destruct (endsWith (name file) ".zip") eqn:Hzip.
  2: { unfold POST_try. rewrite Hzip. simpl. split; [|done].
       split; [|done]. intros _. by exists file. }
  assert ((let (r, fs') := POST_try yauzl_open cwd now_zip now_dir (Some file) fs in
           match r with
           | inl message => (ErrorJson 500 message, fs')
           | inr response => (response, fs')
           end).1 ≠ ErrorJson 400 "File must be a ZIP file") as Hne.
  { rewrite POST_try_unfold by done.
    unfold mbind at 1, IO_bind.
    destruct (Fs.writeFile _ _ fs) as [[err|[]] fs1]; [done|].
    unfold mbind at 1, IO_bind.
    destruct (Fs.mkdir_recursive _ fs1) as [[err|[]] fs2]; [done|].
    unfold mbind at 1, IO_bind.
    destruct (extractZip _ _ _ fs2) as [[err|files] fs3]; [done|].
    destruct (respond_cases cwd (staging_path cwd now_zip)
                (session_dir cwd now_dir) files fs3)
      as [[_ ->]|[[_ ->]|[_ ->]]]; done. }
  split; [|done]. split; [done|].
  intros (f & [= <-] & Hf). congruence.
Qed.

(** X10: for an upload whose archive is read to its end and has more than
    100 entries that pass the filter, with pairwise distinct names and all
    written, [POST] answers 400 ['ZIP file contains more than 100 images'],
    and neither the extraction directory (nor anything under it) nor the
    staging file exists afterwards. *)
Theorem too_many_images_cleans_up
    yauzl_open cwd now_zip now_dir file fs zipfile :
  normalized_absolute cwd ->
  endsWith (name file) ".zip" = true ->
  fs !! staging_path cwd now_zip ≠ Some Directory ->
  (∀ data, fs !! session_dir cwd now_dir ≠ Some (File data)) ->
  yauzl_open (bytes file) = inr zipfile -> endError zipfile = None ->
  NoDup (fileName <$> qualifying (entries zipfile)) ->
  (∀ e, e ∈ qualifying (entries zipfile) -> ∃ data, io e = Piped data) ->
  100 < List.length (qualifying (entries zipfile)) ->
  ∃ fs',
    POST yauzl_open cwd now_zip now_dir (Some file) fs
    = (ErrorJson 400 "ZIP file contains more than 100 images", fs')
    ∧ fs' !! session_dir cwd now_dir = None
    ∧ fs' !! staging_path cwd now_zip = None
    ∧ ∀ p, Fs.is_under (session_dir cwd now_dir) p = true -> fs' !! p = None.
Proof.
  intros (segs & Hsegs & Hcwd) Hzip Hstage Hdir Hopen Hend Hnames Hio HN.
  rewrite (POST_reaches_extraction yauzl_open cwd segs) by done.
  unfold catch_500.
  erewrite bind_inr.
  2: { apply (extractZip_ok _ _ _ _ (bytes file) zipfile); [|done..].
       by eapply staged_lookup_staging. }
  rewrite array_from_set_id by apply session_files_NoDup.
  rewrite respond_too_many.
  2: { rewrite session_files_count; [done|done|].
       intros e He Hk. apply Hio. by apply list_elem_of_filter. }
  eexists. split_and!; [done|..].
  - apply remove_lookup_None, remove_lookup_self.
  - apply remove_lookup_self.
  - intros p Hp. by apply remove_lookup_None, remove_lookup_under.
Qed.

(** X11: after a successful upload the staging file is gone, the returned
    directory is the extraction directory and exists, and the addresses are
    between 1 and 100, pairwise distinct, each below the extraction
    directory's own address. *)
Theorem upload_success_state
    yauzl_open cwd now_zip now_dir file fs urls dir fs' :
  normalized_absolute cwd ->
  POST yauzl_open cwd now_zip now_dir (Some file) fs
  = (UploadJson urls dir, fs') ->
  dir = session_dir cwd now_dir
  ∧ fs' !! staging_path cwd now_zip = None
  ∧ fs' !! dir = Some Directory
  ∧ 1 <= List.length urls <= 100
  ∧ NoDup urls
  ∧ ∀ url, url ∈ urls ->
      startsWith url ("/api/images/" +:+ extract_name now_dir +:+ "/") = true.
Proof.
  intros (segs & Hsegs & Hcwd) Hpost.
  destruct (POST_upload_phases yauzl_open cwd segs Hsegs Hcwd now_zip now_dir
              file fs urls dir fs' Hpost)
    as (Hzip & Hstage & Hdir & zipfile & Hopen & Hend & Hlen & -> & -> & ->).
  set (st := read_entries _ _ _) in *.
  destruct (session_dir_not_staged cwd segs Hsegs Hcwd now_zip now_dir)
    as [Hne Hunder].
  split_and!.
  - done.
  - apply remove_lookup_self.
  - rewrite remove_lookup_other by done.
    destruct (read_entries_changes (session_dir cwd now_dir)
                (staged cwd fs file now_zip now_dir) (entries zipfile))
      as (Hsub & _).
    eapply lookup_weaken; [|exact Hsub].
    by apply (staged_lookup_session cwd segs).
  - rewrite length_fmap, sort_Permutation. lia.
  - rewrite length_fmap, sort_Permutation. lia.
  - unfold st. rewrite <-(final_urls_session cwd segs) by done.
    apply array_from_set_NoDup.
  - intros url (p & -> & Hp)%list_elem_of_fmap.
    rewrite sort_Permutation in Hp.
    apply session_files_Extracted in Hp
      as (_ & _ & seg & _ & _ & _ & _ & Hseg & -> & _).
    rewrite (image_url_session_file cwd segs) by done.
    apply startsWith_spec. exists (replace_backslashes seg).
    by rewrite !string_app_assoc.
Qed.

(** X12: a successful upload leaves every other file as it was: whatever
    existed before, apart from the staging location, is still there with
    the same content. *)
Theorem upload_success_preserves_files
    yauzl_open cwd now_zip now_dir file fs urls dir fs' q x :
  normalized_absolute cwd ->
  POST yauzl_open cwd now_zip now_dir (Some file) fs
  = (UploadJson urls dir, fs') ->
  fs !! q = Some x ->
  q ≠ staging_path cwd now_zip ->
  Fs.is_under (staging_path cwd now_zip) q = false ->
  fs' !! q = Some x.
Proof.
  intros (segs & Hsegs & Hcwd) Hpost Hq Hne Hunder.
  destruct (POST_upload_phases yauzl_open cwd segs Hsegs Hcwd now_zip now_dir
              file fs urls dir fs' Hpost)
    as (Hzip & Hstage & Hdir & zipfile & Hopen & Hend & Hlen & -> & -> & ->).
  rewrite remove_lookup_other by done.
  destruct (read_entries_changes (session_dir cwd now_dir)
              (staged cwd fs file now_zip now_dir) (entries zipfile))
    as (Hsub & _).
  eapply lookup_weaken; [|exact Hsub].
  unfold staged. cbv zeta.
  destruct (<[staging_path cwd now_zip := File (bytes file)]> fs
            !! session_dir cwd now_dir) eqn:Hs.
  - by rewrite lookup_insert_ne.
  - destruct (decide (q = session_dir cwd now_dir)) as [->|Hq'].
    + rewrite lookup_insert_ne in Hs by done. congruence.
    + by rewrite !lookup_insert_ne.
Qed.

(** X13: uploads into different extraction directories never share an
    address. *)
Theorem sessions_have_disjoint_addresses
    yauzl_open yauzl_open' cwd now_zip now_dir now_zip' now_dir'
    file file' fs fs1 urls urls' dir dir' fs' fs1' url :
  normalized_absolute cwd ->
  POST yauzl_open cwd now_zip now_dir (Some file) fs
  = (UploadJson urls dir, fs') ->
  POST yauzl_open' cwd now_zip' now_dir' (Some file') fs1
  = (UploadJson urls' dir', fs1') ->
  now_dir ≠ now_dir' ->
  url ∈ urls -> url ∉ urls'.
Proof.
  intros (segs & Hsegs & Hcwd) Hpost Hpost' Hne Hurl Hurl'.
  destruct (POST_upload_inv yauzl_open cwd segs Hsegs Hcwd now_zip now_dir
              file fs urls dir fs' Hpost)
    as (zipfile & _ & _ & -> & _).
  destruct (POST_upload_inv yauzl_open' cwd segs Hsegs Hcwd now_zip' now_dir'
              file' fs1 urls' dir' fs1' Hpost')
    as (zipfile' & _ & _ & -> & _).
  apply list_elem_of_fmap in Hurl as (p & -> & Hp).
  apply list_elem_of_fmap in Hurl' as (p' & Heq & Hp').
  rewrite sort_Permutation in Hp, Hp'.
  apply session_files_Extracted in Hp
    as (_ & _ & seg & _ & _ & _ & _ & Hseg & -> & _).
  apply session_files_Extracted in Hp'
    as (_ & _ & seg' & _ & _ & _ & _ & Hseg' & -> & _).
  apply (f_equal (fun u => split_slash u !! 3)) in Heq.
  rewrite !(address_session cwd segs) in Heq by done.
  injection Heq as Heq. unfold extract_name in Heq.
  apply string_app_inv_head in Heq. by apply (inj pretty) in Heq.
Qed.

(** X14: the addresses of a successful upload are listed in the order of
    the files' locations: the locations are sorted as strings, and so are
    their locations relative to the upload directory; every one of them
    holds a file afterwards. *)
Theorem upload_addresses_sorted
    yauzl_open cwd now_zip now_dir file fs urls dir fs' :
  normalized_absolute cwd ->
  POST yauzl_open cwd now_zip now_dir (Some file) fs
  = (UploadJson urls dir, fs') ->
  ∃ locations,
    urls = image_url cwd <$> locations
    ∧ StronglySorted String.le locations
    ∧ StronglySorted String.le (relative cwd (UPLOAD_DIR cwd) <$> locations)
    ∧ ∀ p, p ∈ locations -> ∃ data, fs' !! p = Some (File data).
Proof.
  intros (segs & Hsegs & Hcwd) Hpost.
  destruct (POST_upload_inv yauzl_open cwd segs Hsegs Hcwd now_zip now_dir
              file fs urls dir fs' Hpost)
    as (zipfile & _ & _ & -> & -> & ->).
  eexists. split_and!; [done|apply sort_StronglySorted|..].
  - apply (relative_sorted cwd segs Hsegs Hcwd now_dir);
      [|apply sort_StronglySorted].
    intros p Hp. rewrite sort_Permutation in Hp.
    apply session_files_Extracted in Hp
      as (_ & _ & seg & _ & _ & _ & _ & Hseg & -> & _).
    eauto.
  - intros p Hp. rewrite sort_Permutation in Hp.
    apply session_files_Extracted in Hp
      as (_ & data & seg & _ & _ & _ & Hfile & Hseg & -> & _).
    destruct (session_file_not_staged cwd segs Hsegs Hcwd now_zip now_dir seg
                Hseg) as [Hne Hunder].
    exists data. by rewrite remove_lookup_other.
Qed.

(** X23: every returned address is ["/api/images/"] followed by the
    file's location relative to the upload directory, backslashes turned
    into slashes and nothing percent-encoded; when no entry name has a
    backslash, [%], [?] or [#], [GET], given the components of that relative
    location, answers with the bytes written for a kept entry, found at
    that location. *)
Theorem returned_addresses_resolve
    yauzl_open cwd now_zip now_dir file fs urls dir fs' :
  normalized_absolute cwd ->
  POST yauzl_open cwd now_zip now_dir (Some file) fs
  = (UploadJson urls dir, fs') ->
  ∃ zipfile,
    yauzl_open (bytes file) = inr zipfile
    ∧ ∀ url, url ∈ urls ->
        ∃ location e data rel,
          url = "/api/images/" +:+ rel
          ∧ rel = replace_backslashes (relative cwd (UPLOAD_DIR cwd) location)
          ∧ e ∈ qualifying (entries zipfile) ∧ io e = Piped data
          ∧ fs' !! location = Some (File data)
          ∧ (Forall (fun e => all_chars url_neutral (fileName e) = true)
               (entries zipfile) ->
             GET cwd (Some (split_slash rel)) fs'
             = (ImageResponse data
                  (content_type (toLowerCase (extname location))), fs')).
Proof.
  intros (segs & Hsegs & Hcwd) Hpost.
  destruct (POST_upload_inv yauzl_open cwd segs Hsegs Hcwd now_zip now_dir
              file fs urls dir fs' Hpost)
    as (zipfile & Hopen & Hend & -> & -> & ->).
  exists zipfile. split; [done|].
  intros url (location & -> & Hloc)%list_elem_of_fmap.
  rewrite sort_Permutation in Hloc.
  apply session_files_Extracted in Hloc
    as (e & data & seg & He & Hk & Hio & Hfile & Hseg & -> & Hchars).
  destruct (session_file_not_staged cwd segs Hsegs Hcwd now_zip now_dir seg Hseg)
    as [Hne Hunder].
  assert ((Fs.remove (staging_path cwd now_zip)
             (disk (read_entries (session_dir cwd now_dir)
                      (staged cwd fs file now_zip now_dir) (entries zipfile)))).2
          !! join [session_dir cwd now_dir; seg] = Some (File data)) as Hkept.
  { by rewrite remove_lookup_other. }
  exists (join [session_dir cwd now_dir; seg]), e, data.
  eexists. split_and!; [|done|by apply list_elem_of_filter|done|done|].
  - unfold image_url.
    rewrite (relative_session_file cwd segs), replace_backslashes_app by done.
    assert (startsWith
              (replace_backslashes (extract_name now_dir)
               +:+ replace_backslashes ("/" +:+ seg)) "/" = false) as ->.
    { by rewrite (replace_backslashes_id (extract_name now_dir))
        by apply extract_name_NoBackslash. }
    done.
  - intros Hneutral. eapply Forall_forall in Hneutral; [|exact He].
    assert (NoBackslash seg) as Hbs.
    { eapply (all_chars_impl url_neutral).
      - intros c. unfold url_neutral.
        rewrite !negb_true_iff, !bool_decide_eq_false.
        intros Hc ->. apply Hc, elem_of_cons. by left.
      - apply Hchars; [done| |done].
        intros c. unfold is_digit, url_neutral.
        rewrite bool_decide_eq_true, negb_true_iff, bool_decide_eq_false.
        rewrite !elem_of_cons, !elem_of_nil.
        intros Hc Hbad. intuition (subst; discriminate). }
    rewrite (relative_session_file cwd segs) by done.
    rewrite replace_backslashes_id.
    2: { apply NoBackslash_app. split; [apply extract_name_NoBackslash|].
         by apply (NoBackslash_app "/"). }
    rewrite split_relative by done.
    by apply (GET_serves cwd segs).
Qed.

(** ** The image route *)

(** X15: a request whose segments are plain names is never refused as a
    traversal: its location is a descendant of the upload directory, and
    [GET] answers with the file there and its content type, with 404 when
    nothing is there, and with 500 when a directory is there. *)
Theorem GET_descendant cwd pathSegments fs :
  normalized_absolute cwd ->
  Forall Plain pathSegments -> pathSegments ≠ [] ->
  let filePath := join (UPLOAD_DIR cwd :: pathSegments) in
  descendant_of (UPLOAD_DIR cwd) filePath
  ∧ GET cwd (Some pathSegments) fs
    = (match fs !! filePath with
       | Some (File data) =>
           ImageResponse data (content_type (toLowerCase (extname filePath)))
       | Some Directory => ErrorJson 500 "Failed to serve image"
       | None => ErrorJson 404 "File not found"
       end, fs).
Proof.
  intros (segs & Hsegs & Hcwd) Hplain Hne filePath.
  assert (Forall Plain (segs ++ ["uploads"])) as Hup
    by (apply Forall_app; split; [done|]; by repeat constructor).
  assert (filePath = abs_path (segs ++ "uploads" :: pathSegments)) as Hpath.
  { unfold filePath. rewrite (UPLOAD_DIR_abs cwd segs) by done.
    rewrite join_abs_list by done. by rewrite <-app_assoc. }
  split.
  - exists pathSegments. split; [done|]. rewrite Hpath.
    rewrite (UPLOAD_DIR_abs cwd segs) by done.
    rewrite !segments_abs_path; [by rewrite <-app_assoc|done|].
    apply Forall_app. split; [done|]. by apply Forall_cons.
  - rewrite (GET_at cwd segs Hsegs Hcwd pathSegments ("uploads" :: pathSegments));
      [|done|by apply Forall_cons|done|done].
    rewrite join_slash_cons by done.
    rewrite (startsWith_app "uploads"). by rewrite <-Hpath.
Qed.

(** X16: a request that leaves the upload directory through a parent
    segment for a sibling whose spelling does not begin with the directory's
    name is refused with 403, and nothing is read. *)
Theorem GET_rejects_sibling cwd sibling rest fs :
  normalized_absolute cwd ->
  Plain sibling -> Forall Plain rest ->
  startsWith (join_slash (sibling :: rest)) "uploads" = false ->
  GET cwd (Some (".." :: sibling :: rest)) fs
  = (ErrorJson 403 "Invalid path", fs).
Proof.
  intros (segs & Hsegs & Hcwd) Hs Hrest Hprefix.
  rewrite (GET_at cwd segs Hsegs Hcwd _ (sibling :: rest));
    [|done|by apply Forall_cons|done|].
  - by rewrite Hprefix.
  - rewrite (UPLOAD_DIR_abs cwd segs) by done.
    apply join_abs_dotdot; [done|by repeat split|by apply Forall_cons|done].
Qed.

(** X17: [GET] never changes the file system, and whatever it serves is the
    content of the file at [path.join(UPLOAD_DIR, ...segments)], whose
    resolved spelling begins with that of the upload directory, under one of
    the five image content types. *)
Theorem GET_reads_only cwd pathSegments fs :
  (GET cwd pathSegments fs).2 = fs
  ∧ ∀ body contentType,
      (GET cwd pathSegments fs).1 = ImageResponse body contentType ->
      ∃ segments,
        pathSegments = Some segments
        ∧ fs !! join (UPLOAD_DIR cwd :: segments) = Some (File body)
        ∧ startsWith (resolve cwd [join (UPLOAD_DIR cwd :: segments)])
            (resolve cwd [UPLOAD_DIR cwd]) = true
        ∧ contentType
          ∈ ["image/jpeg"; "image/png"; "image/gif"; "image/webp";
             "image/bmp"].
Proof.
  unfold GET, catch_500, GET_try.
  destruct pathSegments as [[|s0 rest]|]; [by split|..|by split].
  destruct (startsWith _ _) eqn:Hprefix; [|by split].
  change (negb true) with false. cbv beta iota.
  unfold mbind, IO_bind, get_fs.
  destruct (fs !! join (UPLOAD_DIR cwd :: s0 :: rest)) as [[data|]|] eqn:Hfile.
  - assert (Fs.existsSync fs (join (UPLOAD_DIR cwd :: s0 :: rest)) = true)
      as -> by (apply existsSync_true; rewrite Hfile; eauto).
    change (negb true) with false. cbv beta iota.
    unfold Fs.readFile. rewrite Hfile. simpl.
    split; [done|]. intros body contentType [= <- <-].
    exists (s0 :: rest). split_and!; [done..|].
    unfold content_type. rewrite !elem_of_cons.
    repeat case_bool_decide; tauto.
  - assert (Fs.existsSync fs (join (UPLOAD_DIR cwd :: s0 :: rest)) = true)
      as -> by (apply existsSync_true; rewrite Hfile; eauto).
    change (negb true) with false. cbv beta iota.
    unfold Fs.readFile. rewrite Hfile. by split.
  - assert (Fs.existsSync fs (join (UPLOAD_DIR cwd :: s0 :: rest)) = false)
      as -> by (by apply existsSync_false).
    by split.
Qed.

(** ** The classify route *)

(** X18: the classify route reads the bytes that the upload route wrote.
    For an address returned by a successful upload of an archive whose
    entry names have no backslash, if decoding leaves the address's path as
    it is, [getImageBase64] returns the data URL of the file written for a
    kept entry, under the content type that [GET] serves it with. *)
Theorem classify_reads_uploaded_image
    yauzl_open decodeURIComponent base64 cwd now_zip now_dir file zipfile
    fs urls dir fs' url :
  normalized_absolute cwd ->
  POST yauzl_open cwd now_zip now_dir (Some file) fs
  = (UploadJson urls dir, fs') ->
  yauzl_open (bytes file) = inr zipfile ->
  Forall (fun e => NoBackslash (fileName e)) (entries zipfile) ->
  url ∈ urls ->
  decodeURIComponent (remove_first url "/api/images/")
  = inr (remove_first url "/api/images/") ->
  ∃ location e data,
    e ∈ qualifying (entries zipfile) ∧ io e = Piped data
    ∧ fs' !! location = Some (File data)
    ∧ url = image_url cwd location
    ∧ getImageBase64 cwd decodeURIComponent base64 url fs'
      = (inr ("data:" +:+ content_type (toLowerCase (extname location))
              +:+ ";base64," +:+ base64 data), fs').
Proof.
  intros (segs & Hsegs & Hcwd) Hpost Hopen Hnames Hurl Hdecode.
  destruct (POST_upload_inv yauzl_open cwd segs Hsegs Hcwd now_zip now_dir
              file fs urls dir fs' Hpost)
    as (zipfile' & Hopen' & Hend & -> & -> & ->).
  assert (zipfile' = zipfile) as -> by congruence.
  apply list_elem_of_fmap in Hurl as (location & -> & Hloc).
  rewrite sort_Permutation in Hloc.
  apply session_files_Extracted in Hloc
    as (e & data & seg & He & Hk & Hio & Hfile & Hseg & -> & Hchars).
  destruct (session_file_not_staged cwd segs Hsegs Hcwd now_zip now_dir seg Hseg)
    as [Hne Hunder].
  assert (NoBackslash seg) as Hbs.
  { eapply Forall_forall in Hnames; [|exact He].
    apply Hchars; [done| |done].
    intros c. unfold is_digit.
    rewrite bool_decide_eq_true, negb_true_iff, bool_decide_eq_false.
    rewrite !elem_of_cons, !elem_of_nil. intros Hc ->.
    intuition discriminate. }
  exists (join [session_dir cwd now_dir; seg]), e, data.
  split_and!; [by apply list_elem_of_filter|done|by rewrite remove_lookup_other
              |done|].
  rewrite (image_url_session_file cwd segs) in * by done.
  rewrite replace_backslashes_id in * by done.
  rewrite remove_first_prefix in Hdecode.
  unfold getImageBase64. rewrite remove_first_prefix, Hdecode.
  assert (join [UPLOAD_DIR cwd; extract_name now_dir +:+ "/" +:+ seg]
          = join [session_dir cwd now_dir; seg]) as ->.
  { rewrite (join_flatten _ [extract_name now_dir; seg]).
    - rewrite (UPLOAD_DIR_abs cwd segs), (session_file_abs cwd segs) by done.
      rewrite join_abs_list; [by rewrite <-app_assoc|..].
      + apply Forall_app. split; [done|]. by repeat constructor.
      + apply Forall_cons. split; [apply Plain_extract_name|].
        by apply Forall_cons.
    - rewrite (UPLOAD_DIR_abs cwd segs) by done. done.
    - done.
    - apply Forall_cons. split; [by destruct (Plain_extract_name now_dir)|].
      apply Forall_cons. split; [by destruct Hseg|done]. }
  unfold mbind, IO_bind, get_fs.
  set (fs' := (Fs.remove _ _).2).
  assert (fs' !! join [session_dir cwd now_dir; seg] = Some (File data))
    as Hkept by (unfold fs'; by rewrite remove_lookup_other).
  assert (Fs.existsSync fs' (join [session_dir cwd now_dir; seg]) = true) as ->
    by (apply existsSync_true; rewrite Hkept; eauto).
  change (negb true) with false. cbv beta iota.
  unfold Fs.readFile. by rewrite Hkept.
Qed.

(** X19: [getImageBase64] does not confine the location to the upload
    directory: for an address whose path begins with a parent segment it
    returns the data URL of a file next to the upload directory, a location
    that is no descendant of the upload directory. *)
Theorem classify_reads_next_to_upload_dir
    decodeURIComponent base64 cwd leaf data fs :
  normalized_absolute cwd ->
  Plain leaf ->
  decodeURIComponent ("../" +:+ leaf) = inr ("../" +:+ leaf) ->
  fs !! join [cwd; leaf] = Some (File data) ->
  ¬ descendant_of (UPLOAD_DIR cwd) (join [cwd; leaf])
  ∧ getImageBase64 cwd decodeURIComponent base64
      ("/api/images/../" +:+ leaf) fs
    = (inr ("data:" +:+ content_type (toLowerCase (extname (join [cwd; leaf])))
            +:+ ";base64," +:+ base64 data), fs).
Proof.
  intros (segs & Hsegs & Hcwd) Hleaf Hdecode Hfile.
  assert (join [cwd; leaf] = abs_path (segs ++ [leaf])) as Hloc
    by (rewrite Hcwd; by apply join_abs_Plain).
  rewrite Hloc in *. split.
  - intros (below & Hne & Heq).
    rewrite (UPLOAD_DIR_abs cwd segs) in Heq by done.
    rewrite !segments_abs_path in Heq.
    + apply (f_equal List.length) in Heq. rewrite !length_app in Heq.
      destruct below; [done|]. simpl in Heq. lia.
    + apply Forall_app. split; [done|].
      apply Forall_cons_2; [done|apply Forall_nil_2].
    + apply Forall_app. split; [done|].
      apply Forall_cons_2; [done|apply Forall_nil_2].
  - unfold getImageBase64.
    change ("/api/images/../" +:+ leaf)
      with ("/api/images/" +:+ "../" +:+ leaf).
    rewrite remove_first_prefix, Hdecode.
    assert (join [UPLOAD_DIR cwd; "../" +:+ leaf] = abs_path (segs ++ [leaf]))
      as ->.
    { change ("../" +:+ leaf) with (join_slash [".."; leaf]).
      rewrite join_flatten.
      - rewrite (UPLOAD_DIR_abs cwd segs) by done.
        apply join_abs_dotdot;
          [done|by repeat split|apply Forall_cons_2; [done|apply Forall_nil_2]
          |done].
      - rewrite (UPLOAD_DIR_abs cwd segs) by done. done.
      - done.
      - apply Forall_cons. split; [done|]. apply Forall_cons.
        split; [by destruct Hleaf|done]. }
    unfold mbind, IO_bind, get_fs.
    assert (Fs.existsSync fs (abs_path (segs ++ [leaf])) = true) as ->
      by (apply existsSync_true; rewrite Hfile; eauto).
    change (negb true) with false. cbv beta iota.
    unfold Fs.readFile. by rewrite Hfile.
Qed.

(** X20: the classification read off an answer is one of the three labels
    and ignores the case of letters, in the label and in the background
    description. *)
Theorem classification_ignores_case classification background :
  classification_of classification background
  ∈ ["good"; "bad"; "unknown"]
  ∧ classification_of (toLowerCase <$> classification)
      (toLowerCase background)
    = classification_of classification background.
Proof.
  split.
  - assert (∀ b1 b2 : bool,
              (if b1 then "bad" else if b2 then "good" else "unknown")
              ∈ ["good"; "bad"; "unknown"]) as Hinferred.
    { intros [|] [|]; rewrite !elem_of_cons; tauto. }
    unfold classification_of.
    destruct classification as [c|]; simpl; [|apply Hinferred].
    destruct (bool_decide (toLowerCase c = "good")) eqn:Hgood.
    { apply bool_decide_eq_true in Hgood as ->. simpl.
      rewrite !elem_of_cons; tauto. }
    destruct (bool_decide (toLowerCase c = "bad")) eqn:Hbad.
    { apply bool_decide_eq_true in Hbad as ->. simpl.
      rewrite !elem_of_cons; tauto. }
    destruct (bool_decide (toLowerCase c = "unknown")) eqn:Hunknown.
    { apply bool_decide_eq_true in Hunknown as ->. simpl.
      rewrite !elem_of_cons; tauto. }
    apply Hinferred.
  - unfold classification_of. rewrite toLowerCase_idemp.
    destruct classification as [c|]; simpl; [|done].
    by rewrite toLowerCase_idemp.
Qed.

(** X21: when the label decides nothing, the classification depends on the
    background description only through which of the words white, plain,
    backdrop, background, room, studio and color it contains; the test for
    [colored] never decides. *)
Theorem classification_by_words classification background background' :
  (∀ word, word ∈ background_words ->
     includes (toLowerCase background) word
     = includes (toLowerCase background') word) ->
  classification_of classification background
  = classification_of classification background'.
Proof.
  intros Hwords.
  assert (∀ s, (includes s "colored" || includes s "color")
               = includes s "color") as Hcolored.
  { intros s. destruct (includes s "colored") eqn:Hc; [|done].
    by rewrite (includes_colored s Hc). }
  unfold classification_of.
  rewrite <-!orb_assoc, !Hcolored.
  rewrite !(Hwords "white"), !(Hwords "plain"), !(Hwords "backdrop"),
    !(Hwords "background"), !(Hwords "room"), !(Hwords "studio"),
    !(Hwords "color");
    try (unfold background_words; rewrite !elem_of_cons; tauto).
  done.
Qed.

(** ** The page *)

(** X22: the page shows one image per address of a successful upload.  The
    answer passes the page's own checks, no address is dropped as a
    duplicate, and the images are the addresses in the order the shuffle
    gives them. *)
Theorem page_shows_every_address
    shuffle yauzl_open cwd now_zip now_dir file fs urls dir fs' :
  normalized_absolute cwd ->
  (∀ l, shuffle l ≡ₚ l) ->
  POST yauzl_open cwd now_zip now_dir (Some file) fs
  = (UploadJson urls dir, fs') ->
  ∃ images,
    Page.images_of_response shuffle urls = inr images
    ∧ images = imap Page.initial_image (shuffle urls)
    ∧ Page.url <$> images ≡ₚ urls
    ∧ List.length images = List.length urls.
Proof.
  intros (segs & Hsegs & Hcwd) Hshuffle Hpost.
  destruct (POST_upload_phases yauzl_open cwd segs Hsegs Hcwd now_zip now_dir
              file fs urls dir fs' Hpost)
    as (_ & _ & _ & zipfile & _ & _ & Hlen & Hurls & _).
  cbv zeta in *.
  assert (NoDup urls) as Hnd.
  { rewrite Hurls. rewrite <-(final_urls_session cwd segs) by done.
    apply array_from_set_NoDup. }
  assert (0 < List.length urls <= 100) as Hcount.
  { rewrite Hurls, length_fmap, sort_Permutation. lia. }
  eexists. split_and!; [|done|..].
  - unfold Page.images_of_response. rewrite !bool_decide_false by lia.
    cbv zeta. rewrite array_from_set_id by done.
    rewrite initial_images_urls, length_imap.
    rewrite bool_decide_false; [done|]. intros Hne. apply Hne.
    rewrite size_list_to_set; [done|]. by rewrite Hshuffle.
  - by rewrite initial_images_urls.
  - by rewrite length_imap, Hshuffle.
Qed.

(** ** Instances of the further properties *)

Lemma collision_loop_terminates_witness :
  let fs : gmap string node :=
    {[ "/out/a.jpg" := File "A"; "/out/a_1.jpg" := File "B" ]} in
  size fs < 10
  ∧ free_path 10 fs "/out" "a.jpg" "/out/a.jpg" 1
    = free_path (S (size fs)) fs "/out" "a.jpg" "/out/a.jpg" 1
  ∧ fs !! free_path 10 fs "/out" "a.jpg" "/out/a.jpg" 1 = None.
Proof.
  intros fs. assert (size fs < 10) as Hsize by (vm_compute; lia).
  split; [exact Hsize|].
  exact (collision_loop_terminates 10 fs "/out" "a.jpg" "/out/a.jpg" 1 Hsize).
Defined.

Lemma extractZip_returns_what_it_wrote_witness :
  let outcome :=
    extractZip (yauzl_reads scenario) "/tmp/up.zip" "/out" staged_archive in
  let files := ["/out/a.jpg"; "/out/a_1.jpg"; "/out/b.png"] in
  outcome = (inr files, outcome.2)
  ∧ ∀ q, q ∈ files <-> outcome.2 !! q ≠ staged_archive !! q.
Proof.
  intros outcome files. split; [exact scenario_extraction|].
  exact (extractZip_returns_what_it_wrote (yauzl_reads scenario)
           "/tmp/up.zip" "/out" staged_archive files outcome.2
           scenario_extraction).
Defined.

Lemma extractZip_count_bound_witness :
  let outcome :=
    extractZip (yauzl_reads scenario) "/tmp/up.zip" "/out" staged_archive in
  let files := ["/out/a.jpg"; "/out/a_1.jpg"; "/out/b.png"] in
  outcome = (inr files, outcome.2)
  ∧ ∃ content zipfile,
      staged_archive !! "/tmp/up.zip" = Some (File content)
      ∧ yauzl_reads scenario content = inr zipfile
      ∧ endError zipfile = None
      ∧ List.length files <= List.length (qualifying (entries zipfile)).
Proof.
  intros outcome files. split; [exact scenario_extraction|].
  exact (extractZip_count_bound (yauzl_reads scenario) "/tmp/up.zip"
           "/out" staged_archive files outcome.2 scenario_extraction).
Defined.

Lemma failed_entry_does_not_disturb_witness :
  let a := {| fileName := "a.jpg"; io := Piped "A" |} in
  let broken := {| fileName := "b.jpg"; io := ReadStreamError |} in
  let c := {| fileName := "c.png"; io := Piped "C" |} in
  io broken = ReadStreamError
  ∧ (fileName broken ∉ (fileName <$> [c]))
  ∧ fulfilled (writePromises (read_entries "/out" ∅ ([a] ++ broken :: [c])))
    = fulfilled (writePromises (read_entries "/out" ∅ ([a] ++ [c])))
  ∧ disk (read_entries "/out" ∅ ([a] ++ broken :: [c]))
    = disk (read_entries "/out" ∅ ([a] ++ [c])).
Proof.
  intros a broken c.
  assert (io broken = ReadStreamError) as Hio by reflexivity.
  assert (fileName broken ∉ (fileName <$> [c])) as Hlater.
  { intros Hin. apply list_elem_of_singleton in Hin. discriminate. }
  split; [exact Hio|]. split; [exact Hlater|].
  exact (failed_entry_does_not_disturb "/out" ∅ [a] broken [c] Hio Hlater).
Defined.

Lemma extracted_files_keep_extension_witness :
  let outcome :=
    extractZip (yauzl_reads scenario) "/tmp/up.zip" "/out" staged_archive in
  let files := ["/out/a.jpg"; "/out/a_1.jpg"; "/out/b.png"] in
  outcome = (inr files, outcome.2)
  ∧ "/out/a_1.jpg" ∈ files
  ∧ isImageFile "/out/a_1.jpg" = true
  ∧ ∃ content zipfile e,
      staged_archive !! "/tmp/up.zip" = Some (File content)
      ∧ yauzl_reads scenario content = inr zipfile
      ∧ e ∈ qualifying (entries zipfile)
      ∧ extname "/out/a_1.jpg" = extname (fileName e).
Proof.
  intros outcome files.
  assert ("/out/a_1.jpg" ∈ files) as Hin.
  { apply elem_of_cons. right. apply elem_of_cons. by left. }
  split; [exact scenario_extraction|]. split; [exact Hin|].
  exact (extracted_files_keep_extension (yauzl_reads scenario)
           "/tmp/up.zip" "/out" staged_archive files outcome.2
           "/out/a_1.jpg" scenario_extraction Hin).
Defined.

Lemma POST_wrong_suffix_witness :
  let file := {| name := "photos.ZIP"; bytes := "PK" |} in
  let answer :=
    POST (yauzl_reads scenario) "/app" 5 7 (Some file) earlier_upload in
  endsWith (name file) ".zip" = false
  ∧ answer.1 = ErrorJson 400 "File must be a ZIP file"
  ∧ answer.2 = earlier_upload.
Proof.
  intros file answer.
  assert (endsWith (name file) ".zip" = false) as Hsuffix by reflexivity.
  destruct (POST_wrong_suffix (yauzl_reads scenario) "/app" 5 7 (Some file)
              earlier_upload) as [[_ Hanswer] Hfs].
  assert (answer.1 = ErrorJson 400 "File must be a ZIP file") as Hrefused
    by (apply Hanswer; exists file; split; [reflexivity|exact Hsuffix]).
  split; [exact Hsuffix|]. split; [exact Hrefused|exact (Hfs Hrefused)].
Defined.

Lemma too_many_images_cleans_up_witness :
  List.length (qualifying (entries many_images)) = 101
  ∧ ∃ fs',
      POST (yauzl_reads many_images) "/app" 5 7 (Some photos_upload) ∅
      = (ErrorJson 400 "ZIP file contains more than 100 images", fs')
      ∧ fs' !! session_dir "/app" 7 = None
      ∧ fs' !! staging_path "/app" 5 = None
      ∧ ∀ p, Fs.is_under (session_dir "/app" 7) p = true -> fs' !! p = None.
Proof.
  assert (qualifying (entries many_images) = entries many_images) as Hall
    by (vm_compute; reflexivity).
  split; [by rewrite Hall|].
  apply (too_many_images_cleans_up (yauzl_reads many_images) "/app" 5 7
           photos_upload ∅ many_images).
  - exact app_normalized.
  - reflexivity.
  - rewrite lookup_empty. discriminate.
  - intros data. rewrite lookup_empty. discriminate.
  - reflexivity.
  - reflexivity.
  - rewrite Hall. unfold many_images, entries. rewrite <-list_fmap_compose.
    apply NoDup_fmap_2; [|apply NoDup_seq].
    intros i j Heq. unfold compose, numbered, fileName in Heq.
    apply string_app_inv_head, string_app_inv_tail in Heq.
    by apply (inj pretty) in Heq.
  - rewrite Hall. unfold many_images, entries.
    intros e (k & -> & _)%list_elem_of_fmap. by eexists.
  - rewrite Hall. unfold many_images, entries.
    rewrite length_fmap, length_seq. lia.
Defined.

Lemma upload_success_state_witness :
  let outcome :=
    POST (yauzl_reads scenario) "/app" 5 7 (Some photos_upload)
      earlier_upload in
  let dir := "/app/uploads/extract_7" in
  outcome = (UploadJson scenario_urls dir, outcome.2)
  ∧ dir = session_dir "/app" 7
  ∧ outcome.2 !! staging_path "/app" 5 = None
  ∧ outcome.2 !! dir = Some Directory
  ∧ 1 <= List.length scenario_urls <= 100
  ∧ NoDup scenario_urls
  ∧ ∀ url, url ∈ scenario_urls ->
      startsWith url ("/api/images/" +:+ extract_name 7 +:+ "/") = true.
Proof.
  intros outcome dir. split; [exact scenario_upload|].
  exact (upload_success_state (yauzl_reads scenario) "/app" 5 7 photos_upload
           earlier_upload scenario_urls dir outcome.2 app_normalized
           scenario_upload).
Defined.

Lemma upload_success_preserves_files_witness :
  let outcome :=
    POST (yauzl_reads scenario) "/app" 5 7 (Some photos_upload)
      earlier_upload in
  let old := "/app/uploads/extract_1/old.png" in
  outcome = (UploadJson scenario_urls "/app/uploads/extract_7", outcome.2)
  ∧ earlier_upload !! old = Some (File "OLD")
  ∧ old ≠ staging_path "/app" 5
  ∧ Fs.is_under (staging_path "/app" 5) old = false
  ∧ outcome.2 !! old = Some (File "OLD").
Proof.
  intros outcome old.
  assert (earlier_upload !! old = Some (File "OLD")) as Hold by reflexivity.
  assert (old ≠ staging_path "/app" 5) as Hne
    by (intros Heq; vm_compute in Heq; discriminate).
  assert (Fs.is_under (staging_path "/app" 5) old = false) as Hunder
    by (vm_compute; reflexivity).
  split; [exact scenario_upload|]. split; [exact Hold|]. split; [exact Hne|].
  split; [exact Hunder|].
  exact (upload_success_preserves_files (yauzl_reads scenario) "/app" 5 7
           photos_upload earlier_upload scenario_urls "/app/uploads/extract_7"
           outcome.2 old (File "OLD") app_normalized scenario_upload Hold Hne
           Hunder).
Defined.

Lemma sessions_have_disjoint_addresses_witness :
  let first :=
    POST (yauzl_reads scenario) "/app" 5 7 (Some photos_upload)
      earlier_upload in
  let second :=
    POST (yauzl_reads scenario) "/app" 6 8 (Some photos_upload)
      earlier_upload in
  let url := "/api/images/extract_7/a.jpg" in
  first = (UploadJson scenario_urls "/app/uploads/extract_7", first.2)
  ∧ second = (UploadJson later_urls "/app/uploads/extract_8", second.2)
  ∧ (7 ≠ 8)%N
  ∧ url ∈ scenario_urls
  ∧ (url ∉ later_urls).
Proof.
  intros first second url.
  assert ((7 ≠ 8)%N) as Hne by discriminate.
  assert (url ∈ scenario_urls) as Hurl by (apply elem_of_cons; by left).
  split; [exact scenario_upload|]. split; [exact scenario_upload_later|].
  split; [exact Hne|]. split; [exact Hurl|].
  exact (sessions_have_disjoint_addresses (yauzl_reads scenario)
           (yauzl_reads scenario) "/app" 5 7 6 8 photos_upload photos_upload
           earlier_upload earlier_upload scenario_urls later_urls
           "/app/uploads/extract_7" "/app/uploads/extract_8" first.2 second.2
           url app_normalized scenario_upload scenario_upload_later Hne Hurl).
Defined.

Lemma upload_addresses_sorted_witness :
  let outcome :=
    POST (yauzl_reads scenario) "/app" 5 7 (Some photos_upload)
      earlier_upload in
  outcome = (UploadJson scenario_urls "/app/uploads/extract_7", outcome.2)
  ∧ ∃ locations,
      scenario_urls = image_url "/app" <$> locations
      ∧ StronglySorted String.le locations
      ∧ StronglySorted String.le
          (relative "/app" (UPLOAD_DIR "/app") <$> locations)
      ∧ ∀ p, p ∈ locations -> ∃ data, outcome.2 !! p = Some (File data).
Proof.
  intros outcome. split; [exact scenario_upload|].
  exact (upload_addresses_sorted (yauzl_reads scenario) "/app" 5 7
           photos_upload earlier_upload scenario_urls
           "/app/uploads/extract_7" outcome.2 app_normalized scenario_upload).
Defined.

Lemma GET_descendant_witness :
  let fs : gmap string node :=
    {[ "/app/uploads/extract_7/b.PNG" := File "C" ]} in
  let pathSegments := ["extract_7"; "b.PNG"] in
  Forall Plain pathSegments
  ∧ descendant_of (UPLOAD_DIR "/app") (join (UPLOAD_DIR "/app" :: pathSegments))
  ∧ GET "/app" (Some pathSegments) fs
    = (match fs !! join (UPLOAD_DIR "/app" :: pathSegments) with
       | Some (File data) =>
           ImageResponse data
             (content_type
                (toLowerCase
                   (extname (join (UPLOAD_DIR "/app" :: pathSegments)))))
       | Some Directory => ErrorJson 500 "Failed to serve image"
       | None => ErrorJson 404 "File not found"
       end, fs).
Proof.
  intros fs pathSegments.
  assert (Forall Plain pathSegments) as Hplain.
  { apply Forall_cons_2; [by repeat split|].
    apply Forall_cons_2; [by repeat split|]. apply Forall_nil_2. }
  split; [exact Hplain|].
  apply (GET_descendant "/app" pathSegments fs app_normalized Hplain).
  discriminate.
Defined.

Lemma GET_rejects_sibling_witness :
  Plain "temp" ∧ Forall Plain ["upload_5.zip"]
  ∧ startsWith (join_slash ["temp"; "upload_5.zip"]) "uploads" = false
  ∧ GET "/app" (Some [".."; "temp"; "upload_5.zip"])
      {[ "/app/temp/upload_5.zip" := File "PK" ]}
    = (ErrorJson 403 "Invalid path",
       {[ "/app/temp/upload_5.zip" := File "PK" ]}).
Proof.
  assert (Plain "temp") as Hs by (by repeat split).
  assert (Forall Plain ["upload_5.zip"]) as Hrest.
  { apply Forall_cons_2; [by repeat split|apply Forall_nil_2]. }
  assert (startsWith (join_slash ["temp"; "upload_5.zip"]) "uploads" = false)
    as Hprefix by reflexivity.
  split; [exact Hs|]. split; [exact Hrest|]. split; [exact Hprefix|].
  exact (GET_rejects_sibling "/app" "temp" ["upload_5.zip"] _ app_normalized
           Hs Hrest Hprefix).
Defined.

Lemma GET_reads_only_witness :
  let fs : gmap string node :=
    {[ "/app/uploads/extract_7/anim.gif" := File "GIF89a" ]} in
  let answer := GET "/app" (Some ["extract_7"; "anim.gif"]) fs in
  answer.1 = ImageResponse "GIF89a" "image/gif"
  ∧ answer.2 = fs
  ∧ ∃ segments,
      Some ["extract_7"; "anim.gif"] = Some segments
      ∧ fs !! join (UPLOAD_DIR "/app" :: segments) = Some (File "GIF89a")
      ∧ startsWith (resolve "/app" [join (UPLOAD_DIR "/app" :: segments)])
          (resolve "/app" [UPLOAD_DIR "/app"]) = true
      ∧ "image/gif"
        ∈ ["image/jpeg"; "image/png"; "image/gif"; "image/webp"; "image/bmp"].
Proof.
  intros fs answer.
  assert (answer.1 = ImageResponse "GIF89a" "image/gif") as Hserved
    by (vm_compute; reflexivity).
  destruct (GET_reads_only "/app" (Some ["extract_7"; "anim.gif"]) fs)
    as [Hfs Hsound].
  split; [exact Hserved|]. split; [exact Hfs|].
  exact (Hsound "GIF89a" "image/gif" Hserved).
Defined.

Lemma classify_reads_uploaded_image_witness :
  let outcome :=
    POST (yauzl_reads scenario) "/app" 5 7 (Some photos_upload)
      earlier_upload in
  let url := "/api/images/extract_7/a_1.jpg" in
  outcome = (UploadJson scenario_urls "/app/uploads/extract_7", outcome.2)
  ∧ Forall (fun e => NoBackslash (fileName e)) (entries scenario)
  ∧ url ∈ scenario_urls
  ∧ ∃ location e data,
      e ∈ qualifying (entries scenario) ∧ io e = Piped data
      ∧ outcome.2 !! location = Some (File data)
      ∧ url = image_url "/app" location
      ∧ getImageBase64 "/app" decode_plain encode_stub url outcome.2
        = (inr ("data:" +:+ content_type (toLowerCase (extname location))
                +:+ ";base64," +:+ encode_stub data), outcome.2).
Proof.
  intros outcome url.
  assert (Forall (fun e => NoBackslash (fileName e)) (entries scenario))
    as Hnames by (repeat (apply Forall_cons_2; [reflexivity|]);
                  apply Forall_nil_2).
  assert (url ∈ scenario_urls) as Hurl.
  { apply elem_of_cons. right. apply elem_of_cons. by left. }
  split; [exact scenario_upload|]. split; [exact Hnames|].
  split; [exact Hurl|].
  exact (classify_reads_uploaded_image (yauzl_reads scenario) decode_plain
           encode_stub "/app" 5 7 photos_upload scenario earlier_upload
           scenario_urls "/app/uploads/extract_7" outcome.2 url app_normalized
           scenario_upload eq_refl Hnames Hurl eq_refl).
Defined.

Lemma classify_reads_next_to_upload_dir_witness :
  let fs : gmap string node := {[ "/app/package.json" := File "{}" ]} in
  Plain "package.json"
  ∧ fs !! join ["/app"; "package.json"] = Some (File "{}")
  ∧ ¬ descendant_of (UPLOAD_DIR "/app") (join ["/app"; "package.json"])
  ∧ getImageBase64 "/app" decode_plain encode_stub
      ("/api/images/../" +:+ "package.json") fs
    = (inr ("data:"
            +:+ content_type
                  (toLowerCase (extname (join ["/app"; "package.json"])))
            +:+ ";base64," +:+ encode_stub "{}"), fs).
Proof.
  intros fs.
  assert (Plain "package.json") as Hleaf by (by repeat split).
  assert (fs !! join ["/app"; "package.json"] = Some (File "{}")) as Hfile
    by (vm_compute; reflexivity).
  split; [exact Hleaf|]. split; [exact Hfile|].
  exact (classify_reads_next_to_upload_dir decode_plain encode_stub "/app"
           "package.json" "{}" fs app_normalized Hleaf eq_refl Hfile).
Defined.

Lemma classification_by_words_witness :
  (∀ word, word ∈ background_words ->
     includes (toLowerCase "A Colored wall") word
     = includes (toLowerCase "some color") word)
  ∧ classification_of None "A Colored wall"
    = classification_of None "some color".
Proof.
  assert (∀ word, word ∈ background_words ->
            includes (toLowerCase "A Colored wall") word
            = includes (toLowerCase "some color") word) as Hwords.
  { intros word Hin. unfold background_words in Hin.
    repeat (apply elem_of_cons in Hin as [->|Hin]; [reflexivity|]).
    by apply elem_of_nil in Hin. }
  split; [exact Hwords|].
  exact (classification_by_words None "A Colored wall" "some color" Hwords).
Defined.

Lemma page_shows_every_address_witness :
  let outcome :=
    POST (yauzl_reads scenario) "/app" 5 7 (Some photos_upload)
      earlier_upload in
  (∀ l : list string, reverse l ≡ₚ l)
  ∧ outcome = (UploadJson scenario_urls "/app/uploads/extract_7", outcome.2)
  ∧ ∃ images,
      Page.images_of_response reverse scenario_urls = inr images
      ∧ images = imap Page.initial_image (reverse scenario_urls)
      ∧ Page.url <$> images ≡ₚ scenario_urls
      ∧ List.length images = List.length scenario_urls.
Proof.
  intros outcome.
  split; [exact reverse_Permutation|]. split; [exact scenario_upload|].
  exact (page_shows_every_address reverse (yauzl_reads scenario) "/app" 5 7
           photos_upload earlier_upload scenario_urls
           "/app/uploads/extract_7" outcome.2 app_normalized
           reverse_Permutation scenario_upload).
Defined.

Lemma returned_addresses_resolve_witness :
  let outcome :=
    POST (yauzl_reads scenario) "/app" 5 7 (Some photos_upload) ∅ in
  let urls := ["/api/images/extract_7/a.jpg";
               "/api/images/extract_7/a_1.jpg";
               "/api/images/extract_7/b.png"] in
  outcome = (UploadJson urls "/app/uploads/extract_7", outcome.2)
  ∧ ∃ zipfile,
      yauzl_reads scenario (bytes photos_upload) = inr zipfile
      ∧ ∀ url, url ∈ urls ->
          ∃ location e data rel,
            url = "/api/images/" +:+ rel
            ∧ rel = replace_backslashes
                      (relative "/app" (UPLOAD_DIR "/app") location)
            ∧ e ∈ qualifying (entries zipfile) ∧ io e = Piped data
            ∧ outcome.2 !! location = Some (File data)
            ∧ (Forall (fun e => all_chars url_neutral (fileName e) = true)
                 (entries zipfile) ->
               GET "/app" (Some (split_slash rel)) outcome.2
               = (ImageResponse data
                    (content_type (toLowerCase (extname location))),
                  outcome.2)).
Proof.
  intros outcome urls.
  assert (outcome = (UploadJson urls "/app/uploads/extract_7", outcome.2))
    as Hpost by (vm_compute; reflexivity).
  split; [exact Hpost|].
  exact (returned_addresses_resolve (yauzl_reads scenario) "/app" 5 7
           photos_upload ∅ urls "/app/uploads/extract_7" outcome.2
           app_normalized Hpost).
Defined.
